(** * campus-paths: the graph / shortest-path engine

    A shallow embedding of the Java core of the repository
    ([LabeledEdge], [LabeledGraph], [ShortestPathFinder], [CampusMap])
    and of two callers of it (the [POST /path] handler of
    [SparkServer] and the commands of [PathfinderTestDriver]),
    together with the properties its specification states about it
    and further properties of the code.

    Conventions of the embedding.
    - A Java reference of type [A] that may be [null] is an [option A]
      ([None] is [null]).  A value that the code can only hold non-null
      (the fields of a [LabeledEdge], whose constructor rejects [null])
      has type [A].
    - A method of a mutable object is a computation in the monad
      [M S A := S -> Outcome A * S]: it receives the object's state and
      gives back either a returned value or a thrown [Throwable],
      together with the state it leaves behind.
    - [HashMap] is [gmap], [HashSet] is [gset].
    - Java's [double] is a type [D] with the operations of [DoubleOps];
      the laws the proofs rely on are those of [DoubleLaws].

    The program comes first (the modules [LabeledEdge], [LabeledGraph],
    [Path], [ShortestPathFinder], [CampusMap], [SparkServer] and
    [PathfinderTestDriver]), then the predicates the properties are
    stated with, then the properties, then examples on concrete
    graphs and maps. *)

From stdpp Require Import gmap strings list fin_maps sorting pretty.
From Stdlib Require Import ZArith Lia.

(* stdpp's solvers clear hypotheses that are sometimes not there. *)
#[local] Set Warnings "-clear-no-such-hyp".

(** ** Java effects *)

(** The throwables the modelled code raises. *)
Inductive Throwable :=
  | IllegalArgumentException
  | RuntimeException
  | AssertionError
  | NullPointerException.

#[global] Instance Throwable_eq_dec : EqDecision Throwable.
Proof. solve_decision. Defined.

(** The failure the specification calls [InvalidArgument]. *)
Definition InvalidArgument : Throwable := IllegalArgumentException.

Inductive Outcome (A : Type) :=
  | Return (a : A)
  | Throw (e : Throwable).
Arguments Return {A} a.
Arguments Throw {A} e.

(** Whether the JVM runs with assertions enabled ([java -ea]). *)
Class JVM := { assertionsEnabled : bool }.

Definition M (S A : Type) : Type := S → Outcome A * S.

#[global] Instance M_ret {S} : MRet (M S) := λ A a s, (Return a, s).
#[global] Instance M_bind {S} : MBind (M S) := λ A B f m s,
  match m s with
  | (Return a, s') => f a s'
  | (Throw e, s') => (Throw e, s')
  end.

Definition throw {S A} (e : Throwable) : M S A := λ s, (Throw e, s).
Definition get {S} : M S S := λ s, (Return s, s).
Definition put {S} (s : S) : M S unit := λ _, (Return (), s).
Definition lift {S A} (o : Outcome A) : M S A := λ s, (o, s).

(** [assert b;] *)
Definition jassert {jvm : JVM} {S} (b : bool) : M S unit :=
  if assertionsEnabled && negb b then throw AssertionError else mret ().

(** The outcome and the final state of a computation. *)
Definition outcome {S A} (m : M S A) (s : S) : Outcome A := (m s).1.
Definition state_after {S A} (m : M S A) (s : S) : S := (m s).2.

(** [Object.hashCode()], a Java [int]. *)
Class HashCode (A : Type) := hashCode : A → Z.

(** A Java [int]: the 32-bit two's complement value of an integer, which
    is what [int] arithmetic leaves of its exact result. *)
Definition int32 (z : Z) : Z := ((z + 2 ^ 31) `mod` 2 ^ 32 - 2 ^ 31)%Z.

(** [Integer.compare(x, y)] *)
Definition Integer_compare (x y : Z) : Z :=
  if (x <? y)%Z then (-1)%Z else if (x =? y)%Z then 0%Z else 1%Z.

(** [Comparable<T>.compareTo] and [Object.toString()]. *)
Class Comparable (T : Type) := compareTo : T → T → Z.
Class ToString (A : Type) := toString : A → string.

(** ** Java's [double]

    Only what the engine uses: [0.0], [+], and the order of
    [Double.compare] (which [Comparator.comparingDouble] applies). *)
Class DoubleOps (D : Type) := {
  dzero : D;
  dadd : D → D → D;
  dle : D → D → bool;
}.

(** The laws of that order and of rounded addition the proofs use: the
    order is a total preorder, addition of a fixed weight is monotone,
    and adding a non-negative weight does not decrease a cost.  They
    are those of exact arithmetic, and of rounded addition on the
    costs that occur (non-negative and not NaN), rounding being
    monotone. *)
Class DoubleLaws (D : Type) `{DoubleOps D} := {
  dle_total : ∀ a b : D, dle a b = true ∨ dle b a = true;
  dle_trans : ∀ a b c : D, dle a b = true → dle b c = true → dle a c = true;
  dadd_mono : ∀ a b w : D, dle a b = true → dle (dadd a w) (dadd b w) = true;
  dadd_nonneg : ∀ a w : D, dle dzero w = true → dle a (dadd a w) = true;
}.

(** Exact integer arithmetic is one model of these operations. *)
#[global] Instance Z_DoubleOps : DoubleOps Z :=
  {| dzero := 0%Z; dadd := Z.add; dle := Z.leb |}.

(** ** LabeledEdge *)

Module LabeledEdge.
Section LabeledEdge.
Context {jvm : JVM} {E T : Type}.

Record t := mk { nodeFrom : E; nodeTo : E; label : T }.

(** [checkRep] of a candidate edge whose fields are the given
    references. *)
Definition checkRep (from to : option E) (label : option T)
  : Outcome unit :=
  if bool_decide (from = None) then Throw RuntimeException
  else if bool_decide (to = None) then Throw RuntimeException
  else if bool_decide (label = None) then Throw RuntimeException
  else Return ().

(** [new LabeledEdge<>(from, to, label)]: the assertion, then the
    field assignments, then [checkRep].  An edge object therefore
    never holds a [null]. *)
Definition new (from to : option E) (label : option T) : Outcome t :=
  if assertionsEnabled &&
     negb (bool_decide (from ≠ None) && bool_decide (to ≠ None)
           && bool_decide (label ≠ None))
  then Throw AssertionError
  else
    match checkRep from to label, from, to, label with
    | Return _, Some f, Some t', Some l => Return (mk f t' l)
    | Throw e, _, _, _ => Throw e
    | _, _, _, _ => Throw RuntimeException
    end.

Definition from (e : t) : E := nodeFrom e.
Definition to (e : t) : E := nodeTo e.
End LabeledEdge.
Arguments t : clear implicits.

Section instances.
Context `{Countable E, Countable T}.

#[global] Instance eq_dec : EqDecision (t E T).
Proof. solve_decision. Defined.

#[global] Instance countable : Countable (t E T).
Proof.
  refine (inj_countable' (λ e, (nodeFrom e, nodeTo e, label e))
                         (λ p, mk p.1.1 p.1.2 p.2) _).
  by intros [].
Defined.
End instances.

Section comparison.
Context `{EqDecision E, EqDecision T}.
Context {hashE : HashCode E} {hashT : HashCode T} {cmpT : Comparable T}.

(** [equals(o)], for an [o] that is [null] or an edge; an object of
    another class is not an instance of [LabeledEdge] either.  The
    [equals] of the nodes and of the labels is equality. *)
Definition equals (this : t E T) (o : option (t E T)) : bool :=
  match o with
  | None => false
  | Some check =>
    bool_decide (label check = label this)
    && bool_decide (from check = nodeFrom this)
    && bool_decide (to check = nodeTo this)
  end.

(** [compareTo(o)]; [o.to()] of a [null] is a [NullPointerException]. *)
Definition compareTo (this : t E T) (o : option (t E T)) : Outcome Z :=
  if equals this o then Return 0%Z
  else
    match o with
    | None => Throw NullPointerException
    | Some o =>
      Return (if bool_decide (to this = to o)
              then compareTo (label this) (label o)
              else Integer_compare (hashCode (to this)) (hashCode (to o)))
    end.

(** [hashCode()], in [int] arithmetic. *)
#[global] Instance hashCode : HashCode (t E T) := λ this,
  int32 (Z.lxor (hashCode (nodeFrom this)) (hashCode (nodeTo this))
         + hashCode (label this)).
End comparison.
End LabeledEdge.

(** ** LabeledGraph *)

Module LabeledGraph.
Section LabeledGraph.
Context {jvm : JVM} `{Countable E, Countable T}.

Abbreviation Edge := (LabeledEdge.t E T).

(** The two fields of the class.  A [HashSet<E>] and the key set of a
    [HashMap<E, _>] can hold [null], hence [option E]. *)
Record t := mk {
  nodes : gset (option E);
  neighbors : gmap (option E) (gset Edge);
}.

(** [new LabeledGraph<>()] *)
Definition new : t := mk ∅ ∅.

Definition DEBUG : bool := false.

(** The checks [checkRep] runs when [DEBUG] is set. *)
Definition checkRep_debug : M t unit :=
  g ← get;
  jassert (bool_decide (dom (neighbors g) = nodes g));;
  if bool_decide (None ∈ dom (neighbors g)) then throw RuntimeException
  else if bool_decide (map_Forall (λ _ edges,
            set_Forall (λ edge : Edge,
              Some (LabeledEdge.to edge) ∈ dom (neighbors g)) edges)
            (neighbors g))
  then mret ()
  else throw RuntimeException.

(** [checkRep()]: the field [neighbors] is never [null], and the
    remaining checks are guarded by [DEBUG]. *)
Definition checkRep : M t unit :=
  if DEBUG then checkRep_debug else mret ().

(** [addNode(add)] *)
Definition addNode (add : option E) : M t bool :=
  checkRep;;
  jassert (bool_decide (add ≠ None));;
  g ← get;
  if bool_decide (add ∈ nodes g) then
    checkRep;;
    mret false
  else
    put (mk (nodes g) (<[add := ∅]> (neighbors g)));;
    g ← get;
    put (mk ({[add]} ∪ nodes g) (neighbors g));;
    checkRep;;
    mret true.

(** [neighbors.containsKey(k)] *)
Definition containsKey (g : t) (k : option E) : bool :=
  bool_decide (is_Some (neighbors g !! k)).

(** [addEdge(from, to, label)].  [edgeSet] is the set stored in the
    map, so [edgeSet.add(edge)] updates the map entry of [from]. *)
Definition addEdge (from to : option E) (label : option T) : M t bool :=
  checkRep;;
  jassert (bool_decide (from ≠ None) && bool_decide (to ≠ None)
           && bool_decide (label ≠ None));;
  g ← get;
  if negb (containsKey g from) || negb (containsKey g to) then
    throw IllegalArgumentException
  else
    match neighbors g !! from with
    | None => throw NullPointerException
    | Some edgeSet =>
      edge ← lift (LabeledEdge.new from to label);
      if negb (bool_decide (edge ∈ edgeSet)) then
        put (mk (nodes g) (<[from := {[edge]} ∪ edgeSet]> (neighbors g)));;
        checkRep;;
        mret true
      else
        checkRep;;
        mret false
    end.

(** [removeEdge(from, to, label)]; [None] is the returned [null]. *)
Definition removeEdge (from to : option E) (label : option T)
  : M t (option Edge) :=
  checkRep;;
  jassert (bool_decide (from ≠ None) && bool_decide (to ≠ None)
           && bool_decide (label ≠ None));;
  g ← get;
  if negb (containsKey g from) || negb (containsKey g to) then
    throw IllegalArgumentException
  else
    match neighbors g !! from with
    | None => throw NullPointerException
    | Some edgeSet =>
      edge ← lift (LabeledEdge.new from to label);
      if negb (bool_decide (edge ∈ edgeSet)) then
        mret None
      else
        put (mk (nodes g) (<[from := edgeSet ∖ {[edge]}]> (neighbors g)));;
        checkRep;;
        mret (Some edge)
    end.

(** [Comparator.comparingInt(Object::hashCode)] on the elements of the
    list; [hashCode] of a [null] element is a [NullPointerException]. *)
Definition compareHash {hash : HashCode E} (a b : E) : Prop :=
  (hashCode a ≤ hashCode b)%Z.

#[global] Instance compareHash_dec {hash : HashCode E}
  : RelDecision compareHash.
Proof. intros a b. unfold compareHash. apply _. Defined.

Definition unbox_all (l : list (option E)) : Outcome (list E) :=
  match mapM id l with
  | Some l' => Return l'
  | None => Throw NullPointerException
  end.

(** [listNodes()]: the elements of [nodes], sorted by [hashCode].
    [List.sort] compares nothing in a list of at most one element.
    The order of the elements of the set before the sort, and so the
    order of nodes with equal hash codes after it, is that of
    [elements], which stands for the iteration order of the
    [HashSet]. *)
Definition listNodes {hash : HashCode E} : M t (list (option E)) :=
  checkRep;;
  g ← get;
  let ret := elements (nodes g) in
  if bool_decide (length ret ≤ 1) then mret ret
  else
    sorted ← lift (unbox_all ret);
    mret (Some <$> merge_sort compareHash sorted).

(** [listEdgesOut(node)] *)
Definition listEdgesOut (node : option E) : M t (gset Edge) :=
  checkRep;;
  jassert (bool_decide (node ≠ None));;
  g ← get;
  if negb (containsKey g node) then throw IllegalArgumentException
  else
    match neighbors g !! node with
    | None => throw NullPointerException
    | Some edges => mret edges
    end.

(** [listChildren(parentNode)].  [children] is a [HashSet<String>],
    and [Collections.sort] sorts the list of its elements by
    [String.compareTo]. *)
Definition listChildren {strE : ToString E} {strT : ToString T}
    (parentNode : option E) : M t (list string) :=
  edges ← listEdgesOut parentNode;
  let children : gset string :=
    foldl (λ children edgeOut,
             {[toString (LabeledEdge.to edgeOut) +:+ "("
               +:+ toString (LabeledEdge.label edgeOut) +:+ ")"]}
             ∪ children)
          ∅ (elements edges) in
  let ret := elements children in
  mret (merge_sort String.le ret).

(** [contains(node)] *)
Definition contains (node : option E) : M t bool :=
  checkRep;;
  jassert (bool_decide (node ≠ None));;
  g ← get;
  mret (containsKey g node).

(** [size()] *)
Definition size_ : M t nat :=
  checkRep;;
  g ← get;
  mret (size (neighbors g)).

(** [numEdges(n1, n2)].  Iterating over the [null] that
    [neighbors.get(n1)] returns for an absent key is a
    [NullPointerException]; [edge.to().equals(n2)] compares the
    non-null [to] of the edge with the reference [n2]. *)
Definition numEdges (n1 n2 : option E) : M t nat :=
  checkRep;;
  jassert (bool_decide (n1 ≠ None) && bool_decide (n2 ≠ None));;
  g ← get;
  jassert (containsKey g n1);;
  jassert (containsKey g n2);;
  match neighbors g !! n1 with
  | None => throw NullPointerException
  | Some edges =>
    mret (length (filter (λ edge : Edge, Some (LabeledEdge.to edge) = n2)
                         (elements edges)))
  end.
End LabeledGraph.
Arguments t E {_ _} T {_ _}.
End LabeledGraph.

(** ** Path *)

Module Path.
Section Path.
Context {E D : Type} `{DoubleOps D}.

(** Modelled from the spec: the class [pathfinder.datastructures.Path]
    is not among the sources.  A path is an immutable, ordered
    sequence of segments (start node, end node, cost) with a start
    node and a cost; it is built from a single start node with zero
    segments and cost 0, and [extend] gives a new path with one more
    segment from the current end, its cost being the old cost plus
    the cost of the segment. *)
Record Segment := mkSegment { segStart : E; segEnd : E; segCost : D }.

Record t := mk { start : E; path : list Segment; cost : D }.

(** [new Path<>(start)] *)
Definition new (start : E) : t := mk start [] dzero.

Definition getStart (p : t) : E := start p.

Definition getEnd (p : t) : E :=
  match last (path p) with
  | Some seg => segEnd seg
  | None => start p
  end.

Definition getCost (p : t) : D := cost p.

Definition extend (p : t) (newEnd : E) (segmentCost : D) : t :=
  mk (start p)
     (path p ++ [mkSegment (getEnd p) newEnd segmentCost])
     (dadd (cost p) segmentCost).
End Path.
Arguments Segment : clear implicits.
Arguments t : clear implicits.

Section instances.
Context `{Countable E, Countable D}.

#[global] Instance Segment_eq_dec : EqDecision (Segment E D).
Proof. solve_decision. Defined.

#[global] Instance eq_dec : EqDecision (t E D).
Proof. solve_decision. Defined.
End instances.
End Path.

(** ** java.util.PriorityQueue

    The queue is a library class; the engine uses [add], [poll] and
    [isEmpty] on a queue built with a comparator.  [pq_items] is the
    content of the queue, in no particular order. *)
Class PriorityQueueOps (A Q : Type) := {
  pq_new : Q;
  pq_add : (A → A → bool) → A → Q → Q;
  pq_poll : (A → A → bool) → Q → option (A * Q);
  pq_items : Q → list A;
}.

(** [isEmpty()] *)
Definition pq_isEmpty `{PriorityQueueOps A Q} (q : Q) : bool :=
  bool_decide (length (pq_items q) = 0).

(** The contract of the library class, for a comparator [le] that is a
    total preorder: [add] adds one element, [poll] removes a least
    element and is [null] exactly on an empty queue. *)
Class PriorityQueueLaws (A Q : Type) `{PriorityQueueOps A Q} := {
  pq_items_new : pq_items (pq_new (A:=A) (Q:=Q)) = [];
  pq_items_add : ∀ le x (q : Q), pq_items (pq_add le x q) ≡ₚ x :: pq_items q;
  pq_poll_None : ∀ le (q : Q), pq_poll le q = None ↔ pq_items q = [];
  pq_poll_Some : ∀ le (q q' : Q) x,
    pq_poll le q = Some (x, q') → pq_items q ≡ₚ x :: pq_items q';
  pq_poll_least : ∀ (le : A → A → bool) (q q' : Q) x,
    (∀ a b, le a b = true ∨ le b a = true) →
    (∀ a b c, le a b = true → le b c = true → le a c = true) →
    pq_poll le q = Some (x, q') → ∀ y, y ∈ pq_items q → le x y = true;
}.

(** One implementation: an unordered list, [poll] taking out the first
    least element. *)
Fixpoint list_poll {A} (le : A → A → bool) (l : list A)
  : option (A * list A) :=
  match l with
  | [] => None
  | x :: l' =>
    match list_poll le l' with
    | None => Some (x, [])
    | Some (m, rest) =>
      if le x m then Some (x, l') else Some (m, x :: rest)
    end
  end.

#[global] Instance list_PriorityQueueOps {A} : PriorityQueueOps A (list A) :=
  {| pq_new := [];
     pq_add := λ _ x q, q ++ [x];
     pq_poll := list_poll;
     pq_items := λ q, q |}.

(** ** ShortestPathFinder *)

Module ShortestPathFinder.
Section ShortestPathFinder.
Context {jvm : JVM} `{Countable E} `{Countable D} `{!DoubleOps D}.
Context `{!PriorityQueueOps (Path.t E D) Q}.

Abbreviation Edge := (LabeledEdge.t E D).
Abbreviation Graph := (LabeledGraph.t E D).
Abbreviation Path := (Path.t E D).

(** [Comparator.comparingDouble(Path::getCost)] *)
Definition comparator (a b : Path) : bool :=
  dle (Path.getCost a) (Path.getCost b).

(** The [for] loop over the edges out of [minDest]: [finished] does
    not change while it runs. *)
Definition extendAll (finished : gset E) (minPath : Path)
    (edges : list Edge) (fringe : Q) : Q :=
  foldl (λ fringe edge,
           let child := LabeledEdge.to edge in
           if negb (bool_decide (child ∈ finished)) then
             let newPath :=
               Path.extend minPath child (LabeledEdge.label edge) in
             pq_add comparator newPath fringe
           else fringe)
        fringe edges.

(** What one evaluation of the loop condition and the loop body leads
    to: the method returns or throws, or the loop goes on with a new
    [finished] and [fringe]. *)
Inductive Step :=
  | Exit (result : Outcome (option Path))
  | Next (finished : gset E) (fringe : Q).

(** [Return None] is the [return null] after the loop; [poll()] of a
    queue that is not empty does not return [null]. *)
Definition iteration (graph : Graph) (end_ : E)
    (finished : gset E) (fringe : Q) : Step :=
  if pq_isEmpty fringe then Exit (Return None) else
  match pq_poll comparator fringe with
  | None => Exit (Throw NullPointerException)
  | Some (minPath, fringe) =>
    let minDest := Path.getEnd minPath in
    if bool_decide (minDest = end_) then Exit (Return (Some minPath))
    else if bool_decide (minDest ∈ finished) then Next finished fringe
    else
      match outcome (LabeledGraph.listEdgesOut (Some minDest)) graph with
      | Throw e => Exit (Throw e)
      | Return edges =>
        let fringe := extendAll finished minPath (elements edges) fringe in
        Next ({[minDest]} ∪ finished) fringe
      end
  end.

(** The [while] loop, run for at most [fuel] iterations; [None] when
    it is still running after that. *)
Fixpoint loop (fuel : nat) (graph : Graph) (end_ : E)
    (finished : gset E) (fringe : Q) : option (Outcome (option Path)) :=
  match fuel with
  | 0 => None
  | S fuel =>
    match iteration graph end_ finished fringe with
    | Exit result => Some result
    | Next finished fringe => loop fuel graph end_ finished fringe
    end
  end.

(** A number of iterations the loop never exceeds: every iteration
    polls one path, and paths are added only when a node of the graph
    is finished, one for each of its edges at most. *)
Definition iterations (graph : Graph) : nat :=
  2 + map_fold (λ _ edges n, S (size edges) + n) 0
               (LabeledGraph.neighbors graph).

(** [shortestPathSolver(graph, start, end)].  The edge labels are
    cast to [Double], so the graph is one with [double] labels, and
    [start] and [end] are non-null references: the
    [ClassCastException] of the cast for a label of another type and
    the [NullPointerException] of [minDest.equals(end)] for a [null]
    start are outside this function.  The last case is never taken
    ([loop_terminates]). *)
Definition shortestPathSolver (graph : Graph) (start end_ : E)
  : Outcome (option Path) :=
  let finished : gset E := ∅ in
  let fringe := pq_add comparator (Path.new start) pq_new in
  match loop (iterations graph) graph end_ finished fringe with
  | Some r => r
  | None => Return None
  end.
End ShortestPathFinder.
End ShortestPathFinder.

(** ** CampusMap *)

Module CampusMap.
(** [ShortestPathPair<String, String>]: [equals] compares [start] with
    [start] and [end] with [end]. *)
Abbreviation ShortestPathPair := (string * string)%type.

Section CampusMap.
Context {jvm : JVM} `{Countable D} `{!DoubleOps D}.

(** Modelled from the spec: the classes [Point], [CampusBuilding] and
    [CampusPath] are not among the sources.  A point is a coordinate
    pair with exact equality; a building record has a short name, a
    long name and coordinates; a path record has two end points and a
    distance. *)
Record Point := mkPoint { getX : D; getY : D }.

Record CampusBuilding := mkBuilding {
  getShortName : string;
  getLongName : string;
  buildingX : D;
  buildingY : D;
}.

Record CampusPath := mkPath {
  getX1 : D; getY1 : D; getX2 : D; getY2 : D;
  getDistance : D;
}.

#[global] Instance Point_eq_dec : EqDecision Point.
Proof. solve_decision. Defined.

#[global] Instance Point_countable : Countable Point.
Proof.
  refine (inj_countable' (λ p, (getX p, getY p))
                         (λ c, mkPoint c.1 c.2) _).
  by intros [].
Defined.

#[global] Instance CampusBuilding_eq_dec : EqDecision CampusBuilding.
Proof. solve_decision. Defined.

#[global] Instance CampusBuilding_countable : Countable CampusBuilding.
Proof.
  refine (inj_countable'
            (λ b, (getShortName b, getLongName b, buildingX b, buildingY b))
            (λ c, mkBuilding c.1.1.1 c.1.1.2 c.1.2 c.2) _).
  by intros [].
Defined.

Context `{!PriorityQueueOps (Path.t Point D) Q}.

Abbreviation Path := (Path.t Point D).

(** The fields of the class.  A value of [shortestPathMap] is a
    reference, [null] for "no path".  [solverCalls] is not a field of
    the class: it counts the calls of
    [ShortestPathFinder.shortestPathSolver] made on behalf of this
    object, so that a call served from the cache can be told from one
    that is not. *)
Record t := mk {
  graph : LabeledGraph.t Point D;
  pointToBuildings : gmap Point CampusBuilding;
  shortNameToPoint : gmap string Point;
  shortestPathMap : gmap ShortestPathPair (option Path);
  buildings : gset CampusBuilding;
  solverCalls : nat;
}.

(** A method of the field [graph] called from a method of the map. *)
Definition onGraph {A} (m : M (LabeledGraph.t Point D) A) : M t A :=
  λ cm,
    let '(r, g) := m (graph cm) in
    (r, mk g (pointToBuildings cm) (shortNameToPoint cm)
           (shortestPathMap cm) (buildings cm) (solverCalls cm)).

(** [checkRep()]: none of the fields is ever [null]. *)
Definition checkRep : M t unit :=
  cm ← get;
  if negb (bool_decide (size (shortNameToPoint cm)
                        = size (pointToBuildings cm)))
  then throw RuntimeException
  else mret ().

(** The body of the first loop of the constructor. *)
Definition addBuilding (b : CampusBuilding) : M t unit :=
  let p := mkPoint (buildingX b) (buildingY b) in
  cm ← get;
  put (mk (graph cm) (<[p := b]> (pointToBuildings cm))
          (<[getShortName b := p]> (shortNameToPoint cm))
          (shortestPathMap cm) ({[b]} ∪ buildings cm) (solverCalls cm));;
  onGraph (LabeledGraph.addNode (Some p));;
  mret ().

(** The body of the second loop of the constructor. *)
Definition addPath (path : CampusPath) : M t unit :=
  let start := mkPoint (getX1 path) (getY1 path) in
  let end_ := mkPoint (getX2 path) (getY2 path) in
  onGraph (LabeledGraph.addNode (Some start));;
  onGraph (LabeledGraph.addNode (Some end_));;
  onGraph (LabeledGraph.addEdge (Some start) (Some end_)
                                (Some (getDistance path)));;
  mret ().

Fixpoint forEach {S A} (l : list A) (body : A → M S unit) : M S unit :=
  match l with
  | [] => mret ()
  | x :: l => body x;; forEach l body
  end.

(** [new CampusMap()], given the two lists the parser returns. *)
Definition new (buildings : list CampusBuilding) (paths : list CampusPath)
  : Outcome t :=
  let this := mk LabeledGraph.new ∅ ∅ ∅ ∅ 0 in
  match (forEach buildings addBuilding;;
         forEach paths addPath;;
         checkRep) this with
  | (Return _, this) => Return this
  | (Throw e, _) => Throw e
  end.

(** [shortNameExists(shortName)]; no key of the map is [null]. *)
Definition shortNameExists (shortName : option string) : M t bool :=
  checkRep;;
  cm ← get;
  mret (match shortName with
        | None => false
        | Some s => bool_decide (is_Some (shortNameToPoint cm !! s))
        end).

(** [longNameForShort(shortName)] *)
Definition longNameForShort (shortName : option string) : M t string :=
  exists_ ← shortNameExists shortName;
  if negb exists_ then throw IllegalArgumentException
  else
    checkRep;;
    cm ← get;
    match shortName ≫= (shortNameToPoint cm !!.) with
    | None =>
      (* [pointToBuildings.get(null)] is [null] *)
      throw NullPointerException
    | Some p =>
      match pointToBuildings cm !! p with
      | None => throw NullPointerException
      | Some b => mret (getLongName b)
      end
    end.

(** [buildingNames()] *)
Definition buildingNames : M t (gmap string string) :=
  cm ← get;
  shortToLong ←
    foldl (λ acc s,
             shortToLong ← acc;
             long ← longNameForShort (Some s);
             mret (<[s := long]> shortToLong))
          (mret ∅) (elements (dom (shortNameToPoint cm)));
  checkRep;;
  mret shortToLong.

(** [findShortestPath(startShortName, endShortName)].  The operands of
    [||] are evaluated from left to right, as far as needed. *)
Definition findShortestPath (startShortName endShortName : option string)
  : M t (option Path) :=
  match startShortName, endShortName with
  | Some startName, Some endName =>
    startExists ← shortNameExists startShortName;
    if negb startExists then throw IllegalArgumentException else
    endExists ← shortNameExists endShortName;
    if negb endExists then throw IllegalArgumentException else
    let startEndPair : ShortestPathPair := (startName, endName) in
    cm ← get;
    match shortestPathMap cm !! startEndPair with
    | Some cached => mret cached
    | None =>
      match shortNameToPoint cm !! startName,
            shortNameToPoint cm !! endName with
      | Some start, Some end_ =>
        put (mk (graph cm) (pointToBuildings cm) (shortNameToPoint cm)
                (shortestPathMap cm) (buildings cm) (S (solverCalls cm)));;
        shortestPath ←
          lift (ShortestPathFinder.shortestPathSolver (graph cm) start end_);
        cm ← get;
        put (mk (graph cm) (pointToBuildings cm) (shortNameToPoint cm)
                (<[startEndPair := shortestPath]> (shortestPathMap cm))
                (buildings cm) (solverCalls cm));;
        checkRep;;
        mret shortestPath
      | _, _ => throw NullPointerException
      end
    end
  | _, _ => throw IllegalArgumentException
  end.

(** [buildingsList()] *)
Definition buildingsList : M t (gset CampusBuilding) :=
  cm ← get;
  mret (buildings cm).
End CampusMap.
Arguments Point : clear implicits.
Arguments CampusBuilding : clear implicits.
Arguments CampusPath : clear implicits.
End CampusMap.

(** ** SparkServer *)

Module SparkServer.
Section SparkServer.
Context {jvm : JVM} `{Countable D} `{!DoubleOps D}.
Context `{!PriorityQueueOps (Path.t (CampusMap.Point D) D) Q}.

(** The [double] of the literal [-1] in [new Point(-1, -1)]. *)
Context (minusOne : D).

(** The body a handler returns: a text, or the JSON text
    [gson.toJson(new PathResponse(start, end, path))], which is kept
    as the three arguments of the constructor. *)
Inductive Body :=
  | Text (text : string)
  | PathResponse (start end_ : option string)
                 (path : Path.t (CampusMap.Point D) D).

(** What a handler leaves behind: the status it has set with
    [res.status], if any, and the body. *)
Record Response := mkResponse { status : option nat; body : Body }.

(** [s.isEmpty()] *)
Definition isEmpty {S} (s : option string) : M S bool :=
  match s with
  | None => throw NullPointerException
  | Some s => mret (bool_decide (String.length s = 0))
  end.

Definition newline : string := String (Ascii.ascii_of_nat 10) EmptyString.

Definition teapot : string :=
  "The server refuses to brew coffee because it is, permanently, a teapot."
  +:+ newline +:+ "(Both points are empty!)".

(** The handler of [POST /path], [map] being the state it runs in;
    [start] and [end_] are what [req.queryParams] returns, [null] for
    a parameter the request does not have.  The operands of [&&] and
    [||] are evaluated from left to right, as far as needed. *)
Definition postPath (start end_ : option string)
  : M (CampusMap.t (D:=D)) Response :=
  startEmpty ← isEmpty start;
  bothEmpty ← (if startEmpty : bool then isEmpty end_ else mret false);
  if bothEmpty : bool then mret (mkResponse (Some 418) (Text teapot))
  else
    startEmpty ← isEmpty start;
    startBad ← (if startEmpty : bool then mret true
                else exists_ ← CampusMap.shortNameExists start;
                     mret (negb exists_));
    if startBad : bool
    then mret (mkResponse (Some 400) (Text "Starting Point is empty"))
    else
      endEmpty ← isEmpty end_;
      endBad ← (if endEmpty : bool then mret true
                else exists_ ← CampusMap.shortNameExists end_;
                     mret (negb exists_));
      if endBad : bool
      then mret (mkResponse (Some 400) (Text "Ending Point is empty"))
      else
        shortestPath ← CampusMap.findShortestPath (Q:=Q) start end_;
        match shortestPath with
        | None =>
          mret (mkResponse None
                  (PathResponse start end_
                     (Path.new (CampusMap.mkPoint minusOne minusOne))))
        | Some shortestPath =>
          mret (mkResponse None (PathResponse start end_ shortestPath))
        end.
End SparkServer.
End SparkServer.

(** ** PathfinderTestDriver

    The commands of the script test driver that build graphs and
    search them ([CreateGraph], [AddNode], [AddEdge], [FindPath]), on
    graphs with [String] nodes and [Double] labels. *)

(** [String.format("%.3f", x)] *)
Class Format3 (D : Type) := format3 : D → string.

Module PathfinderTestDriver.
Section PathfinderTestDriver.
Context {jvm : JVM} `{Countable D} `{!DoubleOps D}.
Context `{!PriorityQueueOps (Path.t string D) Q}.
Context {fmt : Format3 D}.

(** The field [graphs], and the texts written to [output] so far, one
    for every call of [print] or [println], in the order of the
    calls. *)
Record t := mk {
  graphs : gmap string (LabeledGraph.t string D);
  output : list string;
}.

(** The line separator is taken to be the line feed. *)
Definition lineSeparator : string :=
  String (Ascii.ascii_of_nat 10) EmptyString.

(** [output.println(x)] *)
Definition println (x : string) : M t unit :=
  this ← get;
  put (mk (graphs this) (output this ++ [x +:+ lineSeparator])).

(** A call of a method of [graphs.get(graphName)], which is [null]
    when there is no graph of that name.  The graph object is
    shared with the map, so what the method does to it is seen there. *)
Definition onGraph {A} (graphName : string)
    (m : M (LabeledGraph.t string D) A) : M t A :=
  λ this,
    match graphs this !! graphName with
    | None => (Throw NullPointerException, this)
    | Some graph =>
      let '(r, graph) := m graph in
      (r, mk (<[graphName := graph]> (graphs this)) (output this))
    end.

(** [createGraph(graphName)] *)
Definition createGraph (graphName : string) : M t unit :=
  this ← get;
  put (mk (<[graphName := LabeledGraph.new]> (graphs this)) (output this));;
  println ("created graph " +:+ graphName).

(** [addNode(graphName, nodeName)] *)
Definition addNode (graphName nodeName : string) : M t unit :=
  onGraph graphName (LabeledGraph.addNode (Some nodeName));;
  println ("added node " +:+ nodeName +:+ " to " +:+ graphName).

(** [addEdge(graphName, parentName, childName, edgeLabel)]; the
    [double] is boxed, so the label is not [null]. *)
Definition addEdge (graphName parentName childName : string) (edgeLabel : D)
  : M t unit :=
  onGraph graphName
    (LabeledGraph.addEdge (Some parentName) (Some childName)
                          (Some edgeLabel));;
  println ("added edge " +:+ format3 edgeLabel +:+ " from " +:+ parentName
           +:+ " to " +:+ childName +:+ " in " +:+ graphName).

Fixpoint forEach {A} (l : list A) (body : A → M t unit) : M t unit :=
  match l with
  | [] => mret ()
  | x :: l => body x;; forEach l body
  end.

(** [findPath(graphName, nodeA, nodeB)]; the [for] loop over the path
    goes through its segments, from the first to the last. *)
Definition findPath (graphName nodeA nodeB : string) : M t unit :=
  containsA ← onGraph graphName (LabeledGraph.contains (Some nodeA));
  bothUnknown ←
    (if negb containsA
     then containsB ← onGraph graphName (LabeledGraph.contains (Some nodeB));
          mret (negb containsB)
     else mret false);
  if bothUnknown : bool then
    println ("unknown node " +:+ nodeA);;
    println ("unknown node " +:+ nodeB)
  else
    containsA ← onGraph graphName (LabeledGraph.contains (Some nodeA));
    if negb containsA then println ("unknown node " +:+ nodeA)
    else
      containsB ← onGraph graphName (LabeledGraph.contains (Some nodeB));
      if negb containsB then println ("unknown node " +:+ nodeB)
      else
        path ← onGraph graphName
                 (λ graph,
                    (ShortestPathFinder.shortestPathSolver (Q:=Q)
                       graph nodeA nodeB, graph));
        println ("path from " +:+ nodeA +:+ " to " +:+ nodeB +:+ ":");;
        match path with
        | None => println "no path found"
        | Some path =>
          forEach (Path.path path)
            (λ seg,
               println (Path.segStart seg +:+ " to " +:+ Path.segEnd seg
                        +:+ " with weight "
                        +:+ format3 (Path.segCost seg)));;
          println ("total cost: " +:+ format3 (Path.getCost path))
        end.
End PathfinderTestDriver.
Arguments t D {_ _}.
End PathfinderTestDriver.

(** * Specification

    The predicates the properties are stated with, and the invariants
    and measures their proofs use. *)

(** Unfolding of the monad operations in a goal or a hypothesis. *)
Ltac run_in H :=
  unfold outcome, state_after, jassert, lift, throw, put, get,
    mbind, M_bind, mret, M_ret in H; simpl in H.
Ltac run :=
  unfold outcome, state_after, jassert, lift, throw, put, get,
    mbind, M_bind, mret, M_ret; simpl.

(** ** LabeledGraph *)

Section LabeledGraph_spec.
Context `{Countable E, Countable T}.

Abbreviation Edge := (LabeledEdge.t E T).
Abbreviation Graph := (LabeledGraph.t E T).

(** The edges stored under the key [k]. *)
Definition edgesOut (g : Graph) (k : option E) : gset Edge :=
  default ∅ (LabeledGraph.neighbors g !! k).

(** The edge [e] is stored in the graph, under the key [k]. *)
Definition hasEdge (g : Graph) (k : option E) (e : Edge) : Prop :=
  e ∈ edgesOut g k.

(** The representation invariant: the node set is the key set of
    [neighbors], every stored edge leads to a node, and [null] is not
    a node.  (The fields of an edge are non-null by
    [LabeledEdge_new_Return].) *)
Definition repOK (g : Graph) : Prop :=
  LabeledGraph.nodes g = dom (LabeledGraph.neighbors g) ∧
  map_Forall (λ _ edges,
    set_Forall (λ edge : Edge,
      Some (LabeledEdge.to edge) ∈ LabeledGraph.nodes g) edges)
    (LabeledGraph.neighbors g) ∧
  None ∉ LabeledGraph.nodes g.

#[global] Instance repOK_dec g : Decision (repOK g).
Proof. unfold repOK. apply _. Defined.
End LabeledGraph_spec.

Section LabeledGraph_store_spec.
Context `{Countable E, Countable T}.

(** Every edge is stored under the key of its [from] node. *)
Definition fromOK (g : LabeledGraph.t E T) : Prop :=
  ∀ k e, hasEdge g k e → k = Some (LabeledEdge.from e).

(** The text [listChildren] shows for an edge. *)
Definition childText {strE : ToString E} {strT : ToString T}
    (e : LabeledEdge.t E T) : string :=
  toString (LabeledEdge.to e) +:+ "(" +:+ toString (LabeledEdge.label e)
  +:+ ")".
End LabeledGraph_store_spec.

(** ** ShortestPathFinder *)

Section ShortestPathFinder_spec.
Context `{Countable E} `{Countable D} `{!DoubleOps D}.
Context `{!PriorityQueueOps (Path.t E D) Q}.

Abbreviation WEdge := (LabeledEdge.t E D).
Abbreviation WGraph := (LabeledGraph.t E D).
Abbreviation WPath := (Path.t E D).

(** The edges [es], in this order, lead from [a] to [b] in the graph. *)
Fixpoint walk (g : WGraph) (a : E) (es : list WEdge) (b : E) : Prop :=
  match es with
  | [] => a = b
  | ed :: es => hasEdge g (Some a) ed ∧ walk g (LabeledEdge.to ed) es b
  end.

(** The cost of a walk: its labels added up from the first edge on,
    which is how [Path.extend] accumulates a cost. *)
Definition walkCost (es : list WEdge) : D :=
  foldl (λ c ed, dadd c (LabeledEdge.label ed)) dzero es.

(** The [Path] that follows the edges [es] from [s]. *)
Definition pathOf (s : E) (es : list WEdge) : WPath :=
  foldl (λ p ed, Path.extend p (LabeledEdge.to ed) (LabeledEdge.label ed))
        (Path.new s) es.

(** All edge weights of the graph are non-negative. *)
Definition nonNegative (g : WGraph) : Prop :=
  ∀ k ed, hasEdge g k ed → dle dzero (LabeledEdge.label ed) = true.

(** The paths the [for] loop adds to the fringe. *)
Definition extensions (finished : gset E) (minPath : WPath)
    (edges : list WEdge) : list WPath :=
  (λ ed, Path.extend minPath (LabeledEdge.to ed) (LabeledEdge.label ed))
    <$> filter (λ ed, LabeledEdge.to ed ∉ finished) edges.

(** The five ways an iteration can go. *)
Inductive IterationCase (g : WGraph) (e : E) (F : gset E) (fr : Q)
  : ShortestPathFinder.Step → Prop :=
  | case_empty :
      pq_items fr = [] →
      IterationCase g e F fr (ShortestPathFinder.Exit (Return None))
  | case_found m fr' :
      pq_poll ShortestPathFinder.comparator fr = Some (m, fr') →
      Path.getEnd m = e →
      IterationCase g e F fr (ShortestPathFinder.Exit (Return (Some m)))
  | case_discard m fr' :
      pq_poll ShortestPathFinder.comparator fr = Some (m, fr') →
      Path.getEnd m ≠ e → Path.getEnd m ∈ F →
      IterationCase g e F fr (ShortestPathFinder.Next F fr')
  | case_unknown m fr' :
      pq_poll ShortestPathFinder.comparator fr = Some (m, fr') →
      Path.getEnd m ≠ e → Path.getEnd m ∉ F →
      LabeledGraph.neighbors g !! Some (Path.getEnd m) = None →
      IterationCase g e F fr
        (ShortestPathFinder.Exit (Throw IllegalArgumentException))
  | case_finish m fr' edges :
      pq_poll ShortestPathFinder.comparator fr = Some (m, fr') →
      Path.getEnd m ≠ e → Path.getEnd m ∉ F →
      LabeledGraph.neighbors g !! Some (Path.getEnd m) = Some edges →
      IterationCase g e F fr
        (ShortestPathFinder.Next ({[Path.getEnd m]} ∪ F)
           (ShortestPathFinder.extendAll F m (elements edges) fr')).

(** The loop invariant, for a search from [s] for [e] in the graph [g].
    [R a b] reads: the cost [a] is at most the cost [b]. *)
Section invariant_spec.
Variables (g : WGraph) (s e : E).
Variable R : D → D → Prop.

Record Inv (F : gset E) (fr : Q) : Prop := {
  (* every path of the fringe follows a walk from [s] *)
  inv_walks : ∀ q, q ∈ pq_items fr →
    ∃ es, walk g s es (Path.getEnd q) ∧ q = pathOf s es;
  (* the loop ends before [e] is finished *)
  inv_end : e ∉ F;
  (* the path of [s] alone stays in the fringe until [s] is finished *)
  inv_start : s ∉ F → Path.new s ∈ pq_items fr;
  (* for an edge that leaves the finished nodes, the fringe has a path
     to its end that costs no more than any walk through the edge *)
  inv_frontier : ∀ v es ed,
    v ∈ F → walk g s es v → hasEdge g (Some v) ed →
    LabeledEdge.to ed ∉ F →
    ∃ q, q ∈ pq_items fr ∧ Path.getEnd q = LabeledEdge.to ed ∧
         R (Path.getCost q) (dadd (walkCost es) (LabeledEdge.label ed));
}.

(** What the invariant gives when the loop is left. *)
Definition solved (r : Outcome (option WPath)) : Prop :=
  match r with
  | Return (Some p) =>
    (∃ es, walk g s es e ∧ p = pathOf s es) ∧
    ∀ es, walk g s es e → R (Path.getCost p) (walkCost es)
  | Return None => ∀ es, ¬ walk g s es e
  | Throw _ => True
  end.
End invariant_spec.

Definition weight (m : gmap (option E) (gset WEdge)) : nat :=
  map_fold (λ _ edges n, S (size edges) + n) 0 m.

(** The entries of the adjacency map whose node is not finished. *)
Definition unfinished (g : WGraph) (F : gset E)
  : gmap (option E) (gset WEdge) :=
  filter (λ kv, kv.1 ∉ (set_map Some F : gset (option E)))
         (LabeledGraph.neighbors g).

(** What decreases with every iteration. *)
Definition measure (g : WGraph) (F : gset E) (fr : Q) : nat :=
  length (pq_items fr) + weight (unfinished g F).

Definition closed (g : WGraph) (fr : Q) : Prop :=
  ∀ q, q ∈ pq_items fr →
       Some (Path.getEnd q) ∈ dom (LabeledGraph.neighbors g).
End ShortestPathFinder_spec.

Section Path_shape_spec.
Context {E D : Type}.

(** The segments lead from [s] on, each starting where the one before
    it ends. *)
Fixpoint chained (s : E) (segs : list (Path.Segment E D)) : Prop :=
  match segs with
  | [] => True
  | seg :: segs => Path.segStart seg = s ∧ chained (Path.segEnd seg) segs
  end.

(** The nodes a path visits, from its start node on. *)
Definition nodesOf (p : Path.t E D) : list E :=
  Path.getStart p :: (Path.segEnd <$> Path.path p).

(** The nodes of a path before its last one. *)
Definition innerNodes (p : Path.t E D) : list E := removelast (nodesOf p).
End Path_shape_spec.

Section Fringe_spec.
Context `{Countable E} {D : Type}.
Context `{!PriorityQueueOps (Path.t E D) Q}.

(** What holds of the fringe while the search for [e] runs: the nodes
    of a path before its last one are finished and pairwise
    different. *)
Definition SimpleInv (e : E) (F : gset E) (fr : Q) : Prop :=
  (e ∉ F) ∧
  (∀ q, q ∈ pq_items fr →
        NoDup (innerNodes q) ∧ (∀ x, x ∈ innerNodes q → x ∈ F)).
End Fringe_spec.

(** ** CampusMap *)

Section index_spec.
Context `{Countable K} {V A : Type} (f : A → K) (h : A → V).

(** The map that holds, for every key, the value of the last element
    of the list with that key. *)
Definition index (m0 : gmap K V) (l : list A) : gmap K V :=
  foldl (λ m x, <[f x := h x]> m) m0 l.
End index_spec.

Section CampusMap_spec.
Context {jvm : JVM} `{Countable D} `{!DoubleOps D}.
Context `{!PriorityQueueOps (Path.t (CampusMap.Point D) D) Q}.

Abbreviation Map := (CampusMap.t (D:=D)).
Abbreviation Route := (Path.t (CampusMap.Point D) D).

(** The name is the short name of a building of the map; [null] is
    not. *)
Definition registered (cm : Map) (name : option string) : Prop :=
  ∃ s, name = Some s ∧ is_Some (CampusMap.shortNameToPoint cm !! s).

(** [checkRep] passes. *)
Definition sizesAgree (cm : Map) : bool :=
  bool_decide (size (CampusMap.shortNameToPoint cm)
               = size (CampusMap.pointToBuildings cm)).

(** The object with another cache and another count of solver calls. *)
Definition withCache (cm : Map)
    (cache : gmap CampusMap.ShortestPathPair (option Route)) (calls : nat)
  : Map :=
  CampusMap.mk (CampusMap.graph cm) (CampusMap.pointToBuildings cm)
    (CampusMap.shortNameToPoint cm) cache (CampusMap.buildings cm) calls.

Definition withGraph (cm : Map) (g : LabeledGraph.t (CampusMap.Point D) D)
  : Map :=
  CampusMap.mk g (CampusMap.pointToBuildings cm)
    (CampusMap.shortNameToPoint cm) (CampusMap.shortestPathMap cm)
    (CampusMap.buildings cm) (CampusMap.solverCalls cm).

(** The graph satisfies its invariant, [checkRep] passes, and the
    point of every short name is a node of the graph. *)
Definition mapOK (cm : Map) : Prop :=
  repOK (CampusMap.graph cm) ∧
  sizesAgree cm = true ∧
  ∀ s p, CampusMap.shortNameToPoint cm !! s = Some p →
         Some p ∈ LabeledGraph.nodes (CampusMap.graph cm).

Definition pointOf (b : CampusMap.CampusBuilding D) : CampusMap.Point D :=
  CampusMap.mkPoint (CampusMap.buildingX b) (CampusMap.buildingY b).

(** The state the first loop of the constructor is in after the
    buildings [bs]: the indices hold the last building of every short
    name and of every point. *)
Definition nameIndex (bs : list (CampusMap.CampusBuilding D))
  : gmap string (CampusMap.Point D) :=
  foldl (λ m b, <[CampusMap.getShortName b :=
                    CampusMap.mkPoint (CampusMap.buildingX b)
                                      (CampusMap.buildingY b)]> m) ∅ bs.

Definition pointIndex (bs : list (CampusMap.CampusBuilding D))
  : gmap (CampusMap.Point D) (CampusMap.CampusBuilding D) :=
  foldl (λ m b, <[CampusMap.mkPoint (CampusMap.buildingX b)
                                    (CampusMap.buildingY b) := b]> m) ∅ bs.

(** What holds while the constructor runs, [bs] being the buildings
    handled so far. *)
Definition building (bs : list (CampusMap.CampusBuilding D)) (cm : Map)
  : Prop :=
  repOK (CampusMap.graph cm) ∧
  (∀ s p, CampusMap.shortNameToPoint cm !! s = Some p →
          Some p ∈ LabeledGraph.nodes (CampusMap.graph cm)) ∧
  CampusMap.shortNameToPoint cm = nameIndex bs ∧
  CampusMap.pointToBuildings cm = pointIndex bs ∧
  CampusMap.shortestPathMap cm = ∅ ∧
  CampusMap.solverCalls cm = 0.

(** The states of a [CampusMap] object: the one the constructor
    returns, and those that calls of its public methods lead to. *)
Inductive reachable (bs : list (CampusMap.CampusBuilding D))
    (ps : list (CampusMap.CampusPath D)) : Map → Prop :=
  | reachable_new cm :
      CampusMap.new bs ps = Return cm → reachable bs ps cm
  | reachable_shortNameExists cm name :
      reachable bs ps cm →
      reachable bs ps (state_after (CampusMap.shortNameExists name) cm)
  | reachable_longNameForShort cm name :
      reachable bs ps cm →
      reachable bs ps (state_after (CampusMap.longNameForShort name) cm)
  | reachable_buildingNames cm :
      reachable bs ps cm →
      reachable bs ps (state_after CampusMap.buildingNames cm)
  | reachable_buildingsList cm :
      reachable bs ps cm →
      reachable bs ps (state_after CampusMap.buildingsList cm)
  | reachable_findShortestPath cm a b :
      reachable bs ps cm →
      reachable bs ps
        (state_after (CampusMap.findShortestPath (Q:=Q) a b) cm).

(** A computation that leaves the object as it is. *)
Definition readOnly {A} (m : M Map A) : Prop := ∀ cm, state_after m cm = cm.
End CampusMap_spec.

Section CampusMap_data_spec.
Context {jvm : JVM} `{Countable D} `{!DoubleOps D}.
Context `{!PriorityQueueOps (Path.t (CampusMap.Point D) D) Q}.

Abbreviation Map := (CampusMap.t (D:=D)).
Abbreviation Route := (Path.t (CampusMap.Point D) D).

(** The two end points of a path record, and its edge. *)
Definition startOf (path : CampusMap.CampusPath D) : CampusMap.Point D :=
  CampusMap.mkPoint (CampusMap.getX1 path) (CampusMap.getY1 path).

Definition endOf (path : CampusMap.CampusPath D) : CampusMap.Point D :=
  CampusMap.mkPoint (CampusMap.getX2 path) (CampusMap.getY2 path).

Definition edgeOf (path : CampusMap.CampusPath D)
  : LabeledEdge.t (CampusMap.Point D) D :=
  LabeledEdge.mk (startOf path) (endOf path) (CampusMap.getDistance path).

(** The graph after the three calls of the second loop of the
    constructor for one path record. *)
Definition graphWith (path : CampusMap.CampusPath D)
    (g : LabeledGraph.t (CampusMap.Point D) D)
  : LabeledGraph.t (CampusMap.Point D) D :=
  state_after
    (LabeledGraph.addEdge (Some (startOf path)) (Some (endOf path))
                          (Some (CampusMap.getDistance path)))
    (state_after (LabeledGraph.addNode (Some (endOf path)))
       (state_after (LabeledGraph.addNode (Some (startOf path))) g)).

(** The graph and the set of buildings are the data of the records
    [bs] and [ps]: a node for the point of every building and for
    every end point of a path, one edge for every path record, from
    its start to its end. *)
Definition built (bs : list (CampusMap.CampusBuilding D))
    (ps : list (CampusMap.CampusPath D)) (cm : Map) : Prop :=
  LabeledGraph.nodes (CampusMap.graph cm)
  = list_to_set (Some ∘ pointOf <$> bs)
    ∪ list_to_set (Some ∘ startOf <$> ps)
    ∪ list_to_set (Some ∘ endOf <$> ps) ∧
  (∀ k e, hasEdge (CampusMap.graph cm) k e
          ↔ ∃ path, path ∈ ps ∧ k = Some (startOf path) ∧ e = edgeOf path) ∧
  CampusMap.buildings cm = list_to_set bs.

(** Every entry of the cache is what the solver returns for the
    points of the two names. *)
Definition cacheOK (cm : Map) : Prop :=
  ∀ sa sb v, CampusMap.shortestPathMap cm !! (sa, sb) = Some v →
    ∃ pa pb,
      CampusMap.shortNameToPoint cm !! sa = Some pa ∧
      CampusMap.shortNameToPoint cm !! sb = Some pb ∧
      ShortestPathFinder.shortestPathSolver (Q:=Q) (CampusMap.graph cm) pa pb
      = Return v.

(** The long name [longNameForShort] finds for a short name. *)
Definition longNameOf (cm : Map) (s : string) : option string :=
  p ← CampusMap.shortNameToPoint cm !! s;
  CampusMap.getLongName <$> CampusMap.pointToBuildings cm !! p.
End CampusMap_data_spec.

(** ** PathfinderTestDriver *)

Section PathfinderTestDriver_spec.
Context `{Countable D} `{!DoubleOps D} {fmt : Format3 D}.

(** The line of the driver for a segment of a path. *)
Definition segmentLine (seg : Path.Segment string D) : string :=
  (Path.segStart seg +:+ " to " +:+ Path.segEnd seg +:+ " with weight "
   +:+ format3 (Path.segCost seg)) +:+ PathfinderTestDriver.lineSeparator.

(** What [FindPath] writes for two nodes of the graph, [result] being
    what the solver has returned. *)
Definition pathLines (nodeA nodeB : string)
    (result : option (Path.t string D)) : list string :=
  (("path from " +:+ nodeA +:+ " to " +:+ nodeB +:+ ":")
   +:+ PathfinderTestDriver.lineSeparator)
  :: match result with
     | None => ["no path found" +:+ PathfinderTestDriver.lineSeparator]
     | Some path =>
       (segmentLine <$> Path.path path)
       ++ [("total cost: " +:+ format3 (Path.getCost path))
           +:+ PathfinderTestDriver.lineSeparator]
     end.

Definition unknownLine (node : string) : string :=
  ("unknown node " +:+ node) +:+ PathfinderTestDriver.lineSeparator.

(** Every graph of the driver satisfies its invariant. *)
Definition driverOK (this : PathfinderTestDriver.t D) : Prop :=
  ∀ graphName graph,
    PathfinderTestDriver.graphs this !! graphName = Some graph → repOK graph.
End PathfinderTestDriver_spec.

(** ** Example data

    Concrete graphs and maps, with [Z] for the [double]s. *)

Definition defaultJVM : JVM := {| assertionsEnabled := false |}.
Definition checkedJVM : JVM := {| assertionsEnabled := true |}.

Section example_data.
#[local] Existing Instance defaultJVM.
Open Scope string_scope.

(** The graph of the specification's scenarios: [A -> B] (10),
    [B -> C] (5), [A -> C] (20), and a node [D] without edges. *)
Definition exampleGraph : LabeledGraph.t string Z :=
  state_after
    (LabeledGraph.addNode (Some "A");;
     LabeledGraph.addNode (Some "B");;
     LabeledGraph.addNode (Some "C");;
     LabeledGraph.addNode (Some "D");;
     LabeledGraph.addEdge (Some "A") (Some "B") (Some 10%Z);;
     LabeledGraph.addEdge (Some "B") (Some "C") (Some 5%Z);;
     LabeledGraph.addEdge (Some "A") (Some "C") (Some 20%Z))
    LabeledGraph.new.

Definition examplePath : Path.t string Z :=
  Path.extend (Path.extend (Path.new "A") "B" 10%Z) "C" 5%Z.

(** A [hashCode] for the node names of the example. *)
Definition exampleHash : HashCode string := λ s,
  if decide (s = "A") then 3%Z
  else if decide (s = "B") then 1%Z
  else if decide (s = "C") then 2%Z
  else 0%Z.

(** A map of three buildings, one of them with an empty short name,
    and one path, from [X] to [Y]. *)
Definition exampleBuildings : list (CampusMap.CampusBuilding Z) :=
  [CampusMap.mkBuilding "X" "Xenon Hall" 0%Z 0%Z;
   CampusMap.mkBuilding "Y" "Yew Hall" 1%Z 1%Z;
   CampusMap.mkBuilding "" "Nameless Hall" 2%Z 2%Z].

Definition examplePaths : list (CampusMap.CampusPath Z) :=
  [CampusMap.mkPath 0%Z 0%Z 1%Z 1%Z 7%Z].

Definition exampleMap : CampusMap.t (D:=Z) :=
  match CampusMap.new exampleBuildings examplePaths with
  | Return cm => cm
  | Throw _ => CampusMap.mk LabeledGraph.new ∅ ∅ ∅ ∅ 0
  end.

(** A [%.3f] for the integers of the examples. *)
Definition exampleFormat : Format3 Z := λ z, pretty z +:+ ".000".

(** A driver that holds the example graph under the name [g]. *)
Definition exampleDriver : PathfinderTestDriver.t Z :=
  PathfinderTestDriver.mk {["g" := exampleGraph]} [].
End example_data.

(** * Properties *)

Lemma dle_refl `{DoubleLaws D} (a : D) : dle a a = true.
Proof. by destruct (dle_total a a). Qed.

#[global] Instance Z_DoubleLaws : DoubleLaws Z.
Proof. split; simpl; intros; lia. Qed.

(** ** LabeledEdge *)

Section LabeledEdge_facts.
Context {jvm : JVM} {E T : Type}.

(** The constructor returns an edge only for three non-null
    references, and then the edge holds exactly them. *)
Lemma LabeledEdge_new_Return (from to : option E) (label : option T) edge :
  LabeledEdge.new from to label = Return edge ↔
  from = Some (LabeledEdge.nodeFrom edge) ∧
  to = Some (LabeledEdge.nodeTo edge) ∧
  label = Some (LabeledEdge.label edge).
Proof.
  unfold LabeledEdge.new, LabeledEdge.checkRep.
  destruct from as [f|], to as [t'|], label as [l|], assertionsEnabled;
    simpl; try (split; [done | by intros (? & ? & ?)]);
    split.
  all: try (intros [= <-]; done).
  all: destruct edge; simpl; by intros ([= ->] & [= ->] & [= ->]).
Qed.

Lemma LabeledEdge_new_Some (from to : E) (label : T) :
  LabeledEdge.new (Some from) (Some to) (Some label)
  = Return (LabeledEdge.mk from to label).
Proof. by apply LabeledEdge_new_Return. Qed.
End LabeledEdge_facts.

(** ** LabeledGraph *)

Section LabeledGraph_facts.
Context {jvm : JVM} `{Countable E, Countable T}.

Abbreviation Edge := (LabeledEdge.t E T).
Abbreviation Graph := (LabeledGraph.t E T).

Lemma containsKey_true (g : Graph) k :
  LabeledGraph.containsKey g k = true ↔ k ∈ dom (LabeledGraph.neighbors g).
Proof.
  unfold LabeledGraph.containsKey.
  by rewrite bool_decide_eq_true, elem_of_dom.
Qed.

Lemma containsKey_false (g : Graph) k :
  LabeledGraph.containsKey g k = false ↔ LabeledGraph.neighbors g !! k = None.
Proof.
  unfold LabeledGraph.containsKey.
  by rewrite bool_decide_eq_false, eq_None_not_Some.
Qed.

Lemma new_repOK : repOK (LabeledGraph.new : Graph).
Proof.
  split_and!; simpl.
  - by rewrite dom_empty_L.
  - apply map_Forall_empty.
  - set_solver.
Qed.

(** What [addEdge] does on non-null arguments. *)
Lemma addEdge_run (g : Graph) (from to : E) (label : T) :
  LabeledGraph.addEdge (Some from) (Some to) (Some label) g =
  if LabeledGraph.containsKey g (Some from)
     && LabeledGraph.containsKey g (Some to)
  then
    let edge := LabeledEdge.mk from to label in
    (Return (negb (bool_decide (edge ∈ edgesOut g (Some from)))),
     LabeledGraph.mk (LabeledGraph.nodes g)
       (<[Some from := {[edge]} ∪ edgesOut g (Some from)]>
          (LabeledGraph.neighbors g)))
  else (Throw IllegalArgumentException, g).
Proof.
  unfold LabeledGraph.addEdge, LabeledGraph.checkRep, LabeledGraph.DEBUG.
  run. rewrite andb_false_r.
  destruct (LabeledGraph.containsKey g (Some from)) eqn:Hf; simpl; [|done].
  destruct (LabeledGraph.containsKey g (Some to)) eqn:Ht; simpl; [|done].
  apply containsKey_true, elem_of_dom in Hf as [edgeSet Hf].
  assert (edgesOut g (Some from) = edgeSet) as ->
    by (unfold edgesOut; by rewrite Hf).
  rewrite Hf, LabeledEdge_new_Some. simpl.
  case_bool_decide; simpl; [|done].
  f_equal. destruct g as [ns nb]; simpl in *. f_equal.
  rewrite (subseteq_union_1_L {[_]} edgeSet) by set_solver.
  by rewrite insert_id.
Qed.

(** A [null] argument makes [addEdge] fail before it changes
    anything: with the assertion, with the membership test, or in the
    constructor of the edge. *)
Lemma addEdge_null (g : Graph) (from to : option E) (label : option T) :
  from = None ∨ to = None ∨ label = None →
  ∃ e, LabeledGraph.addEdge from to label g = (Throw e, g).
Proof.
  intros Hnull.
  unfold LabeledGraph.addEdge, LabeledGraph.checkRep, LabeledGraph.DEBUG.
  run.
  destruct (assertionsEnabled && _); simpl; [by eexists|].
  destruct (negb _ || negb _); simpl; [by eexists|].
  destruct (LabeledGraph.neighbors g !! from); simpl; [|by eexists].
  destruct (LabeledEdge.new from to label) as [edge|e] eqn:Hnew;
    [|by eexists].
  apply LabeledEdge_new_Return in Hnew as (-> & -> & ->).
  by destruct Hnull as [|[|]].
Qed.

(** What [removeEdge] does on non-null arguments. *)
Lemma removeEdge_run (g : Graph) (from to : E) (label : T) :
  LabeledGraph.removeEdge (Some from) (Some to) (Some label) g =
  if LabeledGraph.containsKey g (Some from)
     && LabeledGraph.containsKey g (Some to)
  then
    let edge := LabeledEdge.mk from to label in
    if bool_decide (edge ∈ edgesOut g (Some from)) then
      (Return (Some edge),
       LabeledGraph.mk (LabeledGraph.nodes g)
         (<[Some from := edgesOut g (Some from) ∖ {[edge]}]>
            (LabeledGraph.neighbors g)))
    else (Return None, g)
  else (Throw IllegalArgumentException, g).
Proof.
  unfold LabeledGraph.removeEdge, LabeledGraph.checkRep, LabeledGraph.DEBUG.
  run. rewrite andb_false_r.
  destruct (LabeledGraph.containsKey g (Some from)) eqn:Hf; simpl; [|done].
  destruct (LabeledGraph.containsKey g (Some to)) eqn:Ht; simpl; [|done].
  apply containsKey_true, elem_of_dom in Hf as [edgeSet Hf].
  assert (edgesOut g (Some from) = edgeSet) as ->
    by (unfold edgesOut; by rewrite Hf).
  rewrite Hf, LabeledEdge_new_Some. simpl.
  by case_bool_decide.
Qed.

Lemma removeEdge_null (g : Graph) (from to : option E) (label : option T) :
  from = None ∨ to = None ∨ label = None →
  ∃ e, LabeledGraph.removeEdge from to label g = (Throw e, g).
Proof.
  intros Hnull.
  unfold LabeledGraph.removeEdge, LabeledGraph.checkRep, LabeledGraph.DEBUG.
  run.
  destruct (assertionsEnabled && _); simpl; [by eexists|].
  destruct (negb _ || negb _); simpl; [by eexists|].
  destruct (LabeledGraph.neighbors g !! from); simpl; [|by eexists].
  destruct (LabeledEdge.new from to label) as [edge|e] eqn:Hnew;
    [|by eexists].
  apply LabeledEdge_new_Return in Hnew as (-> & -> & ->).
  by destruct Hnull as [|[|]].
Qed.

(** What [addNode] does. *)
Lemma addNode_run (g : Graph) (add : option E) :
  LabeledGraph.addNode add g =
  if assertionsEnabled && bool_decide (add = None)
  then (Throw AssertionError, g)
  else if bool_decide (add ∈ LabeledGraph.nodes g) then (Return false, g)
  else (Return true,
        LabeledGraph.mk ({[add]} ∪ LabeledGraph.nodes g)
                        (<[add := ∅]> (LabeledGraph.neighbors g))).
Proof.
  unfold LabeledGraph.addNode, LabeledGraph.checkRep, LabeledGraph.DEBUG.
  run.
  destruct add as [a|], assertionsEnabled; simpl; try done;
    by case_bool_decide.
Qed.

Lemma repOK_edge_to (g : Graph) k e :
  repOK g → hasEdge g k e →
  Some (LabeledEdge.to e) ∈ dom (LabeledGraph.neighbors g).
Proof.
  intros (Hn & Hto & _). unfold hasEdge, edgesOut.
  destruct (LabeledGraph.neighbors g !! k) as [edges|] eqn:Hk; simpl;
    [|set_solver].
  intros He. rewrite <- Hn. by apply (Hto k edges Hk e).
Qed.

Lemma addNode_repOK (g : Graph) (add : option E) :
  assertionsEnabled = true ∨ add ≠ None →
  repOK g → repOK (state_after (LabeledGraph.addNode add) g).
Proof.
  intros Hadd (Hn & Hto & Hnull). unfold state_after.
  rewrite addNode_run.
  destruct (assertionsEnabled && bool_decide (add = None)) eqn:Hassert;
    simpl; [done|].
  destruct (bool_decide (add ∈ LabeledGraph.nodes g)); simpl; [done|].
  assert (add ≠ None) as Hadd'.
  { intros ->. destruct Hadd as [Hea|]; [|done].
    rewrite Hea in Hassert. by rewrite bool_decide_true in Hassert. }
  split_and!; simpl.
  - rewrite dom_insert_L. by rewrite Hn.
  - apply map_Forall_insert_2; [apply set_Forall_empty|].
    intros k edges Hk e He. apply elem_of_union_r. by apply (Hto k edges Hk).
  - set_solver.
Qed.

Lemma addEdge_repOK (g : Graph) (from to : option E) (label : option T) :
  repOK g → repOK (state_after (LabeledGraph.addEdge from to label) g).
Proof.
  intros Hg. unfold state_after.
  destruct from as [from|];
    [|by destruct (addEdge_null g None to label) as [e ->]; auto].
  destruct to as [to|];
    [|by destruct (addEdge_null g (Some from) None label) as [e ->]; auto].
  destruct label as [label|];
    [|by destruct (addEdge_null g (Some from) (Some to) None) as [e ->];
         auto].
  rewrite addEdge_run.
  destruct (LabeledGraph.containsKey g (Some from)) eqn:Hf; simpl; [|done].
  destruct (LabeledGraph.containsKey g (Some to)) eqn:Ht; simpl; [|done].
  apply containsKey_true in Hf, Ht.
  destruct Hg as (Hn & Hto & Hnull).
  split_and!; simpl; [|apply map_Forall_insert_2|done].
  - rewrite dom_insert_L. set_solver.
  - intros e [->%elem_of_singleton|He]%elem_of_union.
    + by rewrite Hn.
    + rewrite Hn. by apply (repOK_edge_to g (Some from)).
  - done.
Qed.

Lemma removeEdge_repOK (g : Graph) (from to : option E) (label : option T) :
  repOK g → repOK (state_after (LabeledGraph.removeEdge from to label) g).
Proof.
  intros Hg. unfold state_after.
  destruct from as [from|];
    [|by destruct (removeEdge_null g None to label) as [e ->]; auto].
  destruct to as [to|];
    [|by destruct (removeEdge_null g (Some from) None label) as [e ->];
         auto].
  destruct label as [label|];
    [|by destruct (removeEdge_null g (Some from) (Some to) None) as [e ->];
         auto].
  rewrite removeEdge_run.
  destruct (LabeledGraph.containsKey g (Some from)) eqn:Hf; simpl; [|done].
  destruct (LabeledGraph.containsKey g (Some to)) eqn:Ht; simpl; [|done].
  case_bool_decide as Hin; simpl; [|done].
  apply containsKey_true in Hf, Ht.
  destruct Hg as (Hn & Hto & Hnull).
  split_and!; simpl; [|apply map_Forall_insert_2|done].
  - rewrite dom_insert_L. set_solver.
  - intros e [He _]%elem_of_difference.
    rewrite Hn. by apply (repOK_edge_to g (Some from)).
  - done.
Qed.

(** ** addEdge *)

Lemma addEdge_present (g : Graph) (from to : E) (label : T) :
  LabeledGraph.containsKey g (Some from) = true →
  LabeledGraph.containsKey g (Some to) = true →
  let call := LabeledGraph.addEdge (Some from) (Some to) (Some label) in
  (∃ inserted, outcome call g = Return inserted) ∧
  LabeledGraph.nodes (state_after call g) = LabeledGraph.nodes g.
Proof.
  intros Hf Ht. unfold outcome, state_after.
  rewrite addEdge_run, Hf, Ht. simpl. eauto.
Qed.

(** C5. [addEdge(from, to, label)] never adds a node, whatever its
    arguments are.  Called with a non-null [from], [to] and [label],
    as it requires: when one of the two end points is not a node of
    the graph it fails with [InvalidArgument] and leaves the graph as
    it was; when both are, it returns [true] exactly when the edge
    was not stored yet, and afterwards the stored edges are those
    stored before together with the edge [(from, to, label)]: in
    particular no edge from [to] back to [from] appears.  The end
    points are looked up among the keys of the adjacency map, which
    are the nodes in a graph that satisfies its invariant. *)
Theorem addEdge_spec (g : Graph) :
  (∀ from to label,
     let g' := state_after (LabeledGraph.addEdge from to label) g in
     LabeledGraph.nodes g' = LabeledGraph.nodes g ∧
     dom (LabeledGraph.neighbors g') = dom (LabeledGraph.neighbors g)) ∧
  (∀ (from to : E) (label : T),
     let edge := LabeledEdge.mk from to label in
     let call := LabeledGraph.addEdge (Some from) (Some to) (Some label) in
     let g' := state_after call g in
     if LabeledGraph.containsKey g (Some from)
        && LabeledGraph.containsKey g (Some to)
     then
       outcome call g
         = Return (negb (bool_decide (edge ∈ edgesOut g (Some from)))) ∧
       (∀ k e,
          hasEdge g' k e ↔ hasEdge g k e ∨ (k = Some from ∧ e = edge)) ∧
       (from ≠ to →
        hasEdge g' (Some to) (LabeledEdge.mk to from label)
        ↔ hasEdge g (Some to) (LabeledEdge.mk to from label))
     else
       outcome call g = Throw InvalidArgument ∧ g' = g) ∧
  (repOK g →
   ∀ n, LabeledGraph.containsKey g n = true ↔ n ∈ LabeledGraph.nodes g).
Proof.
  assert (∀ (from : E) (edge : Edge) k e,
    hasEdge (LabeledGraph.mk (LabeledGraph.nodes g)
               (<[Some from := {[edge]} ∪ edgesOut g (Some from)]>
                  (LabeledGraph.neighbors g))) k e
    ↔ hasEdge g k e ∨ (k = Some from ∧ e = edge)) as Hedges.
  { intros from edge k e.
    unfold hasEdge at 1. unfold edgesOut at 1. simpl.
    destruct (decide (k = Some from)) as [->|Hk].
    - rewrite lookup_insert_eq. simpl. unfold hasEdge.
      rewrite elem_of_union, elem_of_singleton. naive_solver.
    - rewrite lookup_insert_ne by done. unfold hasEdge, edgesOut.
      naive_solver. }
  assert (∀ (from to : E) (label : T),
    let g' := state_after
                (LabeledGraph.addEdge (Some from) (Some to) (Some label)) g in
    LabeledGraph.nodes g' = LabeledGraph.nodes g ∧
    dom (LabeledGraph.neighbors g') = dom (LabeledGraph.neighbors g))
    as Hnodes.
  { intros from to label. unfold state_after. rewrite addEdge_run.
    destruct (LabeledGraph.containsKey g (Some from)) eqn:Hf; simpl;
      [|done].
    destruct (LabeledGraph.containsKey g (Some to)) eqn:Ht; simpl; [|done].
    split; [done|]. apply containsKey_true in Hf.
    rewrite dom_insert_L. apply subseteq_union_1_L.
    by apply singleton_subseteq_l. }
  split_and!.
  - intros [from|] [to|] [label|]; try apply Hnodes.
    all: unfold state_after.
    all: edestruct (addEdge_null g) as [ex ->]; [|done]; auto.
  - intros from to label edge call g'. subst edge call g'.
    unfold outcome, state_after. rewrite addEdge_run.
    destruct (LabeledGraph.containsKey g (Some from)) eqn:Hf; simpl;
      [|done].
    destruct (LabeledGraph.containsKey g (Some to)) eqn:Ht; simpl; [|done].
    split_and!; [done|apply Hedges|].
    intros Hne. rewrite Hedges. split; [|by left].
    intros [?|[[= ?] _]]; [done|]. by subst.
  - intros (Hn & _) n. rewrite Hn. apply containsKey_true.
Qed.

(** ** The representation invariant *)

(** C6. [addNode], [addEdge] and [removeEdge] preserve the
    representation invariant [repOK]: the node set is the key set of
    the adjacency map, every stored edge leads to a node, and [null]
    is not a node.  [addEdge] and [removeEdge] do so whatever their
    arguments are; [addNode] does for a non-null node, as it
    requires, and for any reference when assertions are enabled. *)
Theorem mutators_preserve_repOK (g : Graph) :
  repOK g →
  (∀ add : E, repOK (state_after (LabeledGraph.addNode (Some add)) g)) ∧
  (∀ from to label,
     repOK (state_after (LabeledGraph.addEdge from to label) g)) ∧
  (∀ from to label,
     repOK (state_after (LabeledGraph.removeEdge from to label) g)) ∧
  (assertionsEnabled = true →
   ∀ add, repOK (state_after (LabeledGraph.addNode add) g)).
Proof.
  intros Hg. split_and!.
  - intros add. apply addNode_repOK; auto.
  - intros. by apply addEdge_repOK.
  - intros. by apply removeEdge_repOK.
  - intros Hea add. apply addNode_repOK; auto.
Qed.

(** With assertions disabled, [addNode(null)] does store [null]. *)
Lemma addNode_null_unchecked (g : Graph) :
  assertionsEnabled = false →
  None ∈ LabeledGraph.nodes (state_after (LabeledGraph.addNode None) g).
Proof.
  intros Hea. unfold state_after. rewrite addNode_run, Hea. simpl.
  case_bool_decide; simpl; [done|]. set_solver.
Qed.

(** ** numEdges *)

Lemma count_edges_to (edges : gset Edge) (n2 : E) :
  length (filter (λ edge : Edge, Some (LabeledEdge.to edge) = Some n2)
                 (elements edges))
  = size (filter (λ edge : Edge, LabeledEdge.to edge = n2) edges).
Proof.
  unfold size, set_size. simpl. apply Permutation_length.
  apply NoDup_Permutation.
  - apply NoDup_filter, NoDup_elements.
  - apply NoDup_elements.
  - intros e. rewrite list_elem_of_filter, !elem_of_elements,
      elem_of_filter. naive_solver.
Qed.

(** What [numEdges] does on non-null arguments. *)
Lemma numEdges_run (g : Graph) (n1 n2 : E) :
  LabeledGraph.numEdges (Some n1) (Some n2) g =
  if assertionsEnabled
     && negb (LabeledGraph.containsKey g (Some n1)
              && LabeledGraph.containsKey g (Some n2))
  then (Throw AssertionError, g)
  else
    match LabeledGraph.neighbors g !! Some n1 with
    | None => (Throw NullPointerException, g)
    | Some edges =>
      (Return (size (filter (λ edge : Edge, LabeledEdge.to edge = n2)
                            edges)), g)
    end.
Proof.
  unfold LabeledGraph.numEdges, LabeledGraph.checkRep, LabeledGraph.DEBUG.
  run. rewrite andb_false_r.
  destruct assertionsEnabled; simpl.
  - destruct (LabeledGraph.containsKey g (Some n1)) eqn:H1'; simpl; [|done].
    destruct (LabeledGraph.containsKey g (Some n2)); simpl; [|done].
    apply containsKey_true, elem_of_dom in H1' as [edges ->].
    by rewrite count_edges_to.
  - destruct (LabeledGraph.neighbors g !! Some n1) as [edges|]; [|done].
    by rewrite count_edges_to.
Qed.

(** When both nodes are in the graph, [numEdges(n1, n2)] is the
    number of the edges stored for [n1] that lead to [n2], and the
    graph is unchanged. *)
Lemma numEdges_present (g : Graph) (n1 n2 : E) :
  LabeledGraph.containsKey g (Some n1) = true →
  LabeledGraph.containsKey g (Some n2) = true →
  LabeledGraph.numEdges (Some n1) (Some n2) g
  = (Return (size (filter (λ edge : Edge, LabeledEdge.to edge = n2)
                          (edgesOut g (Some n1)))), g).
Proof.
  intros H1' H2'. rewrite numEdges_run, H1', H2', andb_false_r.
  apply containsKey_true, elem_of_dom in H1' as [edges Hedges].
  unfold edgesOut. by rewrite Hedges.
Qed.

(** C10. [numEdges] never fails with [InvalidArgument]: for a node
    that is not in the graph it raises an [AssertionError] when
    assertions are enabled, and otherwise a [NullPointerException]
    (first node absent) or returns a count (second node absent). *)
Theorem numEdges_never_InvalidArgument (g : Graph) (n1 n2 : option E) :
  outcome (LabeledGraph.numEdges n1 n2) g ≠ Throw InvalidArgument.
Proof.
  unfold LabeledGraph.numEdges, LabeledGraph.checkRep, LabeledGraph.DEBUG.
  run.
  destruct (assertionsEnabled && _); simpl; [done|].
  destruct (assertionsEnabled && _); simpl; [done|].
  destruct (assertionsEnabled && _); simpl; [done|].
  by destruct (LabeledGraph.neighbors g !! n1).
Qed.

Lemma numEdges_absent (g : Graph) (n1 n2 : E) :
  LabeledGraph.containsKey g (Some n1) = true →
  LabeledGraph.containsKey g (Some n2) = false →
  outcome (LabeledGraph.numEdges (Some n1) (Some n2)) g =
  if assertionsEnabled then Throw AssertionError
  else Return (size (filter (λ edge : Edge, LabeledEdge.to edge = n2)
                            (edgesOut g (Some n1)))).
Proof.
  intros H1' H2'. unfold outcome. rewrite numEdges_run, H1', H2'. simpl.
  destruct assertionsEnabled; simpl; [done|].
  apply containsKey_true, elem_of_dom in H1' as [edges Hedges].
  unfold edgesOut. by rewrite Hedges.
Qed.

(** ** listNodes *)

Context {hash : HashCode E}.

#[local] Instance compareHash_total : Total (LabeledGraph.compareHash (E:=E)).
Proof. intros a b. unfold LabeledGraph.compareHash. lia. Qed.

Lemma unbox_all_Some (l : list E) :
  LabeledGraph.unbox_all (Some <$> l) = Return l.
Proof.
  unfold LabeledGraph.unbox_all.
  assert (mapM id (Some <$> l) = Some l) as ->; [|done].
  induction l as [|a l IH]; simpl; [done|].
  fold (fmap (M:=list) (@Some E) l). by rewrite IH.
Qed.

Lemma unbox_all_no_null (l : list (option E)) :
  None ∉ l →
  ∃ l', LabeledGraph.unbox_all l = Return l' ∧ l = Some <$> l'.
Proof.
  intros Hl.
  assert (∃ l', l = Some <$> l') as [l' ->].
  { induction l as [|[a|] l IH].
    - by exists [].
    - destruct IH as [l' ->]; [set_solver|]. by exists (a :: l').
    - set_solver. }
  exists l'. by rewrite unbox_all_Some.
Qed.

(** C9. In a graph without a [null] node, [listNodes()] returns the
    nodes of the graph, each of them once, in ascending order of
    their [hashCode], and leaves the graph unchanged. *)
Theorem listNodes_sorted_by_hashCode (g : Graph) :
  None ∉ LabeledGraph.nodes g →
  ∃ l, LabeledGraph.listNodes g = (Return (Some <$> l), g) ∧
       Some <$> l ≡ₚ elements (LabeledGraph.nodes g) ∧
       NoDup l ∧
       (∀ n, n ∈ l ↔ Some n ∈ LabeledGraph.nodes g) ∧
       Sorted (λ a b, (hashCode a ≤ hashCode b)%Z) l.
Proof.
  intros Hnull.
  destruct (unbox_all_no_null (elements (LabeledGraph.nodes g)))
    as (l0 & Hl0 & Hel); [by rewrite elem_of_elements|].
  assert (NoDup l0) as Hnd.
  { apply (NoDup_fmap_1 Some). rewrite <- Hel. apply NoDup_elements. }
  assert (∀ n, n ∈ l0 ↔ Some n ∈ LabeledGraph.nodes g) as Hin.
  { intros n. rewrite <- elem_of_elements, Hel.
    rewrite list_elem_of_fmap. naive_solver. }
  unfold LabeledGraph.listNodes, LabeledGraph.checkRep, LabeledGraph.DEBUG.
  run. case_bool_decide as Hlen; simpl.
  - exists l0. rewrite Hel. split_and!; try done.
    rewrite Hel, length_fmap in Hlen.
    destruct l0 as [|a [|b l0]]; simpl in Hlen; try lia;
      repeat constructor.
  - rewrite Hl0. exists (merge_sort LabeledGraph.compareHash l0).
    split_and!; try done.
    + by rewrite Hel, merge_sort_Permutation.
    + by rewrite merge_sort_Permutation.
    + intros n. by rewrite merge_sort_Permutation.
    + apply (Sorted_merge_sort LabeledGraph.compareHash).
Qed.
End LabeledGraph_facts.

(** ** The list implementation of the priority queue *)

Lemma list_poll_None {A} (le : A → A → bool) (l : list A) :
  list_poll le l = None ↔ l = [].
Proof.
  destruct l as [|x l]; simpl; [done|].
  split; [|done].
  by destruct (list_poll le l) as [[m rest]|]; [destruct (le x m)|].
Qed.

Lemma list_poll_Some {A} (le : A → A → bool) (l l' : list A) x :
  list_poll le l = Some (x, l') → l ≡ₚ x :: l'.
Proof.
  revert x l'. induction l as [|y l IH]; intros x l'; simpl; [done|].
  destruct (list_poll le l) as [[m rest]|] eqn:Hl.
  - specialize (IH m rest eq_refl).
    destruct (le y m); intros [= <- <-]; [done|].
    rewrite IH. apply perm_swap.
  - apply list_poll_None in Hl as ->. by intros [= <- <-].
Qed.

Lemma list_poll_least {A} (le : A → A → bool) (l l' : list A) x :
  (∀ a b, le a b = true ∨ le b a = true) →
  (∀ a b c, le a b = true → le b c = true → le a c = true) →
  list_poll le l = Some (x, l') → ∀ y, y ∈ l → le x y = true.
Proof.
  intros Htotal Htrans. revert x l'.
  induction l as [|z l IH]; intros x l'; simpl; [done|].
  destruct (list_poll le l) as [[m rest]|] eqn:Hl.
  - specialize (IH m rest eq_refl).
    destruct (le z m) eqn:Hzm; intros [= ? ?] y Hy; subst.
    + apply elem_of_cons in Hy as [->|Hy]; [by destruct (Htotal x x)|].
      eauto.
    + apply elem_of_cons in Hy as [->|Hy]; [|eauto].
      destruct (Htotal x z); [done|congruence].
  - apply list_poll_None in Hl as ->. intros [= ? ?] y Hy; subst.
    apply list_elem_of_singleton in Hy as ->. by destruct (Htotal x x).
Qed.

#[global] Instance list_PriorityQueueLaws {A} : PriorityQueueLaws A (list A).
Proof.
  split; simpl.
  - done.
  - intros le x q. by rewrite Permutation_app_comm.
  - apply list_poll_None.
  - apply list_poll_Some.
  - apply list_poll_least.
Qed.

(** ** Path *)

Section Path_facts.
Context {E D : Type} `{DoubleOps D}.

Lemma getEnd_new (s : E) : Path.getEnd (Path.new (D:=D) s) = s.
Proof. done. Qed.

Lemma getEnd_extend (p : Path.t E D) n w :
  Path.getEnd (Path.extend p n w) = n.
Proof. unfold Path.getEnd, Path.extend. simpl. by rewrite last_snoc. Qed.

Lemma getCost_extend (p : Path.t E D) n w :
  Path.getCost (Path.extend p n w) = dadd (Path.getCost p) w.
Proof. done. Qed.

(** Extending a path leaves the path it was extended from as it is:
    paths are values. *)
Lemma extend_start (p : Path.t E D) n w :
  Path.getStart (Path.extend p n w) = Path.getStart p.
Proof. done. Qed.
End Path_facts.

(** ** ShortestPathFinder *)

Section ShortestPathFinder_facts.
Context {jvm : JVM} `{Countable E} `{Countable D} `{!DoubleOps D}.
Context `{!PriorityQueueOps (Path.t E D) Q}.
Context `{!PriorityQueueLaws (Path.t E D) Q}.

Abbreviation WEdge := (LabeledEdge.t E D).
Abbreviation WGraph := (LabeledGraph.t E D).
Abbreviation WPath := (Path.t E D).

Lemma walk_snoc (g : WGraph) a es ed b :
  walk g a (es ++ [ed]) b ↔
  ∃ u, walk g a es u ∧ hasEdge g (Some u) ed ∧ LabeledEdge.to ed = b.
Proof.
  revert a. induction es as [|ed' es IH]; intros a; simpl.
  - split; [intros [? ?]; by exists a|]. by intros (u & <- & ? & ?).
  - rewrite IH. naive_solver.
Qed.

Lemma pathOf_snoc (s : E) (es : list WEdge) ed :
  pathOf s (es ++ [ed])
  = Path.extend (pathOf s es) (LabeledEdge.to ed) (LabeledEdge.label ed).
Proof. unfold pathOf. by rewrite foldl_snoc. Qed.

Lemma walkCost_snoc (es : list WEdge) ed :
  walkCost (es ++ [ed]) = dadd (walkCost es) (LabeledEdge.label ed).
Proof. unfold walkCost. by rewrite foldl_snoc. Qed.

Lemma getCost_pathOf (s : E) (es : list WEdge) : Path.getCost (pathOf s es) = walkCost es.
Proof.
  induction es as [|ed es IH] using rev_ind; [done|].
  by rewrite pathOf_snoc, walkCost_snoc, getCost_extend, IH.
Qed.

Lemma getStart_pathOf (s : E) (es : list WEdge) : Path.getStart (pathOf s es) = s.
Proof.
  induction es as [|ed es IH] using rev_ind; [done|].
  by rewrite pathOf_snoc, extend_start.
Qed.

Lemma getEnd_pathOf (g : WGraph) s es t :
  walk g s es t → Path.getEnd (pathOf s es) = t.
Proof.
  destruct es as [|ed es _] using rev_ind; [done|].
  rewrite walk_snoc, pathOf_snoc, getEnd_extend. naive_solver.
Qed.

(** The segments of [pathOf s es] are the edges [es], each segment
    starting where the one before it ends. *)
Lemma path_pathOf (g : WGraph) s es t :
  walk g s es t →
  Forall2 (λ seg ed,
             Path.segEnd seg = LabeledEdge.to ed ∧
             Path.segCost seg = LabeledEdge.label ed ∧
             hasEdge g (Some (Path.segStart seg)) ed)
          (Path.path (pathOf s es)) es.
Proof.
  revert t. induction es as [|ed es IH] using rev_ind; intros t.
  { constructor. }
  rewrite walk_snoc, pathOf_snoc. intros (u & Hes & Hed & <-). simpl.
  apply Forall2_app; [by eapply IH|].
  repeat constructor; simpl. by rewrite (getEnd_pathOf g s es u).
Qed.

(** *** One iteration of the loop *)

Lemma listEdgesOut_run (g : WGraph) (v : E) :
  LabeledGraph.listEdgesOut (Some v) g =
  (match LabeledGraph.neighbors g !! Some v with
   | Some edges => Return edges
   | None => Throw IllegalArgumentException
   end, g).
Proof.
  unfold LabeledGraph.listEdgesOut, LabeledGraph.checkRep,
    LabeledGraph.DEBUG.
  run. rewrite andb_false_r.
  destruct (LabeledGraph.containsKey g (Some v)) eqn:Hv; simpl.
  - apply containsKey_true, elem_of_dom in Hv as [edges Hv].
    by rewrite Hv.
  - apply containsKey_false in Hv. by rewrite Hv.
Qed.

Lemma extendAll_items finished minPath edges (fringe : Q) :
  pq_items (ShortestPathFinder.extendAll finished minPath edges fringe)
  ≡ₚ extensions finished minPath edges ++ pq_items fringe.
Proof.
  unfold ShortestPathFinder.extendAll, extensions.
  revert fringe. induction edges as [|ed edges IH]; intros fringe; simpl.
  { done. }
  rewrite IH. rewrite filter_cons.
  case_bool_decide as Hfin; destruct (decide _) as [Hfin'|Hfin'];
    simpl; try done.
  by rewrite pq_items_add, Permutation_middle.
Qed.

Lemma iteration_case g e F (fr : Q) :
  IterationCase g e F fr (ShortestPathFinder.iteration g e F fr).
Proof.
  unfold ShortestPathFinder.iteration, pq_isEmpty.
  case_bool_decide as Hempty.
  { apply case_empty. by apply nil_length_inv. }
  destruct (pq_poll _ fr) as [[m fr']|] eqn:Hpoll.
  2: { apply pq_poll_None in Hpoll. by rewrite Hpoll in Hempty. }
  case_bool_decide as Hend; [by eapply case_found|].
  case_bool_decide as Hfin; [by eapply case_discard|].
  unfold outcome. rewrite listEdgesOut_run. simpl.
  destruct (LabeledGraph.neighbors g !! _) as [edges|] eqn:Hedges.
  - by eapply case_finish.
  - by eapply case_unknown.
Qed.

(** *** The loop invariant

    [R a b] reads "the cost [a] is at most the cost [b]".  The
    invariant is proved once, for a relation with the properties
    below; it is used with the order of [dle] (for minimality) and
    with the full relation (for reachability alone). *)
Section invariant.
Variables (g : WGraph) (s e : E).
Variable R : D → D → Prop.
Hypothesis R_refl : ∀ a, R a a.
Hypothesis R_trans : ∀ a b c, R a b → R b c → R a c.
Hypothesis R_mono : ∀ a b w, R a b → R (dadd a w) (dadd b w).
Hypothesis R_edge :
  ∀ a k ed, hasEdge g k ed → R a (dadd a (LabeledEdge.label ed)).
Hypothesis R_least : ∀ (fr fr' : Q) m,
  pq_poll ShortestPathFinder.comparator fr = Some (m, fr') →
  ∀ q, q ∈ pq_items fr → R (Path.getCost m) (Path.getCost q).

Lemma Inv_init :
  Inv g s e R ∅ (pq_add ShortestPathFinder.comparator (Path.new s) pq_new).
Proof.
  clear R_refl R_trans R_mono R_edge R_least. split.
  - intros q. rewrite pq_items_add, pq_items_new.
    intros ->%list_elem_of_singleton. by exists [].
  - set_solver.
  - intros _. rewrite pq_items_add. apply list_elem_of_here.
  - set_solver.
Qed.

(** Every walk from [s] to a node that is not finished is matched
    by a path of the fringe that costs no more. *)
Lemma Inv_fringe F fr es t :
  Inv g s e R F fr → walk g s es t → t ∉ F →
  ∃ q, q ∈ pq_items fr ∧ R (Path.getCost q) (walkCost es).
Proof.
  intros HI. revert t.
  induction es as [|ed es IH] using rev_ind; intros t Hwalk Ht.
  - simpl in Hwalk. subst t. exists (Path.new s).
    split; [by apply (inv_start _ _ _ _ _ _ HI)|apply R_refl].
  - apply walk_snoc in Hwalk as (u & Hes & Hed & <-).
    rewrite walkCost_snoc.
    destruct (decide (u ∈ F)) as [Hu|Hu].
    + destruct (inv_frontier _ _ _ _ _ _ HI u es ed) as (q & ? & ? & ?); eauto.
    + destruct (IH u Hes Hu) as (q & Hq & Hcost). exists q.
      split; [done|]. eapply R_trans; [done|]. by eapply R_edge.
Qed.

(** The path polled from the fringe costs no more than any walk
    from [s] to a node that is not finished. *)
Lemma Inv_polled F (fr fr' : Q) m es t :
  Inv g s e R F fr → pq_poll ShortestPathFinder.comparator fr = Some (m, fr') →
  walk g s es t → t ∉ F → R (Path.getCost m) (walkCost es).
Proof.
  intros HI Hpoll Hwalk Ht.
  destruct (Inv_fringe F fr es t) as (q & Hq & Hcost); [done..|].
  eapply R_trans; [|done]. by eapply R_least.
Qed.

Lemma Inv_Next F fr F' fr' :
  Inv g s e R F fr → ShortestPathFinder.iteration g e F fr
             = ShortestPathFinder.Next F' fr' →
  Inv g s e R F' fr'.
Proof.
  intros HI Hit. pose proof (iteration_case g e F fr) as Hcase.
  rewrite Hit in Hcase.
  inversion Hcase as [| |m ? Hpoll Hne Hfin|
                      |m fr0 edges Hpoll Hne Hfin Hedges]; subst.
  - (* the polled path ends at a finished node *)
    pose proof (pq_poll_Some _ _ _ _ Hpoll) as Hperm.
    assert (∀ q, q ∈ pq_items fr → Path.getEnd q ∉ F' →
                 q ∈ pq_items fr') as Hkeep.
    { intros q Hq Hend. rewrite Hperm in Hq.
      apply elem_of_cons in Hq as [->|]; done. }
    split.
    + intros q Hq. apply (inv_walks _ _ _ _ _ _ HI). rewrite Hperm.
      by apply list_elem_of_further.
    + apply (inv_end _ _ _ _ _ _ HI).
    + intros Hs. apply Hkeep; [by apply (inv_start _ _ _ _ _ _ HI)|done].
    + intros v es ed Hv Hes Hed Hto.
      destruct (inv_frontier _ _ _ _ _ _ HI v es ed) as (q & Hq & Hend & Hcost);
        [done..|].
      exists q. split_and!; [|done..]. apply Hkeep; [done|].
      by rewrite Hend.
  - (* the end of the polled path is finished now *)
    pose proof (pq_poll_Some _ _ _ _ Hpoll) as Hperm.
    set (v0 := Path.getEnd m) in *.
    assert (m ∈ pq_items fr) as Hm.
    { rewrite Hperm. apply list_elem_of_here. }
    destruct (inv_walks _ _ _ _ _ _ HI m Hm) as (es0 & Hes0 & Hm0).
    assert (∀ q, q ∈ pq_items fr → Path.getEnd q ∉ {[v0]} ∪ F →
                 q ∈ pq_items
                   (ShortestPathFinder.extendAll F m (elements edges) fr0))
      as Hkeep.
    { intros q Hq Hend. rewrite extendAll_items.
      apply elem_of_app. right. rewrite Hperm in Hq.
      apply elem_of_cons in Hq as [->|]; [|done]. set_solver. }
    split.
    + intros q. rewrite extendAll_items, elem_of_app.
      intros [Hq|Hq].
      * unfold extensions in Hq.
        apply list_elem_of_fmap in Hq as (ed & -> & Hed).
        apply list_elem_of_filter in Hed as [_ Hed].
        apply elem_of_elements in Hed.
        exists (es0 ++ [ed]). rewrite getEnd_extend, pathOf_snoc, <- Hm0.
        split; [|done]. apply walk_snoc. exists v0. split_and!; try done.
        unfold hasEdge, edgesOut. by rewrite Hedges.
      * apply (inv_walks _ _ _ _ _ _ HI). rewrite Hperm.
        by apply list_elem_of_further.
    + pose proof (inv_end _ _ _ _ _ _ HI). set_solver.
    + intros Hs. apply Hkeep; [|done].
      apply (inv_start _ _ _ _ _ _ HI). set_solver.
    + intros v es ed Hv Hes Hed Hto.
      destruct (decide (v = v0)) as [->|Hv0].
      * exists (Path.extend m (LabeledEdge.to ed) (LabeledEdge.label ed)).
        split_and!.
        -- rewrite extendAll_items. apply elem_of_app. left.
           unfold extensions. apply list_elem_of_fmap.
           exists ed. split; [done|]. apply list_elem_of_filter.
           split; [set_solver|]. apply elem_of_elements.
           unfold hasEdge, edgesOut in Hed. by rewrite Hedges in Hed.
        -- apply getEnd_extend.
        -- rewrite getCost_extend. apply R_mono.
           by eapply Inv_polled.
      * destruct (inv_frontier _ _ _ _ _ _ HI v es ed) as (q & Hq & Hend & Hcost);
          [set_solver|done|done|set_solver|].
        exists q. split_and!; [|done..]. apply Hkeep; [done|].
        by rewrite Hend.
Qed.

Lemma Inv_Exit F fr r :
  Inv g s e R F fr → ShortestPathFinder.iteration g e F fr
             = ShortestPathFinder.Exit r →
  solved g s e R r.
Proof.
  intros HI Hit. pose proof (iteration_case g e F fr) as Hcase.
  rewrite Hit in Hcase.
  inversion Hcase as [Hempty|m fr' Hpoll Hend| | |]; simpl; [| |done].
  - intros es Hes.
    destruct (Inv_fringe F fr es e HI Hes (inv_end _ _ _ _ _ _ HI))
      as (q & Hq & _).
    rewrite Hempty in Hq. by apply elem_of_nil in Hq.
  - pose proof (pq_poll_Some _ _ _ _ Hpoll) as Hperm.
    assert (m ∈ pq_items fr) as Hm.
    { rewrite Hperm. apply list_elem_of_here. }
    split; [rewrite <- Hend; by apply (inv_walks _ _ _ _ _ _ HI)|].
    intros es Hes. eapply Inv_polled; eauto using inv_end.
Qed.

Lemma loop_solved fuel F fr r :
  Inv g s e R F fr → ShortestPathFinder.loop fuel g e F fr = Some r → solved g s e R r.
Proof.
  revert F fr. induction fuel as [|fuel IH]; intros F fr HI; simpl;
    [done|].
  destruct (ShortestPathFinder.iteration g e F fr) as [r'|F' fr'] eqn:Hit.
  - intros [= <-]. by eapply Inv_Exit.
  - apply IH. by eapply Inv_Next.
Qed.
End invariant.

(** *** Termination *)

Lemma weight_delete (m : gmap (option E) (gset WEdge)) k edges :
  m !! k = Some edges → weight m = S (size edges) + weight (delete k m).
Proof.
  intros Hk. unfold weight.
  apply (map_fold_delete_L (λ _ edges n, S (size edges) + n)); [|done].
  intros. lia.
Qed.

Lemma unfinished_empty (g : WGraph) : unfinished g ∅ = LabeledGraph.neighbors g.
Proof.
  unfold unfinished. apply map_filter_id. intros k edges _. simpl.
  set_solver.
Qed.

Lemma unfinished_finish (g : WGraph) F v :
  unfinished g ({[v]} ∪ F) = delete (Some v) (unfinished g F).
Proof.
  unfold unfinished. apply map_eq. intros k. apply option_eq. intros edges.
  rewrite lookup_delete_Some, !map_lookup_filter_Some. simpl.
  rewrite !elem_of_map. split.
  - intros [Hk Hfin]. split_and!; [|done|].
    + intros <-. apply Hfin. exists v. set_solver.
    + intros (x & -> & Hx). apply Hfin. exists x. set_solver.
  - intros (Hne & Hk & Hfin). split; [done|].
    intros (x & -> & [->%elem_of_singleton|Hx]%elem_of_union); [done|].
    apply Hfin. by exists x.
Qed.

Lemma unfinished_lookup (g : WGraph) F v edges :
  v ∉ F → LabeledGraph.neighbors g !! Some v = Some edges →
  unfinished g F !! Some v = Some edges.
Proof.
  intros Hv Hedges. unfold unfinished. apply map_lookup_filter_Some.
  split; [done|]. simpl. rewrite elem_of_map. by intros (x & [= <-] & Hx).
Qed.

Lemma extensions_length F (m : WPath) l : length (extensions F m l) ≤ length l.
Proof. unfold extensions. rewrite length_fmap. apply length_filter. Qed.

Lemma iteration_measure (g : WGraph) e F (fr : Q) F' fr' :
  ShortestPathFinder.iteration g e F fr = ShortestPathFinder.Next F' fr' →
  measure g F' fr' < measure g F fr.
Proof.
  intros Hit. pose proof (iteration_case g e F fr) as Hcase.
  rewrite Hit in Hcase. unfold measure.
  inversion Hcase as [| |m ? Hpoll Hne Hfin|
                      |m fr0 edges Hpoll Hne Hfin Hedges]; subst.
  - rewrite (pq_poll_Some _ _ _ _ Hpoll). simpl. lia.
  - rewrite (pq_poll_Some _ _ _ _ Hpoll), extendAll_items, length_app.
    rewrite unfinished_finish.
    rewrite (weight_delete (unfinished g F) (Some (Path.getEnd m)) edges)
      by by apply unfinished_lookup.
    pose proof (extensions_length F m (elements edges)) as Hlen.
    unfold size, set_size at 1. simpl. lia.
Qed.

(** The loop ends within any number of iterations above the measure. *)
Lemma loop_terminates fuel (g : WGraph) e F (fr : Q) :
  measure g F fr < fuel → is_Some (ShortestPathFinder.loop fuel g e F fr).
Proof.
  revert F fr. induction fuel as [|fuel IH]; intros F fr Hfuel; [lia|].
  simpl.
  destruct (ShortestPathFinder.iteration g e F fr) as [r|F' fr'] eqn:Hit;
    [done|].
  apply IH. apply iteration_measure in Hit. lia.
Qed.

(** [shortestPathSolver] is [loop] run to its end. *)
Lemma shortestPathSolver_loop (g : WGraph) s e :
  ShortestPathFinder.loop (ShortestPathFinder.iterations g) g e ∅
    (pq_add ShortestPathFinder.comparator (Path.new s) pq_new)
  = Some (ShortestPathFinder.shortestPathSolver (Q:=Q) g s e).
Proof.
  unfold ShortestPathFinder.shortestPathSolver.
  destruct (loop_terminates (ShortestPathFinder.iterations g) g e ∅
              (pq_add ShortestPathFinder.comparator (Path.new s) pq_new))
    as [r Hr]; [|by rewrite Hr].
  unfold measure, ShortestPathFinder.iterations.
  rewrite unfinished_empty, pq_items_add, pq_items_new. unfold weight.
  simpl. lia.
Qed.

(** *** No exception in a graph that satisfies its invariant *)

Lemma iteration_closed (g : WGraph) e F (fr : Q) :
  repOK g → closed g fr →
  match ShortestPathFinder.iteration g e F fr with
  | ShortestPathFinder.Exit r => ∀ ex, r ≠ Throw ex
  | ShortestPathFinder.Next F' fr' => closed g fr'
  end.
Proof.
  intros Hg Hcl.
  destruct (iteration_case g e F fr)
    as [|m fr' Hpoll|m fr' Hpoll|m fr' Hpoll ? ? Hnone
        |m fr' edges Hpoll ? ? Hedges]; try done.
  - intros q Hq. apply Hcl. rewrite (pq_poll_Some _ _ _ _ Hpoll).
    by apply list_elem_of_further.
  - exfalso. apply not_elem_of_dom in Hnone. apply Hnone, Hcl.
    rewrite (pq_poll_Some _ _ _ _ Hpoll). apply list_elem_of_here.
  - intros q. rewrite extendAll_items, elem_of_app. intros [Hq|Hq].
    + unfold extensions in Hq.
      apply list_elem_of_fmap in Hq as (ed & -> & Hed).
      apply list_elem_of_filter in Hed as [_ Hed].
      apply elem_of_elements in Hed. rewrite getEnd_extend.
      apply (repOK_edge_to g (Some (Path.getEnd m))); [done|].
      unfold hasEdge, edgesOut. by rewrite Hedges.
    + apply Hcl. rewrite (pq_poll_Some _ _ _ _ Hpoll).
      by apply list_elem_of_further.
Qed.

Lemma loop_no_throw fuel (g : WGraph) e F (fr : Q) r :
  repOK g → closed g fr →
  ShortestPathFinder.loop fuel g e F fr = Some r → ∀ ex, r ≠ Throw ex.
Proof.
  intros Hg. revert F fr.
  induction fuel as [|fuel IH]; intros F fr Hcl; simpl; [done|].
  pose proof (iteration_closed g e F fr Hg Hcl) as Hit.
  destruct (ShortestPathFinder.iteration g e F fr) as [r'|F' fr'].
  - by intros [= <-].
  - by apply IH.
Qed.

(** *** The solver *)

(** A start node that is not in the graph makes [listEdgesOut] fail
    in the first iteration. *)
Lemma shortestPathSolver_unknown_start (g : WGraph) s e :
  LabeledGraph.neighbors g !! Some s = None → s ≠ e →
  ShortestPathFinder.shortestPathSolver (Q:=Q) g s e = Throw InvalidArgument.
Proof.
  intros Hs Hne. pose proof (shortestPathSolver_loop g s e) as Hloop.
  unfold ShortestPathFinder.iterations in Hloop. simpl in Hloop.
  set (fr := pq_add ShortestPathFinder.comparator (Path.new s) pq_new)
    in Hloop.
  assert (pq_items fr = [Path.new s]) as Hfr.
  { apply Permutation_singleton_r. unfold fr.
    by rewrite pq_items_add, pq_items_new. }
  assert (∀ m (fr' : Q),
    pq_poll ShortestPathFinder.comparator fr = Some (m, fr') →
    m = Path.new s) as Hpoll.
  { intros m fr' Hp%pq_poll_Some. rewrite Hfr in Hp.
    eapply list_elem_of_singleton. rewrite Hp.
    apply list_elem_of_here. }
  destruct (iteration_case g e ∅ fr)
    as [Hempty|m fr' Hp Hend|m fr' Hp ? Hfin|m fr' Hp
        |m fr' edges Hp ? ? Hedges]; simpl in Hloop.
  - by rewrite Hfr in Hempty.
  - apply Hpoll in Hp as ->. done.
  - set_solver.
  - by injection Hloop as <-.
  - apply Hpoll in Hp as ->. rewrite getEnd_new in Hedges. congruence.
Qed.

Lemma shortestPathSolver_no_throw (g : WGraph) (s e : E) :
  repOK g → Some s ∈ LabeledGraph.nodes g →
  ∀ ex, ShortestPathFinder.shortestPathSolver (Q:=Q) g s e ≠ Throw ex.
Proof.
  intros Hg Hs. eapply loop_no_throw; [done| |apply shortestPathSolver_loop].
  intros q. rewrite pq_items_add, pq_items_new.
  intros ->%list_elem_of_singleton. simpl. by destruct Hg as [<- _].
Qed.

(** C2. In a graph that satisfies its representation invariant, for
    a start node and an end node of the graph,
    [shortestPathSolver] throws nothing, and it returns [null]
    exactly when no walk leads from the start node to the end node.
    For a start node that is not in the graph (and differs from the
    end node) it fails with [InvalidArgument] instead. *)
Theorem shortestPathSolver_null_iff_no_path (g : WGraph) (s e : E) :
  repOK g →
  (Some s ∈ LabeledGraph.nodes g → Some e ∈ LabeledGraph.nodes g →
   (ShortestPathFinder.shortestPathSolver (Q:=Q) g s e = Return None
    ↔ ¬ ∃ es, walk g s es e) ∧
   (∀ ex, ShortestPathFinder.shortestPathSolver (Q:=Q) g s e ≠ Throw ex)) ∧
  (Some s ∉ LabeledGraph.nodes g → s ≠ e →
   ShortestPathFinder.shortestPathSolver (Q:=Q) g s e
   = Throw InvalidArgument).
Proof.
  intros Hg. split.
  - intros Hs He. pose proof (shortestPathSolver_loop g s e) as Hloop.
    set (r := ShortestPathFinder.shortestPathSolver g s e) in *.
    assert (∀ ex, r ≠ Throw ex) as Hthrow
      by by apply shortestPathSolver_no_throw.
    assert (solved g s e (λ _ _, True) r) as Hr.
    { eapply (loop_solved g s e (λ _ _, True)); [done..| |done].
      by apply Inv_init. }
    split; [|done]. split.
    + intros Hnull. rewrite Hnull in Hr. simpl in Hr.
      intros [es Hes]. by apply (Hr es).
    + intros Hno. destruct r as [[p|]|ex]; simpl in Hr.
      * destruct Hr as [[es [Hes _]] _]. destruct Hno. by exists es.
      * done.
      * by destruct (Hthrow ex).
  - intros Hs Hne. apply shortestPathSolver_unknown_start; [|done].
    apply not_elem_of_dom. by destruct Hg as [<- _].
Qed.

Context `{!DoubleLaws D}.

Lemma comparator_total (a b : WPath) :
  ShortestPathFinder.comparator a b = true
  ∨ ShortestPathFinder.comparator b a = true.
Proof. apply dle_total. Qed.

Lemma comparator_trans (a b c : WPath) :
  ShortestPathFinder.comparator a b = true →
  ShortestPathFinder.comparator b c = true →
  ShortestPathFinder.comparator a c = true.
Proof. apply dle_trans. Qed.

(** C1. In a graph whose edge weights are all non-negative, a path
    that [shortestPathSolver(graph, start, end)] returns starts at
    [start], ends at [end], follows a walk of the graph from the one
    to the other with the cost of that walk, and costs no more than
    any walk from [start] to [end]. *)
Theorem shortestPathSolver_minimal (g : WGraph) (s e : E) (p : WPath) :
  nonNegative g →
  ShortestPathFinder.shortestPathSolver (Q:=Q) g s e = Return (Some p) →
  Path.getStart p = s ∧ Path.getEnd p = e ∧
  (∃ es, walk g s es e ∧ p = pathOf s es ∧ Path.getCost p = walkCost es) ∧
  (∀ es, walk g s es e → dle (Path.getCost p) (walkCost es) = true).
Proof.
  intros Hnn Hp. pose proof (shortestPathSolver_loop g s e) as Hloop.
  rewrite Hp in Hloop.
  apply (loop_solved g s e (λ a b, dle a b = true)) in Hloop.
  - destruct Hloop as [(es & Hes & ->) Hmin].
    split_and!; [apply getStart_pathOf|by eapply getEnd_pathOf| |done].
    exists es. split_and!; [done..|]. apply getCost_pathOf.
  - apply dle_refl.
  - apply dle_trans.
  - intros a b w. apply dadd_mono.
  - intros a k ed Hed. apply dadd_nonneg. by eapply Hnn.
  - intros fr fr' m Hpoll q Hq.
    by apply (pq_poll_least _ _ _ _ comparator_total comparator_trans
                            Hpoll).
  - by apply Inv_init.
Qed.
End ShortestPathFinder_facts.

(** ** CampusMap *)

Section CampusMap_facts.
Context {jvm : JVM} `{Countable D} `{!DoubleOps D}.
Context `{!PriorityQueueOps (Path.t (CampusMap.Point D) D) Q}.
Context `{!PriorityQueueLaws (Path.t (CampusMap.Point D) D) Q}.

Abbreviation Map := (CampusMap.t (D:=D)).
Abbreviation Route := (Path.t (CampusMap.Point D) D).

Lemma checkRep_run (cm : Map) :
  CampusMap.checkRep cm =
  (if sizesAgree cm then Return () else Throw RuntimeException, cm).
Proof.
  unfold CampusMap.checkRep, sizesAgree. run. by case_bool_decide.
Qed.

Lemma shortNameExists_run (cm : Map) (name : option string) :
  CampusMap.shortNameExists name cm =
  (if sizesAgree cm then
     Return (match name with
             | None => false
             | Some s =>
               bool_decide (is_Some (CampusMap.shortNameToPoint cm !! s))
             end)
   else Throw RuntimeException, cm).
Proof.
  unfold CampusMap.shortNameExists. unfold mbind, M_bind at 1.
  rewrite checkRep_run. by destruct (sizesAgree cm).
Qed.

(** What [findShortestPath] does. *)
Lemma findShortestPath_run (cm : Map) (a b : option string) :
  CampusMap.findShortestPath (Q:=Q) a b cm =
  match a, b with
  | Some sa, Some sb =>
    if negb (sizesAgree cm) then (Throw RuntimeException, cm) else
    match CampusMap.shortNameToPoint cm !! sa,
          CampusMap.shortNameToPoint cm !! sb with
    | Some pa, Some pb =>
      match CampusMap.shortestPathMap cm !! (sa, sb) with
      | Some cached => (Return cached, cm)
      | None =>
        let calls := S (CampusMap.solverCalls cm) in
        match ShortestPathFinder.shortestPathSolver (Q:=Q)
                (CampusMap.graph cm) pa pb with
        | Return v =>
          (Return v,
           withCache cm (<[(sa, sb) := v]> (CampusMap.shortestPathMap cm))
                     calls)
        | Throw ex =>
          (Throw ex, withCache cm (CampusMap.shortestPathMap cm) calls)
        end
      end
    | _, _ => (Throw IllegalArgumentException, cm)
    end
  | _, _ => (Throw IllegalArgumentException, cm)
  end.
Proof.
  unfold CampusMap.findShortestPath.
  destruct a as [sa|], b as [sb|]; try done.
  unfold mbind, M_bind at 1. rewrite shortNameExists_run.
  destruct (sizesAgree cm) eqn:Hsz; simpl; [|done].
  destruct (CampusMap.shortNameToPoint cm !! sa) as [pa|] eqn:Hsa; simpl;
    [|done].
  unfold mbind, M_bind at 1. rewrite shortNameExists_run, Hsz.
  destruct (CampusMap.shortNameToPoint cm !! sb) as [pb|] eqn:Hsb; simpl;
    [|done].
  run. destruct (CampusMap.shortestPathMap cm !! (sa, sb)) as [v|]; [done|].
  rewrite Hsa, Hsb.
  destruct (ShortestPathFinder.shortestPathSolver _ pa pb) as [v|ex];
    [|done].
  rewrite checkRep_run. unfold sizesAgree in *. simpl. by rewrite Hsz.
Qed.

Lemma findShortestPath_fields (cm : Map) (a b : option string) :
  let cm' := state_after (CampusMap.findShortestPath (Q:=Q) a b) cm in
  CampusMap.graph cm' = CampusMap.graph cm ∧
  CampusMap.pointToBuildings cm' = CampusMap.pointToBuildings cm ∧
  CampusMap.shortNameToPoint cm' = CampusMap.shortNameToPoint cm.
Proof.
  unfold state_after. rewrite findShortestPath_run.
  destruct a as [sa|], b as [sb|]; simpl; try done.
  destruct (sizesAgree cm); simpl; [|done].
  destruct (CampusMap.shortNameToPoint cm !! sa) as [pa|]; [|done].
  destruct (CampusMap.shortNameToPoint cm !! sb) as [pb|]; [|done].
  destruct (CampusMap.shortestPathMap cm !! (sa, sb)) as [v|]; [done|].
  by destruct (ShortestPathFinder.shortestPathSolver _ pa pb).
Qed.

(** C7. A call of [findShortestPath] leaves the graph, the set of
    buildings and the two indices as they are.  The cache only grows:
    every entry stays, with its value; a call that fails adds
    nothing; a call that returns adds at most the entry of the
    queried pair of names, and only when the pair had none. *)
Theorem findShortestPath_frame (cm : Map) (a b : option string) :
  let r := outcome (CampusMap.findShortestPath (Q:=Q) a b) cm in
  let cm' := state_after (CampusMap.findShortestPath (Q:=Q) a b) cm in
  CampusMap.graph cm' = CampusMap.graph cm ∧
  CampusMap.buildings cm' = CampusMap.buildings cm ∧
  CampusMap.pointToBuildings cm' = CampusMap.pointToBuildings cm ∧
  CampusMap.shortNameToPoint cm' = CampusMap.shortNameToPoint cm ∧
  CampusMap.shortestPathMap cm ⊆ CampusMap.shortestPathMap cm' ∧
  (∀ ex, r = Throw ex →
         CampusMap.shortestPathMap cm' = CampusMap.shortestPathMap cm) ∧
  (CampusMap.shortestPathMap cm' = CampusMap.shortestPathMap cm ∨
   ∃ sa sb v,
     a = Some sa ∧ b = Some sb ∧ r = Return v ∧
     CampusMap.shortestPathMap cm !! (sa, sb) = None ∧
     CampusMap.shortestPathMap cm'
     = <[(sa, sb) := v]> (CampusMap.shortestPathMap cm)).
Proof.
  intros r cm'. subst r cm'. unfold outcome, state_after.
  rewrite findShortestPath_run.
  destruct a as [sa|], b as [sb|]; simpl; try by auto 10.
  destruct (sizesAgree cm); simpl; [|by auto 10].
  destruct (CampusMap.shortNameToPoint cm !! sa) as [pa|];
    [|by auto 10].
  destruct (CampusMap.shortNameToPoint cm !! sb) as [pb|];
    [|by auto 10].
  destruct (CampusMap.shortestPathMap cm !! (sa, sb)) as [v|] eqn:Hcache;
    [by auto 10|].
  destruct (ShortestPathFinder.shortestPathSolver _ pa pb) as [v|ex];
    simpl; [|by auto 10].
  split_and!; try done.
  - by apply insert_subseteq.
  - right. by exists sa, sb, v.
Qed.

(** *** The objects the constructor builds *)

Lemma onGraph_run {A} (m : M (LabeledGraph.t (CampusMap.Point D) D) A)
    (cm : Map) :
  CampusMap.onGraph m cm =
  ((m (CampusMap.graph cm)).1,
   CampusMap.mk (m (CampusMap.graph cm)).2 (CampusMap.pointToBuildings cm)
     (CampusMap.shortNameToPoint cm) (CampusMap.shortestPathMap cm)
     (CampusMap.buildings cm) (CampusMap.solverCalls cm)).
Proof. unfold CampusMap.onGraph. by destruct (m (CampusMap.graph cm)). Qed.

Lemma addNode_nodes (g : LabeledGraph.t (CampusMap.Point D) D) p :
  let g' := state_after (LabeledGraph.addNode (Some p)) g in
  Some p ∈ LabeledGraph.nodes g' ∧
  LabeledGraph.nodes g ⊆ LabeledGraph.nodes g' ∧
  outcome (LabeledGraph.addNode (Some p)) g
  = Return (negb (bool_decide (Some p ∈ LabeledGraph.nodes g))).
Proof.
  unfold state_after, outcome. rewrite addNode_run, andb_false_r.
  case_bool_decide; simpl; set_solver.
Qed.

Lemma addBuilding_building bs b (cm : Map) :
  building bs cm →
  ∃ cm', CampusMap.addBuilding b cm = (Return (), cm') ∧
         building (bs ++ [b]) cm'.
Proof.
  intros (Hg & Hpts & Hnames & Hpoints & Hcache & Hcalls).
  unfold CampusMap.addBuilding.
  set (p := CampusMap.mkPoint (CampusMap.buildingX b)
                              (CampusMap.buildingY b)).
  unfold mbind, M_bind at 1. unfold get.
  unfold mbind, M_bind at 1. unfold put.
  unfold mbind, M_bind at 1. rewrite onGraph_run. simpl.
  destruct (addNode_nodes (CampusMap.graph cm) p) as (Hp & Hsub & Hret).
  unfold outcome in Hret. rewrite Hret. simpl. eexists. split; [done|].
  split_and!; simpl; try done.
  - apply (addNode_repOK (CampusMap.graph cm) (Some p)); auto.
  - intros s q. rewrite lookup_insert.
    destruct (decide (CampusMap.getShortName b = s)); [by intros [= <-]|].
    intros Hq. by eapply Hsub, Hpts.
  - unfold nameIndex. by rewrite foldl_snoc, Hnames.
  - unfold pointIndex. by rewrite foldl_snoc, Hpoints.
Qed.

Lemma onGraph_step {A B}
    (m : M (LabeledGraph.t (CampusMap.Point D) D) A) (k : A → M Map B)
    (cm : Map) a :
  outcome m (CampusMap.graph cm) = Return a →
  (CampusMap.onGraph m ≫= k) cm
  = k a (withGraph cm (state_after m (CampusMap.graph cm))).
Proof.
  unfold outcome, state_after. intros Ha.
  unfold mbind, M_bind. by rewrite onGraph_run, Ha.
Qed.

Lemma addPath_building bs path (cm : Map) :
  building bs cm →
  ∃ cm', CampusMap.addPath path cm = (Return (), cm') ∧ building bs cm'.
Proof.
  intros (Hg & Hpts & Hnames & Hpoints & Hcache & Hcalls).
  unfold CampusMap.addPath.
  set (p1 := CampusMap.mkPoint (CampusMap.getX1 path)
                               (CampusMap.getY1 path)).
  set (p2 := CampusMap.mkPoint (CampusMap.getX2 path)
                               (CampusMap.getY2 path)).
  set (g1 := state_after (LabeledGraph.addNode (Some p1))
                         (CampusMap.graph cm)).
  set (g2 := state_after (LabeledGraph.addNode (Some p2)) g1).
  set (g3 := state_after
               (LabeledGraph.addEdge (Some p1) (Some p2)
                  (Some (CampusMap.getDistance path))) g2).
  destruct (addNode_nodes (CampusMap.graph cm) p1) as (Hp1 & Hsub1 & Hret1).
  destruct (addNode_nodes g1 p2) as (Hp2 & Hsub2 & Hret2).
  fold g1 in Hp1, Hsub1. fold g2 in Hp2, Hsub2.
  assert (repOK g1) as Hg1 by (apply addNode_repOK; auto).
  assert (repOK g2) as Hg2 by (apply addNode_repOK; auto).
  assert (repOK g3) as Hg3 by by apply addEdge_repOK.
  assert (LabeledGraph.containsKey g2 (Some p1) = true) as Hc1.
  { apply containsKey_true. destruct Hg2 as [<- _]. set_solver. }
  assert (LabeledGraph.containsKey g2 (Some p2) = true) as Hc2.
  { apply containsKey_true. by destruct Hg2 as [<- _]. }
  destruct (addEdge_present g2 p1 p2 (CampusMap.getDistance path) Hc1 Hc2)
    as [[inserted Hret3] Hnodes].
  fold g3 in Hnodes.
  rewrite (onGraph_step _ _ cm _ Hret1). fold g1.
  rewrite (onGraph_step _ _ (withGraph cm g1) _ Hret2). simpl. fold g2.
  rewrite (onGraph_step _ _ (withGraph cm g2) _ Hret3). simpl. fold g3.
  eexists. split; [done|].
  split_and!; simpl; try done.
  intros s q Hq. rewrite Hnodes. by eapply Hsub2, Hsub1, Hpts.
Qed.

Lemma forEach_invariant {A} (P : Map → Prop) (body : A → M Map unit) l cm :
  (∀ x cm, P cm → ∃ cm', body x cm = (Return (), cm') ∧ P cm') →
  P cm → ∃ cm', CampusMap.forEach l body cm = (Return (), cm') ∧ P cm'.
Proof.
  intros Hbody. revert cm. induction l as [|x l IH]; intros cm Hcm; simpl.
  { by exists cm. }
  destruct (Hbody x cm Hcm) as (cm1 & Hx & Hcm1).
  unfold mbind, M_bind. rewrite Hx. by apply IH.
Qed.

Lemma forEach_addBuilding bs0 bs (cm : Map) :
  building bs0 cm →
  ∃ cm', CampusMap.forEach bs CampusMap.addBuilding cm = (Return (), cm')
         ∧ building (bs0 ++ bs) cm'.
Proof.
  revert bs0 cm. induction bs as [|b bs IH]; intros bs0 cm Hcm; simpl.
  { exists cm. by rewrite app_nil_r. }
  destruct (addBuilding_building bs0 b cm Hcm) as (cm1 & Hb & Hcm1).
  unfold mbind, M_bind. rewrite Hb.
  destruct (IH _ _ Hcm1) as (cm' & Hbs & Hcm').
  exists cm'. by rewrite <- app_assoc in Hcm'.
Qed.

(** The constructor returns an object exactly when the two indices
    have the same size in the end, and the object is as [building]
    describes. *)
Lemma new_Return bs ps (cm : Map) :
  CampusMap.new bs ps = Return cm → building bs cm ∧ mapOK cm.
Proof.
  unfold CampusMap.new.
  set (this := CampusMap.mk _ _ _ _ _ _).
  assert (building [] this) as Hthis.
  { split_and!; try done; apply new_repOK. }
  destruct (forEach_addBuilding [] bs this Hthis) as (cm1 & Hbs & Hcm1).
  destruct (forEach_invariant (building bs) CampusMap.addPath ps cm1)
    as (cm2 & Hps & Hcm2); [intros; by apply addPath_building|done|].
  unfold mbind, M_bind at 1. rewrite Hbs.
  unfold mbind, M_bind at 1. rewrite Hps.
  rewrite checkRep_run. destruct (sizesAgree cm2) eqn:Hsz; [|done].
  intros [= <-]. split; [done|].
  destruct Hcm2 as (? & ? & _). by split_and!.
Qed.

Lemma shortNameExists_state (cm : Map) name :
  state_after (CampusMap.shortNameExists name) cm = cm.
Proof. unfold state_after. by rewrite shortNameExists_run. Qed.

(** What [longNameForShort] does. *)
Lemma longNameForShort_run (cm : Map) (name : option string) :
  CampusMap.longNameForShort name cm =
  (if sizesAgree cm then
     match name ≫= (CampusMap.shortNameToPoint cm !!.) with
     | None => Throw IllegalArgumentException
     | Some p =>
       match CampusMap.pointToBuildings cm !! p with
       | None => Throw NullPointerException
       | Some b => Return (CampusMap.getLongName b)
       end
     end
   else Throw RuntimeException, cm).
Proof.
  unfold CampusMap.longNameForShort.
  unfold mbind, M_bind at 1. rewrite shortNameExists_run.
  destruct (sizesAgree cm) eqn:Hsz; [|done].
  destruct name as [s|]; simpl; [|done].
  destruct (CampusMap.shortNameToPoint cm !! s) as [p|] eqn:Hs; simpl;
    [|done].
  unfold mbind, M_bind at 1. rewrite checkRep_run, Hsz.
  run. rewrite Hs.
  by destruct (CampusMap.pointToBuildings cm !! p).
Qed.

Lemma longNameForShort_state (cm : Map) name :
  state_after (CampusMap.longNameForShort name) cm = cm.
Proof. unfold state_after. by rewrite longNameForShort_run. Qed.

Lemma readOnly_bind {A B} (m : M Map A) (k : A → M Map B) :
  readOnly m → (∀ a, readOnly (k a)) → readOnly (m ≫= k).
Proof.
  intros Hm Hk cm. specialize (Hm cm). unfold state_after in *.
  unfold mbind, M_bind. destruct (m cm) as [[a|e] cm']; simpl in *; subst.
  - apply Hk.
  - done.
Qed.

Lemma buildingNames_state (cm : Map) :
  state_after CampusMap.buildingNames cm = cm.
Proof.
  assert (∀ (l : list string) (acc : M Map (gmap string string)),
    readOnly acc →
    readOnly (foldl (λ acc s,
                shortToLong ← acc;
                long ← CampusMap.longNameForShort (Some s);
                mret (<[s := long]> shortToLong)) acc l)) as Hfold.
  { induction l as [|s l IH]; intros acc Hacc; simpl; [done|].
    apply IH. apply readOnly_bind; [done|]. intros shortToLong.
    apply readOnly_bind; [intros ?; apply longNameForShort_state|].
    by intros long ?. }
  unfold CampusMap.buildingNames.
  apply (readOnly_bind get); [done|]. intros cm0.
  apply readOnly_bind; [by apply Hfold|]. intros shortToLong.
  apply readOnly_bind; [|by intros ? ?].
  intros cm1. unfold state_after. by rewrite checkRep_run.
Qed.

Lemma findShortestPath_mapOK (cm : Map) a b :
  mapOK cm →
  mapOK (state_after (CampusMap.findShortestPath (Q:=Q) a b) cm).
Proof.
  intros (Hg & Hsz & Hpts).
  pose proof (findShortestPath_fields cm a b) as (Hgraph & Hp & Hn).
  simpl in *. unfold mapOK, sizesAgree in *.
  by rewrite Hgraph, Hp, Hn.
Qed.

(** Every state of the object satisfies [mapOK], and its indices are
    those the constructor built. *)
Lemma reachable_mapOK bs ps (cm : Map) :
  reachable (Q:=Q) bs ps cm →
  mapOK cm ∧
  CampusMap.shortNameToPoint cm = nameIndex bs ∧
  CampusMap.pointToBuildings cm = pointIndex bs.
Proof.
  induction 1 as [cm Hnew|cm name _ IH|cm name _ IH|cm _ IH|cm _ IH
                  |cm a b _ IH].
  - apply new_Return in Hnew as [(_ & _ & ? & ? & _) ?]. done.
  - by rewrite shortNameExists_state.
  - by rewrite longNameForShort_state.
  - by rewrite buildingNames_state.
  - done.
  - destruct IH as (Hok & Hn & Hp).
    pose proof (findShortestPath_fields cm a b) as (_ & Hp' & Hn').
    simpl in *. rewrite Hp', Hn'. split; [|done].
    by apply findShortestPath_mapOK.
Qed.

(** *** The indices *)

Lemma size_list_to_set_le `{Countable A} (l : list A) :
  size (list_to_set l : gset A) ≤ length l.
Proof.
  induction l as [|x l IH].
  - by rewrite list_to_set_nil, size_empty.
  - rewrite list_to_set_cons, size_union_alt, size_singleton.
    assert (size (list_to_set l ∖ {[x]} : gset A)
            ≤ size (list_to_set l : gset A)) as Hle
      by (apply subseteq_size; set_solver).
    simpl. lia.
Qed.

Lemma size_list_to_set_NoDup `{Countable A} (l : list A) :
  size (list_to_set l : gset A) = length l → NoDup l.
Proof.
  induction l as [|x l IH]; [constructor|].
  rewrite list_to_set_cons. intros Hsize.
  pose proof (size_list_to_set_le l) as Hle.
  destruct (decide (x ∈ l)) as [Hx|Hx].
  - rewrite (subseteq_union_1_L {[x]} (list_to_set l)) in Hsize
      by (apply singleton_subseteq_l; by apply elem_of_list_to_set).
    simpl in Hsize. lia.
  - rewrite size_union, size_singleton in Hsize
      by (apply disjoint_singleton_l; by rewrite elem_of_list_to_set).
    constructor; [done|]. apply IH. simpl in Hsize. lia.
Qed.

Section index.
Context `{Countable K} {V A : Type} (f : A → K) (h : A → V).

Lemma index_lookup_notin m0 l k :
  k ∉ f <$> l → index f h m0 l !! k = m0 !! k.
Proof.
  revert m0. induction l as [|x l IH]; intros m0 Hk; simpl; [done|].
  rewrite fmap_cons, not_elem_of_cons in Hk. destruct Hk as [Hne Hk].
  unfold index in *. simpl. rewrite IH by done.
  by rewrite lookup_insert_ne.
Qed.

Lemma index_lookup_NoDup m0 l x :
  NoDup (f <$> l) → x ∈ l → index f h m0 l !! f x = Some (h x).
Proof.
  revert m0. induction l as [|y l IH]; intros m0 Hnd Hx.
  { by apply elem_of_nil in Hx. }
  rewrite fmap_cons in Hnd. apply NoDup_cons in Hnd as [Hy Hnd].
  unfold index in *. simpl.
  apply elem_of_cons in Hx as [->|Hx]; [|by apply IH].
  fold (index f h (<[f y := h y]> m0) l).
  rewrite index_lookup_notin by done. apply lookup_insert_eq.
Qed.

Lemma index_dom m0 l :
  dom (index f h m0 l) = list_to_set (f <$> l) ∪ dom m0.
Proof.
  revert m0. induction l as [|x l IH]; intros m0; simpl.
  { set_solver. }
  unfold index in *. simpl. rewrite IH, dom_insert_L. set_solver.
Qed.
End index.

Lemma registered_Some (cm : Map) s :
  registered cm (Some s) ↔ is_Some (CampusMap.shortNameToPoint cm !! s).
Proof. unfold registered. naive_solver. Qed.

Lemma registered_None (cm : Map) : ¬ registered cm None.
Proof. by intros (s & ? & _). Qed.

(** In a state of the object, the solver throws nothing on the
    points of two registered names. *)
Lemma solver_on_registered bs ps (cm : Map) sa sb pa pb :
  reachable (Q:=Q) bs ps cm →
  CampusMap.shortNameToPoint cm !! sa = Some pa →
  CampusMap.shortNameToPoint cm !! sb = Some pb →
  ∃ v, ShortestPathFinder.shortestPathSolver (Q:=Q)
         (CampusMap.graph cm) pa pb = Return v.
Proof.
  intros (Hok & _)%reachable_mapOK Hsa Hsb.
  destruct Hok as (Hg & _ & Hpts).
  pose proof (shortestPathSolver_no_throw (Q:=Q) (CampusMap.graph cm) pa pb
                Hg ltac:(by eapply Hpts)) as Hthrow.
  destruct (ShortestPathFinder.shortestPathSolver _ pa pb) as [v|ex].
  - by exists v.
  - by destruct (Hthrow ex).
Qed.

(** C3. In every state of a [CampusMap] object,
    [findShortestPath(startShortName, endShortName)] fails with
    [InvalidArgument] exactly when one of the two names is [null] or
    is not the short name of a building, whatever the other name is;
    for two short names of buildings it returns. *)
Theorem findShortestPath_InvalidArgument bs ps (cm : Map)
    (a b : option string) :
  reachable (Q:=Q) bs ps cm →
  (outcome (CampusMap.findShortestPath (Q:=Q) a b) cm
     = Throw InvalidArgument
   ↔ ¬ registered cm a ∨ ¬ registered cm b) ∧
  (registered cm a → registered cm b →
   ∃ v, outcome (CampusMap.findShortestPath (Q:=Q) a b) cm = Return v).
Proof.
  intros Hcm. pose proof (reachable_mapOK _ _ _ Hcm) as [(_ & Hsz & _) _].
  unfold outcome. rewrite findShortestPath_run, Hsz.
  destruct a as [sa|];
    [|split; [split; eauto using registered_None|
              by intros ?%registered_None]].
  destruct b as [sb|];
    [|split; [split; eauto using registered_None|
              by intros _ ?%registered_None]].
  rewrite !registered_Some. simpl.
  destruct (CampusMap.shortNameToPoint cm !! sa) as [pa|] eqn:Hsa.
  2: { split; [split; [left; by intros []|done]|by intros []]. }
  destruct (CampusMap.shortNameToPoint cm !! sb) as [pb|] eqn:Hsb.
  2: { split; [split; [right; by intros []|done]|by intros _ []]. }
  assert (is_Some (Some pa)) as Hpa by done.
  assert (is_Some (Some pb)) as Hpb by done.
  destruct (CampusMap.shortestPathMap cm !! (sa, sb)) as [v|]; simpl.
  { split; [|by exists v]. split; [done|]. by intros [[]|[]]. }
  destruct (solver_on_registered bs ps cm sa sb pa pb) as [v ->];
    [done..|]. simpl.
  split; [|by exists v]. split; [done|]. by intros [[]|[]].
Qed.

(** C4. In every state of a [CampusMap] object and for two short
    names [A] and [B] of buildings, a call [findShortestPath(A, B)]
    returns a value, which the cache then holds for the pair [(A, B)];
    a second call returns the same value and changes nothing, the
    count of solver calls included, also when the value is [null].
    The entry of the pair [(B, A)] is not touched, and a call for
    [(B, A)] that finds no entry of its own invokes the solver. *)
Theorem findShortestPath_cached bs ps (cm : Map) (sa sb : string) :
  reachable (Q:=Q) bs ps cm →
  registered cm (Some sa) → registered cm (Some sb) →
  let call := CampusMap.findShortestPath (Q:=Q) (Some sa) (Some sb) in
  let cm1 := state_after call cm in
  ∃ v,
    outcome call cm = Return v ∧
    call cm1 = (Return v, cm1) ∧
    CampusMap.shortestPathMap cm1 !! (sa, sb) = Some v ∧
    (sa ≠ sb →
     CampusMap.shortestPathMap cm1 !! (sb, sa)
     = CampusMap.shortestPathMap cm !! (sb, sa)) ∧
    (CampusMap.shortestPathMap cm1 !! (sb, sa) = None →
     CampusMap.solverCalls
       (state_after
          (CampusMap.findShortestPath (Q:=Q) (Some sb) (Some sa)) cm1)
     = S (CampusMap.solverCalls cm1)).
Proof.
  intros Hcm [pa Hsa]%registered_Some [pb Hsb]%registered_Some call cm1.
  assert (reachable (Q:=Q) bs ps cm1) as Hcm1 by by constructor.
  pose proof (reachable_mapOK _ _ _ Hcm) as [(_ & Hsz & _) _].
  pose proof (reachable_mapOK _ _ _ Hcm1) as [(_ & Hsz1 & _) _].
  assert (∃ v, call cm = (Return v, cm1) ∧
               CampusMap.shortestPathMap cm1 !! (sa, sb) = Some v ∧
               CampusMap.shortNameToPoint cm1 = CampusMap.shortNameToPoint cm ∧
               CampusMap.graph cm1 = CampusMap.graph cm ∧
               (sa ≠ sb →
                CampusMap.shortestPathMap cm1 !! (sb, sa)
                = CampusMap.shortestPathMap cm !! (sb, sa)))
    as (v & Hcall & Hcache & Hnames & Hgraph & Hother).
  { subst cm1. unfold state_after. subst call.
    rewrite findShortestPath_run, Hsz, Hsa, Hsb. simpl.
    destruct (CampusMap.shortestPathMap cm !! (sa, sb)) as [v|] eqn:Hc.
    { by exists v. }
    destruct (solver_on_registered bs ps cm sa sb pa pb) as [v ->];
      [done..|].
    exists v. simpl. split_and!; try done.
    - apply lookup_insert_eq.
    - intros Hne. rewrite lookup_insert_ne; [done|]. by intros [= -> _]. }
  exists v. unfold outcome. rewrite Hcall. split_and!; try done.
  - subst call. rewrite findShortestPath_run, Hsz1, Hnames, Hsa, Hsb.
    simpl. by rewrite Hcache.
  - intros Hnone. unfold state_after.
    rewrite findShortestPath_run, Hsz1, Hnames, Hsa, Hsb. simpl.
    rewrite Hnone.
    by destruct (ShortestPathFinder.shortestPathSolver _ pb pa).
Qed.

Lemma nameIndex_index (bs : list (CampusMap.CampusBuilding D)) :
  nameIndex bs = index CampusMap.getShortName pointOf ∅ bs.
Proof. done. Qed.

Lemma pointIndex_index (bs : list (CampusMap.CampusBuilding D)) :
  pointIndex bs = index pointOf id ∅ bs.
Proof. done. Qed.

(** When the short names of the building records are pairwise
    different and [checkRep] passes, so are their points. *)
Lemma points_NoDup (bs : list (CampusMap.CampusBuilding D)) :
  NoDup (CampusMap.getShortName <$> bs) →
  size (nameIndex bs) = size (pointIndex bs) →
  NoDup (pointOf <$> bs).
Proof.
  intros Hnames Hsize. apply size_list_to_set_NoDup.
  rewrite <- !size_dom in Hsize.
  rewrite nameIndex_index, pointIndex_index, !index_dom in Hsize.
  rewrite !dom_empty_L, !union_empty_r_L in Hsize.
  rewrite <- Hsize, size_list_to_set by done.
  by rewrite !length_fmap.
Qed.

(** C8. In every state of a [CampusMap] object, [longNameForShort]
    of a name that is not the short name of a building fails with
    [InvalidArgument], the failure of [findShortestPath]; the short
    names of buildings are those of the building records; and when
    the short names of the records are pairwise different,
    [longNameForShort] of the short name of a record returns the long
    name of that record.  The object is not changed. *)
Theorem longNameForShort_spec bs ps (cm : Map) :
  reachable (Q:=Q) bs ps cm →
  (∀ name, ¬ registered cm name →
     CampusMap.longNameForShort name cm = (Throw InvalidArgument, cm)) ∧
  (∀ s, registered cm (Some s) ↔ s ∈ CampusMap.getShortName <$> bs) ∧
  (NoDup (CampusMap.getShortName <$> bs) →
   ∀ b, b ∈ bs →
     CampusMap.longNameForShort (Some (CampusMap.getShortName b)) cm
     = (Return (CampusMap.getLongName b), cm)).
Proof.
  intros Hcm.
  pose proof (reachable_mapOK _ _ _ Hcm) as [(_ & Hsz & _) [Hn Hp]].
  split_and!.
  - intros name Hname. rewrite longNameForShort_run, Hsz.
    destruct name as [s|]; simpl; [|done].
    destruct (CampusMap.shortNameToPoint cm !! s) as [p|] eqn:Hs; [|done].
    destruct Hname. apply registered_Some. by rewrite Hs.
  - intros s. rewrite registered_Some, <- elem_of_dom, Hn.
    rewrite nameIndex_index, index_dom, dom_empty_L, union_empty_r_L.
    apply elem_of_list_to_set.
  - intros Hnames b Hb. rewrite longNameForShort_run, Hsz. simpl.
    rewrite Hn, nameIndex_index.
    rewrite (index_lookup_NoDup CampusMap.getShortName pointOf) by done.
    rewrite Hp, pointIndex_index.
    rewrite (index_lookup_NoDup pointOf id); [done| |done].
    apply points_NoDup; [done|].
    unfold sizesAgree in Hsz. rewrite Hn, Hp in Hsz.
    by apply bool_decide_eq_true in Hsz.
Qed.
End CampusMap_facts.

(** * Further properties

    What the code does beyond the statements above: the remaining
    methods of the classes, how the operations compose, and the
    callers of the engine. *)

(** ** LabeledEdge *)

Section LabeledEdge_constructor_facts.
Context {jvm : JVM} {E T : Type}.

(** X1. [new LabeledEdge<>(from, to, label)] returns the edge of the
    three references when none of them is [null]; when one is, it
    fails, with an [AssertionError] when assertions are enabled and
    with the [RuntimeException] of [checkRep] when they are not. *)
Theorem LabeledEdge_new_spec (from to : option E) (label : option T) :
  LabeledEdge.new from to label =
  match from, to, label with
  | Some f, Some t', Some l => Return (LabeledEdge.mk f t' l)
  | _, _, _ =>
    Throw (if assertionsEnabled then AssertionError else RuntimeException)
  end.
Proof.
  unfold LabeledEdge.new, LabeledEdge.checkRep.
  by destruct from, to, label, assertionsEnabled.
Qed.
End LabeledEdge_constructor_facts.

Section LabeledEdge_comparison_facts.
Context `{EqDecision E, EqDecision T}.
Context {hashE : HashCode E} {hashT : HashCode T} {cmpT : Comparable T}.

Lemma int32_range (z : Z) : (- 2 ^ 31 ≤ int32 z < 2 ^ 31)%Z.
Proof.
  unfold int32.
  pose proof (Z.mod_pos_bound (z + 2 ^ 31) (2 ^ 32) ltac:(lia)). lia.
Qed.

Lemma int32_id (z : Z) : (- 2 ^ 31 ≤ z < 2 ^ 31)%Z → int32 z = z.
Proof. intros Hz. unfold int32. rewrite Z.mod_small; lia. Qed.

Lemma equals_Some (a b : LabeledEdge.t E T) :
  LabeledEdge.equals a (Some b) = true ↔ a = b.
Proof.
  unfold LabeledEdge.equals, LabeledEdge.from, LabeledEdge.to.
  rewrite !andb_true_iff, !bool_decide_eq_true.
  destruct a, b; simpl. naive_solver.
Qed.

(** X2. [equals] of two edges holds exactly when they have the same
    [from], [to] and label, and never for [null]; edges that are
    [equals] have the same [hashCode]; the [hashCode] is a Java [int];
    and an edge and the edge in the opposite direction with the same
    label have the same [hashCode]. *)
Theorem LabeledEdge_equals_hashCode (a b : LabeledEdge.t E T) :
  (LabeledEdge.equals a (Some b) = true ↔ a = b) ∧
  LabeledEdge.equals a None = false ∧
  (LabeledEdge.equals a (Some b) = true → hashCode a = hashCode b) ∧
  (- 2 ^ 31 ≤ hashCode a < 2 ^ 31)%Z ∧
  hashCode (LabeledEdge.mk (LabeledEdge.nodeTo a) (LabeledEdge.nodeFrom a)
                           (LabeledEdge.label a))
  = hashCode a.
Proof.
  split_and!.
  - apply equals_Some.
  - done.
  - by intros ->%equals_Some.
  - apply int32_range.
  - apply int32_range.
  - unfold hashCode, LabeledEdge.hashCode. simpl.
    by rewrite Z.lxor_comm.
Qed.

(** X3. When the [compareTo] of the labels gives [0] for a label and
    itself, [compareTo] of two edges does not look at their [from]
    nodes: for edges to the same node it is the [compareTo] of the
    labels, otherwise [Integer.compare] of the hash codes of the [to]
    nodes.  So it is [0] for two edges that differ only in their
    [from] node, which are not [equals].  [compareTo(null)] is a
    [NullPointerException]. *)
Theorem LabeledEdge_compareTo_ignores_from (a b : LabeledEdge.t E T) :
  (∀ l : T, compareTo l l = 0%Z) →
  LabeledEdge.compareTo a None = Throw NullPointerException ∧
  LabeledEdge.compareTo a (Some b)
  = Return (if bool_decide (LabeledEdge.to a = LabeledEdge.to b)
            then compareTo (LabeledEdge.label a) (LabeledEdge.label b)
            else Integer_compare (hashCode (LabeledEdge.to a))
                                 (hashCode (LabeledEdge.to b))) ∧
  (LabeledEdge.to a = LabeledEdge.to b →
   LabeledEdge.label a = LabeledEdge.label b →
   LabeledEdge.compareTo a (Some b) = Return 0%Z).
Proof.
  intros Hrefl.
  assert (LabeledEdge.compareTo a (Some b)
  = Return (if bool_decide (LabeledEdge.to a = LabeledEdge.to b)
            then compareTo (LabeledEdge.label a) (LabeledEdge.label b)
            else Integer_compare (hashCode (LabeledEdge.to a))
                                 (hashCode (LabeledEdge.to b)))) as Hcmp.
  { unfold LabeledEdge.compareTo.
    destruct (LabeledEdge.equals a (Some b)) eqn:Heq; [|done].
    apply equals_Some in Heq as ->.
    by rewrite bool_decide_true, Hrefl. }
  split_and!; [done|done|].
  intros Hto Hlabel. by rewrite Hcmp, bool_decide_true, Hlabel, Hrefl.
Qed.
End LabeledEdge_comparison_facts.

(** ** LabeledGraph *)

Section LabeledGraph_operations.
Context {jvm : JVM} `{Countable E, Countable T}.

Abbreviation Edge := (LabeledEdge.t E T).
Abbreviation Graph := (LabeledGraph.t E T).

Lemma LabeledEdge_new_run (from to : option E) (label : option T) :
  LabeledEdge.new from to label =
  match from, to, label with
  | Some f, Some t', Some l => Return (LabeledEdge.mk f t' l)
  | _, _, _ =>
    Throw (if assertionsEnabled then AssertionError else RuntimeException)
  end.
Proof.
  unfold LabeledEdge.new, LabeledEdge.checkRep.
  by destruct from, to, label, assertionsEnabled.
Qed.

Lemma edgesOut_lookup (g : Graph) k edges :
  LabeledGraph.neighbors g !! k = Some edges → edgesOut g k = edges.
Proof. intros Hk. unfold edgesOut. by rewrite Hk. Qed.

Lemma edgesOut_absent (g : Graph) k :
  LabeledGraph.neighbors g !! k = None → edgesOut g k = ∅.
Proof. intros Hk. unfold edgesOut. by rewrite Hk. Qed.

Lemma edgesOut_insert (g : Graph) ns k k' edges :
  edgesOut (LabeledGraph.mk ns (<[k := edges]> (LabeledGraph.neighbors g))) k'
  = if decide (k = k') then edges else edgesOut g k'.
Proof.
  unfold edgesOut. simpl. destruct (decide (k = k')) as [->|Hk].
  - by rewrite lookup_insert_eq.
  - by rewrite lookup_insert_ne.
Qed.

Lemma addNode_nodes_eq (g : Graph) (add : E) :
  LabeledGraph.nodes (state_after (LabeledGraph.addNode (Some add)) g)
  = {[Some add]} ∪ LabeledGraph.nodes g.
Proof.
  unfold state_after. rewrite addNode_run, andb_false_r.
  case_bool_decide; simpl; set_solver.
Qed.

(** In a graph whose node set is the key set of the adjacency map,
    [addNode] touches no edge. *)
Lemma addNode_edges (g : Graph) (add : E) k e :
  repOK g →
  hasEdge (state_after (LabeledGraph.addNode (Some add)) g) k e
  ↔ hasEdge g k e.
Proof.
  intros (Hn & _ & _). unfold state_after.
  rewrite addNode_run, andb_false_r.
  case_bool_decide as Hin; simpl; [done|].
  unfold hasEdge. rewrite edgesOut_insert.
  destruct (decide (Some add = k)) as [<-|]; [|done].
  rewrite edgesOut_absent; [done|]. apply not_elem_of_dom. by rewrite <- Hn.
Qed.

Lemma addEdge_edges (g : Graph) (from to : E) (label : T) k e :
  LabeledGraph.containsKey g (Some from) = true →
  LabeledGraph.containsKey g (Some to) = true →
  hasEdge (state_after
             (LabeledGraph.addEdge (Some from) (Some to) (Some label)) g) k e
  ↔ hasEdge g k e ∨ (k = Some from ∧ e = LabeledEdge.mk from to label).
Proof.
  intros Hf Ht. unfold state_after. rewrite addEdge_run, Hf, Ht. simpl.
  unfold hasEdge. rewrite edgesOut_insert.
  destruct (decide (Some from = k)) as [<-|Hk].
  - rewrite elem_of_union, elem_of_singleton. naive_solver.
  - naive_solver.
Qed.

Lemma addEdge_nodes (g : Graph) from to label :
  LabeledGraph.nodes (state_after (LabeledGraph.addEdge from to label) g)
  = LabeledGraph.nodes g.
Proof.
  destruct from as [from|], to as [to|], label as [label|].
  all: try (edestruct (addEdge_null g) as [e He];
         [|unfold state_after; by rewrite He]; naive_solver).
  unfold state_after. rewrite addEdge_run. by destruct (_ && _).
Qed.

(** X4. In a graph that satisfies its invariant, [addNode(add)]
    returns [true] exactly when [add] was not a node; afterwards the
    nodes are those before together with [add], every edge is still
    there and no edge is new, and a second [addNode(add)] returns
    [false] and changes nothing. *)
Theorem addNode_spec (g : Graph) (add : E) :
  repOK g →
  let call := LabeledGraph.addNode (Some add) in
  let g' := state_after call g in
  outcome call g = Return (negb (LabeledGraph.containsKey g (Some add))) ∧
  LabeledGraph.nodes g' = {[Some add]} ∪ LabeledGraph.nodes g ∧
  (∀ k e, hasEdge g' k e ↔ hasEdge g k e) ∧
  call g' = (Return false, g').
Proof.
  intros Hg call g'. subst call g'. split_and!.
  - destruct Hg as (Hn & _ & _). unfold outcome.
    rewrite addNode_run, andb_false_r.
    unfold LabeledGraph.containsKey.
    rewrite (bool_decide_ext (Some add ∈ LabeledGraph.nodes g)
               (is_Some (LabeledGraph.neighbors g !! Some add)))
      by by rewrite Hn, elem_of_dom.
    by destruct (bool_decide _).
  - apply addNode_nodes_eq.
  - intros k e. by apply addNode_edges.
  - pose proof (addNode_nodes_eq g add) as Hnodes.
    rewrite addNode_run, andb_false_r, bool_decide_true; [done|].
    rewrite Hnodes. set_solver.
Qed.

(** X5. [removeEdge(from, to, label)] never changes the node set.
    When one of the two end points is not a node it fails with
    [InvalidArgument] and leaves the graph as it was.  When both are,
    it returns the edge if it was stored and [null] if not, and
    afterwards the stored edges are those stored before without the
    edge [(from, to, label)] under [from]. *)
Theorem removeEdge_spec (g : Graph) (from to : E) (label : T) :
  let edge := LabeledEdge.mk from to label in
  let call := LabeledGraph.removeEdge (Some from) (Some to) (Some label) in
  let g' := state_after call g in
  LabeledGraph.nodes g' = LabeledGraph.nodes g ∧
  dom (LabeledGraph.neighbors g') = dom (LabeledGraph.neighbors g) ∧
  if LabeledGraph.containsKey g (Some from)
     && LabeledGraph.containsKey g (Some to)
  then
    outcome call g
      = Return (if bool_decide (edge ∈ edgesOut g (Some from))
                then Some edge else None) ∧
    (∀ k e, hasEdge g' k e ↔ hasEdge g k e ∧ ¬ (k = Some from ∧ e = edge))
  else
    outcome call g = Throw InvalidArgument ∧ g' = g.
Proof.
  intros edge call g'. subst call g'. unfold outcome, state_after.
  rewrite removeEdge_run.
  destruct (LabeledGraph.containsKey g (Some from)) eqn:Hf; simpl; [|done].
  destruct (LabeledGraph.containsKey g (Some to)) eqn:Ht; simpl; [|done].
  apply containsKey_true in Hf. fold edge.
  destruct (bool_decide (edge ∈ edgesOut g (Some from))) eqn:Hin; simpl.
  - split_and!; [done| |done|].
    + rewrite dom_insert_L. apply subseteq_union_1_L.
      by apply singleton_subseteq_l.
    + intros k e. unfold hasEdge. rewrite edgesOut_insert.
      destruct (decide (Some from = k)) as [<-|Hk].
      * rewrite elem_of_difference, elem_of_singleton. naive_solver.
      * naive_solver.
  - apply bool_decide_eq_false in Hin. split_and!; [done..|].
    intros k e. unfold hasEdge. naive_solver.
Qed.

Lemma containsKey_insert (g : Graph) ns k k' edges :
  LabeledGraph.containsKey g k' = true →
  LabeledGraph.containsKey
    (LabeledGraph.mk ns (<[k := edges]> (LabeledGraph.neighbors g))) k' = true.
Proof.
  rewrite !containsKey_true. simpl. rewrite dom_insert_L. set_solver.
Qed.

(** X6. For two nodes of the graph, [addEdge] and [removeEdge] of the
    same edge undo each other: adding an edge that was not stored and
    removing it again returns the edge and gives back the graph, and
    removing a stored edge and adding it again returns [true] and
    gives back the graph. *)
Theorem addEdge_removeEdge_inverse (g : Graph) (from to : E) (label : T) :
  LabeledGraph.containsKey g (Some from) = true →
  LabeledGraph.containsKey g (Some to) = true →
  let edge := LabeledEdge.mk from to label in
  let add := LabeledGraph.addEdge (Some from) (Some to) (Some label) in
  let remove := LabeledGraph.removeEdge (Some from) (Some to) (Some label) in
  (¬ hasEdge g (Some from) edge →
   (add;; remove) g = (Return (Some edge), g)) ∧
  (hasEdge g (Some from) edge →
   (remove;; add) g = (Return true, g)).
Proof.
  intros Hf Ht edge add remove. subst add remove.
  pose proof Hf as [edges Hedges]%containsKey_true%elem_of_dom.
  pose proof (edgesOut_lookup g _ _ Hedges) as Hout.
  unfold hasEdge. rewrite Hout.
  split; intros Hedge; unfold mbind, M_bind.
  - rewrite addEdge_run, Hf, Ht. simpl.
    rewrite removeEdge_run, !containsKey_insert by done. simpl.
    rewrite edgesOut_insert, decide_True by done. fold edge.
    rewrite bool_decide_true by set_solver.
    f_equal. destruct g as [ns nb]; simpl in *. f_equal.
    rewrite insert_insert_eq, Hout.
    replace (({[edge]} ∪ edges) ∖ {[edge]}) with edges by set_solver.
    by apply insert_id.
  - rewrite removeEdge_run, Hf, Ht. simpl. fold edge.
    rewrite Hout, bool_decide_true by done.
    rewrite addEdge_run, !containsKey_insert by done. simpl.
    rewrite edgesOut_insert, decide_True by done. fold edge.
    rewrite bool_decide_false by set_solver. simpl.
    f_equal. destruct g as [ns nb]; simpl in *. f_equal.
    rewrite insert_insert_eq.
    replace ({[edge]} ∪ edges ∖ {[edge]}) with edges; [by apply insert_id|].
    apply set_eq. intros e. rewrite elem_of_union, elem_of_difference,
      elem_of_singleton.
    destruct (decide (e = edge)); naive_solver.
Qed.

Lemma size_filter_add (P : Edge → Prop) `{!∀ e, Decision (P e)}
    (e : Edge) (X : gset Edge) :
  size (filter P ({[e]} ∪ X))
  = if bool_decide (P e ∧ e ∉ X) then S (size (filter P X))
    else size (filter P X).
Proof.
  case_bool_decide as Hcase.
  - destruct Hcase as [HP He].
    replace (filter P ({[e]} ∪ X)) with ({[e]} ∪ filter P X).
    + rewrite size_union, size_singleton; [done|]. set_solver.
    + apply set_eq. intros x. set_solver.
  - f_equal. apply set_eq. intros x.
    rewrite !elem_of_filter, elem_of_union, elem_of_singleton.
    split; [|naive_solver]. intros [HP [->|Hx]]; [|done].
    split; [done|]. destruct (decide (e ∈ X)); [done|]. naive_solver.
Qed.

(** X7. For nodes of the graph, [numEdges(n1, n2)] after
    [addEdge(from, to, label)] is one more than before when the edge
    was new and leads from [n1] to [n2], and is what it was before in
    every other case: edges between the same two nodes with different
    labels are counted each. *)
Theorem numEdges_after_addEdge (g : Graph) (from to n1 n2 : E) (label : T) :
  LabeledGraph.containsKey g (Some from) = true →
  LabeledGraph.containsKey g (Some to) = true →
  LabeledGraph.containsKey g (Some n1) = true →
  LabeledGraph.containsKey g (Some n2) = true →
  let edge := LabeledEdge.mk from to label in
  let g' := state_after
              (LabeledGraph.addEdge (Some from) (Some to) (Some label)) g in
  ∃ n, outcome (LabeledGraph.numEdges (Some n1) (Some n2)) g = Return n ∧
       outcome (LabeledGraph.numEdges (Some n1) (Some n2)) g'
       = Return (if bool_decide (n1 = from ∧ n2 = to
                                 ∧ edge ∉ edgesOut g (Some from))
                 then S n else n).
Proof.
  intros Hf Ht H1 H2 edge g'. subst g'. unfold outcome, state_after.
  rewrite addEdge_run, Hf, Ht. simpl. fold edge.
  rewrite !numEdges_present by (done || by apply containsKey_insert).
  eexists. split; [done|]. simpl. f_equal.
  rewrite edgesOut_insert.
  destruct (decide (Some from = Some n1)) as [[= <-]|Hne].
  - rewrite size_filter_add.
    rewrite (bool_decide_ext (LabeledEdge.to edge = n2 ∧ _)
               (from = from ∧ n2 = to ∧ edge ∉ edgesOut g (Some from)));
      [done|]. simpl. naive_solver.
  - rewrite bool_decide_false; [done|]. intros (-> & _). done.
Qed.

(** X8. In a graph that satisfies its invariant, [size()] is the
    number of nodes; after [addNode] of a new node it is one more,
    after [addNode] of a node of the graph it is the same, and
    [addEdge] and [removeEdge] never change it. *)
Theorem size_after_mutators (g : Graph) :
  repOK g →
  outcome LabeledGraph.size_ g = Return (size (LabeledGraph.nodes g)) ∧
  (∀ add : E,
     outcome LabeledGraph.size_
       (state_after (LabeledGraph.addNode (Some add)) g)
     = Return (if bool_decide (Some add ∈ LabeledGraph.nodes g)
               then size (LabeledGraph.nodes g)
               else S (size (LabeledGraph.nodes g)))) ∧
  (∀ from to label,
     outcome LabeledGraph.size_
       (state_after (LabeledGraph.addEdge from to label) g)
     = Return (size (LabeledGraph.nodes g))) ∧
  (∀ from to label,
     outcome LabeledGraph.size_
       (state_after (LabeledGraph.removeEdge from to label) g)
     = Return (size (LabeledGraph.nodes g))).
Proof.
  intros Hg.
  assert (∀ g0 : Graph, repOK g0 →
    outcome LabeledGraph.size_ g0 = Return (size (LabeledGraph.nodes g0)))
    as Hsize.
  { intros g0 (Hn & _). unfold outcome, LabeledGraph.size_,
      LabeledGraph.checkRep, LabeledGraph.DEBUG.
    run. by rewrite Hn, size_dom. }
  split_and!.
  - by apply Hsize.
  - intros add. rewrite Hsize by (apply addNode_repOK; auto).
    f_equal. unfold state_after. rewrite addNode_run, andb_false_r.
    case_bool_decide as Hin; simpl; [done|].
    rewrite size_union, size_singleton; [done|]. set_solver.
  - intros from to label. rewrite Hsize by by apply addEdge_repOK.
    f_equal. f_equal.
    destruct from as [from|], to as [to|], label as [label|];
      try (destruct (addEdge_null g from to label) as [e He];
           [naive_solver|]; unfold state_after; by rewrite He).
    all: try (edestruct (addEdge_null g) as [e He];
           [|unfold state_after; by rewrite He]; naive_solver).
    unfold state_after. rewrite addEdge_run. by destruct (_ && _).
  - intros from to label. rewrite Hsize by by apply removeEdge_repOK.
    f_equal. f_equal.
    destruct from as [from|], to as [to|], label as [label|].
    all: try (edestruct (removeEdge_null g) as [e He];
           [|unfold state_after; by rewrite He]; naive_solver).
    unfold state_after. rewrite removeEdge_run.
    destruct (_ && _); [|done]. cbv zeta. by destruct (bool_decide _).
Qed.

Lemma new_fromOK : fromOK (LabeledGraph.new : Graph).
Proof. intros k e. unfold hasEdge, edgesOut. simpl. set_solver. Qed.

(** X9. [addNode], [addEdge] and [removeEdge] keep every edge stored
    under its [from] node (which holds in the empty graph,
    [new_fromOK]); so every edge that [listEdgesOut(n)] returns has
    [from() = n]. *)
Theorem edges_stored_under_from (g : Graph) :
  fromOK g →
  (∀ add, fromOK (state_after (LabeledGraph.addNode add) g)) ∧
  (∀ from to label,
     fromOK (state_after (LabeledGraph.addEdge from to label) g)) ∧
  (∀ from to label,
     fromOK (state_after (LabeledGraph.removeEdge from to label) g)) ∧
  (∀ n edges,
     outcome (LabeledGraph.listEdgesOut (Some n)) g = Return edges →
     ∀ e, e ∈ edges → LabeledEdge.from e = n).
Proof.
  intros Hg. split_and!.
  - intros add. unfold state_after. rewrite addNode_run.
    destruct (_ && _); [done|]. case_bool_decide; [done|]. simpl.
    intros k e. unfold hasEdge. rewrite edgesOut_insert.
    destruct (decide (add = k)); [set_solver|]. apply Hg.
  - intros from to label.
    destruct from as [from|], to as [to|], label as [label|].
    all: try (edestruct (addEdge_null g) as [e He];
           [|unfold state_after; by rewrite He]; naive_solver).
    unfold state_after. rewrite addEdge_run. destruct (_ && _); [|done].
    simpl. intros k e. unfold hasEdge. rewrite edgesOut_insert.
    destruct (decide (Some from = k)) as [<-|]; [|apply Hg].
    intros [->%elem_of_singleton|He]%elem_of_union; [done|].
    by apply Hg.
  - intros from to label.
    destruct from as [from|], to as [to|], label as [label|].
    all: try (edestruct (removeEdge_null g) as [e He];
           [|unfold state_after; by rewrite He]; naive_solver).
    unfold state_after. rewrite removeEdge_run.
    destruct (_ && _); [|done]. cbv zeta.
    destruct (bool_decide _); [|done].
    simpl. intros k e. unfold hasEdge. rewrite edgesOut_insert.
    destruct (decide (Some from = k)) as [<-|]; [|apply Hg].
    intros [He _]%elem_of_difference. by apply Hg.
  - intros n edges. unfold outcome. rewrite listEdgesOut_run. simpl.
    destruct (LabeledGraph.neighbors g !! Some n) as [edges'|] eqn:Hn;
      [|done].
    intros [= <-] e He.
    assert (Some n = Some (LabeledEdge.from e)) as [= ->]; [|done].
    apply Hg. unfold hasEdge. by rewrite (edgesOut_lookup g _ edges').
Qed.

Lemma children_fold {strE : ToString E} {strT : ToString T}
    (l : list Edge) (acc : gset string) :
  foldl (λ children edgeOut,
           {[toString (LabeledEdge.to edgeOut) +:+ "("
             +:+ toString (LabeledEdge.label edgeOut) +:+ ")"]}
           ∪ children) acc l
  = list_to_set (childText <$> l) ∪ acc.
Proof.
  revert acc. induction l as [|e l IH]; intros acc; simpl.
  - set_solver.
  - rewrite IH. unfold childText at 2. set_solver.
Qed.

(** X10. [listChildren(parentNode)] fails with [InvalidArgument] for
    a node that is not in the graph and leaves the graph as it is;
    for a node of the graph it returns the texts [to(label)] of the
    edges out of the node, each text once, in ascending order of
    [String.compareTo]. *)
Theorem listChildren_spec {strE : ToString E} {strT : ToString T}
    (g : Graph) (parent : E) :
  if LabeledGraph.containsKey g (Some parent) then
    ∃ l, LabeledGraph.listChildren (Some parent) g = (Return l, g) ∧
         (∀ s, s ∈ l ↔ ∃ e, hasEdge g (Some parent) e ∧ s = childText e) ∧
         NoDup l ∧ StronglySorted String.le l
  else
    LabeledGraph.listChildren (Some parent) g
    = (Throw IllegalArgumentException, g).
Proof.
  unfold LabeledGraph.listChildren. unfold mbind, M_bind.
  rewrite listEdgesOut_run.
  destruct (LabeledGraph.containsKey g (Some parent)) eqn:Hp.
  - apply containsKey_true, elem_of_dom in Hp as [edges Hedges].
    rewrite Hedges. run. eexists. split; [done|].
    rewrite children_fold.
    split_and!.
    + intros s. rewrite merge_sort_Permutation, elem_of_elements,
        elem_of_union, elem_of_list_to_set, list_elem_of_fmap.
      unfold hasEdge. rewrite (edgesOut_lookup g _ edges) by done.
      setoid_rewrite elem_of_elements. set_solver.
    + rewrite merge_sort_Permutation. apply NoDup_elements.
    + apply (StronglySorted_merge_sort String.le).
  - apply containsKey_false in Hp. by rewrite Hp.
Qed.

(** X11. [null] arguments, in a graph that satisfies its invariant.
    With assertions enabled [contains(null)], [listEdgesOut(null)]
    and [addEdge] or [removeEdge] with a [null] node or label fail
    with an [AssertionError].  With assertions disabled
    [contains(null)] returns [false], [listEdgesOut(null)] and
    [addEdge] or [removeEdge] with a [null] node fail with
    [InvalidArgument], and [addEdge] or [removeEdge] with a [null]
    label fail with [InvalidArgument] when a node is missing and with
    the [RuntimeException] of the edge constructor when both are
    there.  The graph is never changed. *)
Theorem null_arguments (g : Graph) :
  repOK g →
  let failure :=
    if assertionsEnabled then AssertionError else IllegalArgumentException in
  LabeledGraph.contains None g
  = (if assertionsEnabled then Throw AssertionError else Return false, g) ∧
  LabeledGraph.listEdgesOut None g = (Throw failure, g) ∧
  (∀ from to label, from = None ∨ to = None →
     LabeledGraph.addEdge from to label g = (Throw failure, g) ∧
     LabeledGraph.removeEdge from to label g = (Throw failure, g)) ∧
  (∀ from to : E,
     let thrown :=
       if assertionsEnabled then AssertionError
       else if LabeledGraph.containsKey g (Some from)
               && LabeledGraph.containsKey g (Some to)
            then RuntimeException else IllegalArgumentException in
     LabeledGraph.addEdge (Some from) (Some to) None g = (Throw thrown, g) ∧
     LabeledGraph.removeEdge (Some from) (Some to) None g
     = (Throw thrown, g)).
Proof.
  intros (Hn & _ & Hnull) failure. subst failure.
  assert (LabeledGraph.containsKey g None = false) as Hnone.
  { apply containsKey_false, not_elem_of_dom. by rewrite <- Hn. }
  split_and!.
  - unfold LabeledGraph.contains, LabeledGraph.checkRep, LabeledGraph.DEBUG.
    run. destruct assertionsEnabled; simpl; [done|]. by rewrite Hnone.
  - unfold LabeledGraph.listEdgesOut, LabeledGraph.checkRep,
      LabeledGraph.DEBUG.
    run. destruct assertionsEnabled; simpl; [done|]. by rewrite Hnone.
  - intros from to label Hft.
    unfold LabeledGraph.addEdge, LabeledGraph.removeEdge,
      LabeledGraph.checkRep, LabeledGraph.DEBUG.
    run.
    destruct Hft as [Hft|Hft]; subst; destruct assertionsEnabled; simpl;
      rewrite ?andb_false_r; simpl; try done;
      rewrite Hnone; simpl; rewrite ?orb_true_r; done.
  - intros from to.
    unfold LabeledGraph.addEdge, LabeledGraph.removeEdge,
      LabeledGraph.checkRep, LabeledGraph.DEBUG.
    run. rewrite !LabeledEdge_new_run.
    destruct assertionsEnabled; simpl; [done|].
    destruct (LabeledGraph.containsKey g (Some from)) eqn:Hf; simpl; [|done].
    destruct (LabeledGraph.containsKey g (Some to)) eqn:Ht; simpl; [|done].
    apply containsKey_true, elem_of_dom in Hf as [edges ->].
    done.
Qed.

Context {hash : HashCode E}.

#[local] Instance compareHash_is_total
  : Total (LabeledGraph.compareHash (E:=E)).
Proof. intros a b. unfold LabeledGraph.compareHash. lia. Qed.

Lemma listNodes_run (g : Graph) :
  None ∉ LabeledGraph.nodes g →
  ∃ l, LabeledGraph.listNodes g = (Return l, g) ∧
       l ≡ₚ elements (LabeledGraph.nodes g).
Proof.
  intros Hnull.
  destruct (unbox_all_no_null (elements (LabeledGraph.nodes g)))
    as (l0 & Hl0 & Hel); [by rewrite elem_of_elements|].
  unfold LabeledGraph.listNodes, LabeledGraph.checkRep, LabeledGraph.DEBUG.
  run. case_bool_decide as Hlen; simpl.
  - by eexists.
  - rewrite Hl0. eexists. split; [done|].
    by rewrite Hel, merge_sort_Permutation.
Qed.

(** X12. In a graph that satisfies its invariant, [listNodes()],
    [size()] and [contains(n)] agree: [size()] is the length of the
    list that [listNodes()] returns, and [contains(n)] is [true]
    exactly for the nodes in that list. *)
Theorem listNodes_size_contains (g : Graph) :
  repOK g →
  ∃ l, outcome LabeledGraph.listNodes g = Return l ∧
       outcome LabeledGraph.size_ g = Return (length l) ∧
       ∀ n : E, outcome (LabeledGraph.contains (Some n)) g
                = Return (bool_decide (Some n ∈ l)).
Proof.
  intros (Hn & _ & Hnull).
  destruct (listNodes_run g Hnull) as (l & Hl & Hperm).
  exists l. unfold outcome. rewrite Hl. split_and!; [done| |].
  - unfold LabeledGraph.size_, LabeledGraph.checkRep, LabeledGraph.DEBUG.
    run. by rewrite <- size_dom, <- Hn, Hperm.
  - intros n. unfold LabeledGraph.contains, LabeledGraph.checkRep,
      LabeledGraph.DEBUG.
    run. rewrite andb_false_r. unfold LabeledGraph.containsKey. simpl.
    f_equal. apply bool_decide_ext.
    by rewrite Hperm, elem_of_elements, Hn, elem_of_dom.
Qed.
End LabeledGraph_operations.

(** ** ShortestPathFinder *)

Section ShortestPathFinder_results.
Context {jvm : JVM} `{Countable E} `{Countable D} `{!DoubleOps D}.
Context `{!PriorityQueueOps (Path.t E D) Q}.
Context `{!PriorityQueueLaws (Path.t E D) Q}.

Abbreviation WEdge := (LabeledEdge.t E D).
Abbreviation WGraph := (LabeledGraph.t E D).
Abbreviation WPath := (Path.t E D).

(** A property of the loop state that every iteration keeps holds
    when the loop is left. *)
Lemma loop_invariant (P : gset E → Q → Prop)
    (Post : Outcome (option WPath) → Prop) (g : WGraph) (e : E) :
  (∀ F fr r, P F fr →
     ShortestPathFinder.iteration g e F fr = ShortestPathFinder.Exit r →
     Post r) →
  (∀ F fr F' fr', P F fr →
     ShortestPathFinder.iteration g e F fr = ShortestPathFinder.Next F' fr' →
     P F' fr') →
  ∀ fuel F fr r, P F fr →
    ShortestPathFinder.loop fuel g e F fr = Some r → Post r.
Proof.
  intros Hexit Hnext fuel.
  induction fuel as [|fuel IH]; intros F fr r HP; simpl; [done|].
  destruct (ShortestPathFinder.iteration g e F fr) as [r'|F' fr'] eqn:Hit.
  - intros [= <-]. by eapply Hexit.
  - apply IH. by eapply Hnext.
Qed.

Lemma first_poll (s : E) m (fr' : Q) :
  pq_poll ShortestPathFinder.comparator
    (pq_add ShortestPathFinder.comparator (Path.new s) pq_new)
  = Some (m, fr') →
  m = Path.new s.
Proof.
  intros Hp%pq_poll_Some. rewrite pq_items_add, pq_items_new in Hp.
  eapply list_elem_of_singleton. rewrite Hp. apply list_elem_of_here.
Qed.

Lemma shortestPathSolver_same (g : WGraph) (s : E) :
  ShortestPathFinder.shortestPathSolver (Q:=Q) g s s
  = Return (Some (Path.new s)).
Proof.
  pose proof (shortestPathSolver_loop g s s) as Hloop.
  unfold ShortestPathFinder.iterations in Hloop. simpl in Hloop.
  set (fr := pq_add ShortestPathFinder.comparator (Path.new s) pq_new)
    in Hloop.
  destruct (iteration_case g s ∅ fr)
    as [Hempty|m fr' Hp Hend|m fr' Hp Hne Hfin|m fr' Hp Hne
        |m fr' edges Hp Hne ? Hedges]; simpl in Hloop.
  - unfold fr in Hempty.
    pose proof (pq_items_add ShortestPathFinder.comparator (Path.new s)
                  (pq_new (Q:=Q))) as Hperm.
    rewrite Hempty in Hperm. by apply Permutation_nil_cons in Hperm.
  - apply first_poll in Hp as ->. by injection Hloop as <-.
  - set_solver.
  - apply first_poll in Hp as ->. done.
  - apply first_poll in Hp as ->. done.
Qed.

(** X13. [shortestPathSolver(graph, s, s)] returns the path that
    consists of [s] alone, without segments and with cost [0],
    whatever the graph is: also when [s] is not a node of it. *)
Theorem shortestPathSolver_same_node (g : WGraph) (s : E) :
  ShortestPathFinder.shortestPathSolver (Q:=Q) g s s
  = Return (Some (Path.new s)) ∧
  Path.getCost (Path.new (D:=D) s) = dzero ∧
  Path.path (Path.new (D:=D) s) = [].
Proof. split; [apply shortestPathSolver_same|done]. Qed.

Lemma walk_end_node (g : WGraph) s es e :
  repOK g → walk g s es e →
  Some s ∈ LabeledGraph.nodes g → Some e ∈ LabeledGraph.nodes g.
Proof.
  intros Hg. destruct es as [|ed es _] using rev_ind.
  - by intros <-.
  - rewrite walk_snoc. intros (u & _ & Hed & <-) _.
    destruct Hg as [Hn ?]. rewrite Hn.
    apply (repOK_edge_to g (Some u)); [by split|done].
Qed.

Lemma shortestPathSolver_reaches (g : WGraph) (s e : E) :
  solved g s e (λ _ _, True)
    (ShortestPathFinder.shortestPathSolver (Q:=Q) g s e).
Proof.
  eapply (loop_solved g s e (λ _ _, True)); [done..| |].
  - by apply Inv_init.
  - apply shortestPathSolver_loop.
Qed.

(** X14. In a graph that satisfies its invariant, the search from a
    node of the graph for an end node that is not in the graph
    returns [null]; it does not fail, as the search from a start
    node that is not in the graph does. *)
Theorem shortestPathSolver_unknown_end (g : WGraph) (s e : E) :
  repOK g → Some s ∈ LabeledGraph.nodes g → Some e ∉ LabeledGraph.nodes g →
  ShortestPathFinder.shortestPathSolver (Q:=Q) g s e = Return None.
Proof.
  intros Hg Hs He.
  pose proof (shortestPathSolver_reaches g s e) as Hr.
  pose proof (shortestPathSolver_no_throw (Q:=Q) g s e Hg Hs) as Hthrow.
  destruct (ShortestPathFinder.shortestPathSolver g s e) as [[p|]|ex];
    simpl in Hr.
  - destruct Hr as [(es & Hes & _) _]. destruct He.
    by eapply walk_end_node.
  - done.
  - by destruct (Hthrow ex).
Qed.

Lemma default_last_cons {A} (d x : A) (l : list A) :
  default d (last (x :: l)) = default x (last l).
Proof. rewrite last_cons. by destruct (last l). Qed.

Lemma chained_snoc (s : E) (segs : list (Path.Segment E D)) seg :
  chained s (segs ++ [seg]) ↔
  chained s segs ∧ Path.segStart seg = default s (last (Path.segEnd <$> segs)).
Proof.
  revert s. induction segs as [|seg0 segs IH]; intros s.
  - simpl. naive_solver.
  - rewrite fmap_cons, default_last_cons. simpl. rewrite IH. naive_solver.
Qed.

Lemma getEnd_last (p : WPath) :
  Path.getEnd p = default (Path.getStart p) (last (Path.segEnd <$> Path.path p)).
Proof.
  unfold Path.getEnd, Path.getStart. rewrite fmap_last.
  by destruct (last (Path.path p)).
Qed.

Lemma chained_pathOf (s : E) (es : list WEdge) :
  chained s (Path.path (pathOf s es)).
Proof.
  induction es as [|ed es IH] using rev_ind; [done|].
  rewrite pathOf_snoc. simpl. apply chained_snoc. split; [done|]. simpl.
  by rewrite getEnd_last, getStart_pathOf.
Qed.

(** X15. Whatever the weights of the graph are, negative ones
    included, a path that [shortestPathSolver] returns starts at the
    start node and ends at the end node, every segment starts where
    the one before it ends, every segment is an edge of the graph
    with the weight of the edge as its cost, and the cost of the path
    is the sum of the costs of its segments, added from the first
    on. *)
Theorem shortestPathSolver_follows_edges (g : WGraph) (s e : E) (p : WPath) :
  ShortestPathFinder.shortestPathSolver (Q:=Q) g s e = Return (Some p) →
  Path.getStart p = s ∧ Path.getEnd p = e ∧
  chained s (Path.path p) ∧
  Forall (λ seg, ∃ ed, hasEdge g (Some (Path.segStart seg)) ed ∧
                       LabeledEdge.to ed = Path.segEnd seg ∧
                       LabeledEdge.label ed = Path.segCost seg)
         (Path.path p) ∧
  Path.getCost p
  = foldl (λ c seg, dadd c (Path.segCost seg)) dzero (Path.path p).
Proof.
  intros Hp. pose proof (shortestPathSolver_reaches g s e) as Hr.
  rewrite Hp in Hr. destruct Hr as [(es & Hes & ->) _].
  split_and!.
  - apply getStart_pathOf.
  - by eapply getEnd_pathOf.
  - apply chained_pathOf.
  - pose proof (path_pathOf g s es e Hes) as Hall.
    eapply Forall2_Forall_l; [exact Hall|]. apply Forall_forall.
    intros ed _ seg (? & ? & ?). by exists ed.
  - clear Hp Hes. induction es as [|ed es IH] using rev_ind; [done|].
    rewrite pathOf_snoc. simpl. rewrite foldl_snoc. simpl.
    by rewrite <- IH.
Qed.

Lemma list_split_last {A} (x : A) (l : list A) :
  x :: l = removelast (x :: l) ++ [default x (last l)].
Proof.
  revert x. induction l as [|y l IH]; intros x; [done|].
  rewrite default_last_cons.
  change (removelast (x :: y :: l)) with (x :: removelast (y :: l)).
  simpl. f_equal. apply IH.
Qed.

Lemma nodesOf_split (p : WPath) :
  nodesOf p = innerNodes p ++ [Path.getEnd p].
Proof. unfold innerNodes, nodesOf. rewrite getEnd_last. apply list_split_last. Qed.

Lemma nodesOf_extend (p : WPath) n w :
  nodesOf (Path.extend p n w) = nodesOf p ++ [n].
Proof. unfold nodesOf. simpl. by rewrite fmap_app. Qed.

Lemma innerNodes_extend (p : WPath) n w :
  innerNodes (Path.extend p n w) = nodesOf p.
Proof. unfold innerNodes. rewrite nodesOf_extend. apply removelast_last. Qed.

(** A path of the fringe whose end is not finished visits no node
    twice. *)
Lemma SimpleInv_NoDup (e : E) F (fr : Q) q :
  SimpleInv e F fr → q ∈ pq_items fr → Path.getEnd q ∉ F →
  NoDup (nodesOf q) ∧ (∀ x, x ∈ nodesOf q → x ∈ {[Path.getEnd q]} ∪ F).
Proof.
  intros [_ Hfr] Hq Hend. destruct (Hfr q Hq) as [Hnd Hin].
  rewrite nodesOf_split. split.
  - apply NoDup_app. split_and!; [done| |apply NoDup_singleton].
    intros x Hx Hx'%list_elem_of_singleton. subst x. by apply Hend, Hin.
  - intros x [Hx|Hx%list_elem_of_singleton]%elem_of_app; set_solver.
Qed.

Lemma SimpleInv_init (s e : E) :
  SimpleInv e ∅ (pq_add ShortestPathFinder.comparator (Path.new s)
                        (pq_new (Q:=Q))).
Proof.
  split; [set_solver|]. intros q. rewrite pq_items_add, pq_items_new.
  intros ->%list_elem_of_singleton. split; [constructor|].
  intros x Hx. by apply elem_of_nil in Hx.
Qed.

Lemma SimpleInv_Next (g : WGraph) (e : E) F (fr : Q) F' fr' :
  SimpleInv e F fr →
  ShortestPathFinder.iteration g e F fr = ShortestPathFinder.Next F' fr' →
  SimpleInv e F' fr'.
Proof.
  intros HI Hit. pose proof (iteration_case g e F fr) as Hcase.
  rewrite Hit in Hcase. pose proof HI as [He Hfr].
  inversion Hcase as [| |m ? Hpoll Hne Hfin|
                      |m fr0 edges Hpoll Hne Hfin Hedges]; subst.
  - split; [done|]. intros q Hq. apply Hfr.
    rewrite (pq_poll_Some _ _ _ _ Hpoll). by apply list_elem_of_further.
  - pose proof (pq_poll_Some _ _ _ _ Hpoll) as Hperm.
    assert (m ∈ pq_items fr) as Hm.
    { rewrite Hperm. apply list_elem_of_here. }
    split; [set_solver|].
    intros q. rewrite extendAll_items, elem_of_app. intros [Hq|Hq].
    + unfold extensions in Hq.
      apply list_elem_of_fmap in Hq as (ed & -> & _).
      rewrite innerNodes_extend. by apply (SimpleInv_NoDup e F fr).
    + destruct (Hfr q) as [Hnd Hin].
      { rewrite Hperm. by apply list_elem_of_further. }
      split; [done|]. set_solver.
Qed.

(** X17. A path that [shortestPathSolver] returns visits no node
    twice, whatever the graph and its weights are. *)
Theorem shortestPathSolver_simple (g : WGraph) (s e : E) (p : WPath) :
  ShortestPathFinder.shortestPathSolver (Q:=Q) g s e = Return (Some p) →
  NoDup (nodesOf p).
Proof.
  intros Hp. pose proof (shortestPathSolver_loop g s e) as Hloop.
  rewrite Hp in Hloop.
  eapply (loop_invariant (SimpleInv e)
            (λ r, ∀ p, r = Return (Some p) → NoDup (nodesOf p)) g e);
    [| |apply (SimpleInv_init s)|exact Hloop|done].
  - intros F fr r HI Hit.
    pose proof (iteration_case g e F fr) as Hcase. rewrite Hit in Hcase.
    inversion Hcase as [|m fr' Hpoll Hend| | |]; try done.
    intros ? [= <-].
    apply (SimpleInv_NoDup e F fr); [done| |rewrite Hend; apply HI].
    rewrite (pq_poll_Some _ _ _ _ Hpoll). apply list_elem_of_here.
  - intros. by eapply SimpleInv_Next.
Qed.

Context `{!DoubleLaws D}.

(** With non-negative weights, a returned path costs no more than any
    walk from the start node to the end node. *)
Lemma shortestPathSolver_least (g : WGraph) (s e : E) :
  nonNegative g →
  solved g s e (λ a b, dle a b = true)
    (ShortestPathFinder.shortestPathSolver (Q:=Q) g s e).
Proof.
  intros Hnn.
  eapply (loop_solved g s e (λ a b, dle a b = true)).
  - apply dle_refl.
  - apply dle_trans.
  - intros a b w. apply dadd_mono.
  - intros a k ed Hed. apply dadd_nonneg. by eapply Hnn.
  - intros fr fr' m Hpoll q Hq.
    by apply (pq_poll_least _ _ _ _ comparator_total comparator_trans
                            Hpoll).
  - by apply Inv_init.
  - apply shortestPathSolver_loop.
Qed.
End ShortestPathFinder_results.

(** ** CampusMap *)

Section CampusMap_constructor.
Context {jvm : JVM} `{Countable D}.

Abbreviation Map := (CampusMap.t (D:=D)).

(** *** The constructor *)

Lemma addBuilding_run (b : CampusMap.CampusBuilding D) (cm : Map) :
  CampusMap.addBuilding b cm =
  (Return (),
   CampusMap.mk
     (state_after (LabeledGraph.addNode (Some (pointOf b)))
                  (CampusMap.graph cm))
     (<[pointOf b := b]> (CampusMap.pointToBuildings cm))
     (<[CampusMap.getShortName b := pointOf b]>
        (CampusMap.shortNameToPoint cm))
     (CampusMap.shortestPathMap cm) ({[b]} ∪ CampusMap.buildings cm)
     (CampusMap.solverCalls cm)).
Proof.
  unfold CampusMap.addBuilding. fold (pointOf b).
  unfold mbind, M_bind at 1. unfold get.
  unfold mbind, M_bind at 1. unfold put.
  unfold mbind, M_bind at 1. rewrite onGraph_run. simpl.
  unfold state_after. rewrite addNode_run, andb_false_r.
  by case_bool_decide.
Qed.

Lemma onGraph_Return {A B}
    (m : M (LabeledGraph.t (CampusMap.Point D) D) A) (k : A → M Map B)
    (cm : Map) a :
  outcome m (CampusMap.graph cm) = Return a →
  (CampusMap.onGraph m ≫= k) cm
  = k a (withGraph cm (state_after m (CampusMap.graph cm))).
Proof.
  unfold outcome, state_after, withGraph, CampusMap.onGraph.
  unfold mbind, M_bind.
  destruct (m (CampusMap.graph cm)) as [r g]. simpl. by intros ->.
Qed.

Lemma addNode_Return (g : LabeledGraph.t (CampusMap.Point D) D) p :
  outcome (LabeledGraph.addNode (Some p)) g
  = Return (negb (bool_decide (Some p ∈ LabeledGraph.nodes g))).
Proof.
  unfold outcome. rewrite addNode_run, andb_false_r.
  by case_bool_decide.
Qed.

Lemma addPath_run (path : CampusMap.CampusPath D) (cm : Map) :
  repOK (CampusMap.graph cm) →
  CampusMap.addPath path cm
  = (Return (), withGraph cm (graphWith path (CampusMap.graph cm))).
Proof.
  intros Hg. unfold CampusMap.addPath, graphWith.
  fold (startOf path) (endOf path).
  set (p1 := startOf path). set (p2 := endOf path).
  set (g1 := state_after (LabeledGraph.addNode (Some p1))
                         (CampusMap.graph cm)).
  set (g2 := state_after (LabeledGraph.addNode (Some p2)) g1).
  assert (repOK g1) as Hg1 by (apply addNode_repOK; auto).
  assert (repOK g2) as Hg2 by (apply addNode_repOK; auto).
  pose proof (addNode_nodes_eq (CampusMap.graph cm) p1) as Hn1.
  pose proof (addNode_nodes_eq g1 p2) as Hn2. fold g1 in Hn1. fold g2 in Hn2.
  assert (LabeledGraph.containsKey g2 (Some p1) = true) as Hc1.
  { apply containsKey_true. destruct Hg2 as [<- _]. rewrite Hn2, Hn1.
    set_solver. }
  assert (LabeledGraph.containsKey g2 (Some p2) = true) as Hc2.
  { apply containsKey_true. destruct Hg2 as [<- _]. rewrite Hn2.
    set_solver. }
  destruct (addEdge_present g2 p1 p2 (CampusMap.getDistance path) Hc1 Hc2)
    as [[inserted Hret3] _].
  rewrite (onGraph_Return _ _ cm _ (addNode_Return _ p1)). fold g1.
  rewrite (onGraph_Return _ _ (withGraph cm g1) _ (addNode_Return _ p2)).
  simpl. fold g2.
  rewrite (onGraph_Return _ _ (withGraph cm g2) _ Hret3). simpl.
  done.
Qed.

Lemma graphWith_nodes (path : CampusMap.CampusPath D) g :
  LabeledGraph.nodes (graphWith path g)
  = {[Some (startOf path); Some (endOf path)]} ∪ LabeledGraph.nodes g.
Proof.
  unfold graphWith.
  set (g2 := state_after (LabeledGraph.addNode (Some (endOf path))) _).
  rewrite addEdge_nodes. unfold g2. rewrite !addNode_nodes_eq. set_solver.
Qed.

Lemma graphWith_edges (path : CampusMap.CampusPath D) g k e :
  repOK g →
  hasEdge (graphWith path g) k e
  ↔ hasEdge g k e ∨ (k = Some (startOf path) ∧ e = edgeOf path).
Proof.
  intros Hg. unfold graphWith.
  set (g1 := state_after (LabeledGraph.addNode (Some (startOf path))) g).
  set (g2 := state_after (LabeledGraph.addNode (Some (endOf path))) g1).
  assert (repOK g1) as Hg1 by (apply addNode_repOK; auto).
  assert (repOK g2) as Hg2 by (apply addNode_repOK; auto).
  pose proof (addNode_nodes_eq g (startOf path)) as Hn1. fold g1 in Hn1.
  pose proof (addNode_nodes_eq g1 (endOf path)) as Hn2. fold g2 in Hn2.
  rewrite addEdge_edges.
  - unfold g2. rewrite addNode_edges by done.
    unfold g1. by rewrite addNode_edges.
  - apply containsKey_true. destruct Hg2 as [<- _]. rewrite Hn2, Hn1.
    set_solver.
  - apply containsKey_true. destruct Hg2 as [<- _]. rewrite Hn2.
    set_solver.
Qed.

Lemma forEach_indexed {A} (P : list A → Map → Prop)
    (body : A → M Map unit) l0 l cm :
  (∀ l1 x cm, P l1 cm → ∃ cm', body x cm = (Return (), cm') ∧ P (l1 ++ [x]) cm') →
  P l0 cm →
  ∃ cm', CampusMap.forEach l body cm = (Return (), cm') ∧ P (l0 ++ l) cm'.
Proof.
  intros Hbody. revert l0 cm.
  induction l as [|x l IH]; intros l0 cm Hcm; simpl.
  { exists cm. by rewrite app_nil_r. }
  destruct (Hbody l0 x cm Hcm) as (cm1 & Hx & Hcm1).
  unfold mbind, M_bind. rewrite Hx.
  destruct (IH _ _ Hcm1) as (cm' & Hl & Hcm').
  exists cm'. by rewrite <- app_assoc in Hcm'.
Qed.

Lemma addBuilding_built bs (b : CampusMap.CampusBuilding D) (cm : Map) :
  building bs cm ∧ built bs [] cm →
  ∃ cm', CampusMap.addBuilding b cm = (Return (), cm') ∧
         building (bs ++ [b]) cm' ∧ built (bs ++ [b]) [] cm'.
Proof.
  intros [(Hg & Hpts & Hn & Hp & Hcache & Hcalls) (Hnodes & Hedges & Hbs)].
  rewrite addBuilding_run. eexists. split; [done|].
  split; split_and!; simpl; try done.
  - apply addNode_repOK; auto.
  - intros s q. rewrite addNode_nodes_eq, lookup_insert.
    destruct (decide (CampusMap.getShortName b = s)).
    + intros [= <-]. set_solver.
    + intros Hq. apply elem_of_union_r. by eapply Hpts.
  - unfold nameIndex. by rewrite foldl_snoc, Hn.
  - unfold pointIndex. by rewrite foldl_snoc, Hp.
  - rewrite addNode_nodes_eq, Hnodes, fmap_app, list_to_set_app_L. simpl.
    set_solver.
  - intros k e. rewrite addNode_edges by done. apply Hedges.
  - rewrite Hbs, list_to_set_app_L. simpl. set_solver.
Qed.

Lemma graphWith_repOK (path : CampusMap.CampusPath D) g :
  repOK g → repOK (graphWith path g).
Proof.
  intros Hg. unfold graphWith.
  apply addEdge_repOK, addNode_repOK; [auto|].
  apply addNode_repOK; auto.
Qed.

Lemma addPath_built bs ps (path : CampusMap.CampusPath D) (cm : Map) :
  building bs cm ∧ built bs ps cm →
  ∃ cm', CampusMap.addPath path cm = (Return (), cm') ∧
         building bs cm' ∧ built bs (ps ++ [path]) cm'.
Proof.
  intros [(Hg & Hpts & Hn & Hp & Hcache & Hcalls) (Hnodes & Hedges & Hbs)].
  rewrite addPath_run by done. eexists. split; [done|].
  split; split_and!; simpl; try done.
  - by apply graphWith_repOK.
  - intros s q Hq. rewrite graphWith_nodes. apply elem_of_union_r.
    by eapply Hpts.
  - rewrite graphWith_nodes, Hnodes, !fmap_app, !list_to_set_app_L. simpl.
    set_solver.
  - intros k e. rewrite graphWith_edges by done. rewrite Hedges.
    setoid_rewrite elem_of_app. setoid_rewrite list_elem_of_singleton.
    naive_solver.
Qed.

(** The two loops of the constructor throw nothing, and lead to the
    state that [building] and [built] describe. *)
Lemma constructor_loops bs (ps : list (CampusMap.CampusPath D)) :
  ∃ cm : Map,
    (CampusMap.forEach bs CampusMap.addBuilding;;
     CampusMap.forEach ps CampusMap.addPath)
      (CampusMap.mk LabeledGraph.new ∅ ∅ ∅ ∅ 0)
    = (Return (), cm) ∧
    building bs cm ∧ built bs ps cm.
Proof.
  set (this := CampusMap.mk _ _ _ _ _ _).
  assert (building [] this ∧ built [] [] this) as Hthis.
  { split; [split_and!; try done; apply new_repOK|].
    split_and!; simpl; [set_solver| |done].
    intros k e. unfold hasEdge, edgesOut. simpl. set_solver. }
  destruct (forEach_indexed (λ l cm, building l cm ∧ built l [] cm)
              CampusMap.addBuilding [] bs this)
    as (cm1 & Hbs & Hcm1); [intros; by apply addBuilding_built|done|].
  destruct (forEach_indexed (λ l cm, building bs cm ∧ built bs l cm)
              CampusMap.addPath [] ps cm1)
    as (cm2 & Hps & Hcm2); [intros; by apply addPath_built|done|].
  exists cm2. unfold mbind, M_bind. simpl in *. by rewrite Hbs, Hps.
Qed.

Lemma index_keys `{Countable K} {V A : Type} (f : A → K) (h : A → V)
    (m0 : gmap K V) (l : list A) :
  dom (index f h m0 l) = list_to_set (f <$> l) ∪ dom m0.
Proof.
  revert m0. induction l as [|x l IH]; intros m0; simpl.
  { set_solver. }
  unfold index in *. simpl. rewrite IH, dom_insert_L. set_solver.
Qed.

Lemma sizesAgree_building bs (cm : Map) :
  building bs cm →
  sizesAgree cm
  = bool_decide (size (list_to_set (CampusMap.getShortName <$> bs)
                         : gset string)
                 = size (list_to_set (pointOf <$> bs)
                           : gset (CampusMap.Point D))).
Proof.
  intros (_ & _ & Hn & Hp & _). unfold sizesAgree. rewrite Hn, Hp.
  apply bool_decide_ext.
  rewrite <- !size_dom.
  change (nameIndex bs) with (index CampusMap.getShortName pointOf ∅ bs).
  change (pointIndex bs) with (index pointOf id ∅ bs).
  by rewrite !index_keys, !dom_empty_L, !union_empty_r_L.
Qed.

Lemma new_run bs (ps : list (CampusMap.CampusPath D)) :
  ∃ cm : Map,
    building bs cm ∧ built bs ps cm ∧
    CampusMap.new bs ps
    = if sizesAgree cm then Return cm else Throw RuntimeException.
Proof.
  destruct (constructor_loops bs ps) as (cm & Hloops & Hb & Hbuilt).
  exists cm. split_and!; [done..|]. unfold CampusMap.new.
  unfold mbind, M_bind in *.
  destruct (CampusMap.forEach bs CampusMap.addBuilding _) as [[[]|] cm1];
    [|done].
  rewrite Hloops, checkRep_run. by destruct (sizesAgree cm).
Qed.

(** X18. [new CampusMap()] fails with the [RuntimeException] of
    [checkRep] exactly when the building records have more different
    short names than different points or the other way round, and
    returns an object otherwise; its loops throw nothing. *)
Theorem new_outcome bs (ps : list (CampusMap.CampusPath D)) :
  if bool_decide (size (list_to_set (CampusMap.getShortName <$> bs)
                          : gset string)
                  = size (list_to_set (pointOf <$> bs)
                            : gset (CampusMap.Point D)))
  then ∃ cm : Map, CampusMap.new bs ps = Return cm
  else CampusMap.new (jvm:=jvm) bs ps = Throw RuntimeException.
Proof.
  destruct (new_run bs ps) as (cm & Hb & _ & ->).
  rewrite <- (sizesAgree_building bs cm Hb).
  destruct (sizesAgree cm); [by exists cm|done].
Qed.

End CampusMap_constructor.

Section CampusMap_objects.
Context {jvm : JVM} `{Countable D} `{!DoubleOps D}.
Context `{!PriorityQueueOps (Path.t (CampusMap.Point D) D) Q}.
Context `{!PriorityQueueLaws (Path.t (CampusMap.Point D) D) Q}.

Abbreviation Map := (CampusMap.t (D:=D)).
Abbreviation Route := (Path.t (CampusMap.Point D) D).

Lemma findShortestPath_buildings (cm : Map) (a b : option string) :
  CampusMap.buildings (state_after (CampusMap.findShortestPath (Q:=Q) a b) cm)
  = CampusMap.buildings cm.
Proof.
  unfold state_after. rewrite findShortestPath_run.
  destruct a as [sa|], b as [sb|]; simpl; try done.
  destruct (sizesAgree cm); simpl; [|done].
  destruct (CampusMap.shortNameToPoint cm !! sa) as [pa|]; [|done].
  destruct (CampusMap.shortNameToPoint cm !! sb) as [pb|]; [|done].
  destruct (CampusMap.shortestPathMap cm !! (sa, sb)) as [v|]; [done|].
  by destruct (ShortestPathFinder.shortestPathSolver _ pa pb).
Qed.

(** In every state of the object the graph and the set of buildings
    are those the constructor built. *)
Lemma reachable_built bs ps (cm : Map) :
  reachable (Q:=Q) bs ps cm → built bs ps cm.
Proof.
  induction 1 as [cm Hnew|cm name _ IH|cm name _ IH|cm _ IH|cm _ IH
                  |cm a b _ IH].
  - destruct (new_run bs ps) as (cm' & _ & Hbuilt & Hrun).
    rewrite Hrun in Hnew. destruct (sizesAgree cm'); [|done].
    by injection Hnew as <-.
  - by rewrite shortNameExists_state.
  - by rewrite longNameForShort_state.
  - by rewrite buildingNames_state.
  - done.
  - pose proof (findShortestPath_fields cm a b) as (Hgraph & _).
    pose proof (findShortestPath_buildings cm a b) as Hbs.
    simpl in *. unfold built. by rewrite Hgraph, Hbs.
Qed.

(** X19. In every state of a [CampusMap] object the graph is the
    data the constructor read: its nodes are the points of the
    building records and the end points of the path records, [null]
    is not a node, and its edges are those of the path records, one
    from the start to the end of each record and none in the other
    direction unless a record gives it. *)
Theorem graph_of_records bs ps (cm : Map) :
  reachable (Q:=Q) bs ps cm →
  (∀ p, Some p ∈ LabeledGraph.nodes (CampusMap.graph cm)
        ↔ p ∈ pointOf <$> bs ∨ p ∈ startOf <$> ps ∨ p ∈ endOf <$> ps) ∧
  (None ∉ LabeledGraph.nodes (CampusMap.graph cm)) ∧
  (∀ k e, hasEdge (CampusMap.graph cm) k e
          ↔ ∃ path, path ∈ ps ∧ k = Some (startOf path) ∧ e = edgeOf path).
Proof.
  intros Hcm. pose proof (reachable_built _ _ _ Hcm) as (Hnodes & Hedges & _).
  split_and!; [| |done].
  - intros p. rewrite Hnodes, !elem_of_union, !elem_of_list_to_set.
    rewrite !list_fmap_compose, !list_elem_of_fmap.
    setoid_rewrite list_elem_of_fmap. naive_solver.
  - rewrite Hnodes, !not_elem_of_union, !not_elem_of_list_to_set.
    rewrite !list_elem_of_fmap. naive_solver.
Qed.

(** X20. In every state of a [CampusMap] object, [buildingsList()]
    returns the set of the building records the constructor read and
    leaves the object as it is. *)
Theorem buildingsList_spec bs ps (cm : Map) :
  reachable (Q:=Q) bs ps cm →
  CampusMap.buildingsList cm = (Return (list_to_set bs), cm).
Proof.
  intros (_ & _ & Hbs)%reachable_built.
  unfold CampusMap.buildingsList. run. by rewrite Hbs.
Qed.

(** *** buildingNames *)

Lemma index_lookup_elem `{Countable K} {V A : Type} (f : A → K) (h : A → V)
    (m0 : gmap K V) (l : list A) k v :
  index f h m0 l !! k = Some v →
  m0 !! k = Some v ∨ ∃ x, x ∈ l ∧ f x = k ∧ v = h x.
Proof.
  revert m0. induction l as [|x l IH]; intros m0; simpl; [by left|].
  intros [Hm0|(y & Hy & ? & ?)]%IH.
  - destruct (decide (f x = k)) as [<-|Hne].
    + rewrite lookup_insert_eq in Hm0. injection Hm0 as <-.
      right. exists x. split; [apply list_elem_of_here|done].
    + rewrite lookup_insert_ne in Hm0 by done. by left.
  - right. exists y. split; [by apply list_elem_of_further|done].
Qed.

(** In a state of the object, the point of every short name has a
    building. *)
Lemma reachable_longNameOf bs ps (cm : Map) s :
  reachable (Q:=Q) bs ps cm →
  is_Some (CampusMap.shortNameToPoint cm !! s) → is_Some (longNameOf cm s).
Proof.
  intros (_ & Hn & Hp)%reachable_mapOK [p Hs]. unfold longNameOf.
  rewrite Hs. simpl. rewrite Hn in Hs. rewrite Hp.
  apply (index_lookup_elem CampusMap.getShortName pointOf) in Hs
    as [Hs|(b & Hb & _ & ->)]; [done|].
  apply fmap_is_Some, elem_of_dom.
  rewrite pointIndex_index, index_dom, elem_of_union, elem_of_list_to_set.
  left. apply list_elem_of_fmap. by exists b.
Qed.

Lemma longNameForShort_longNameOf (cm : Map) (s : string) :
  sizesAgree cm = true →
  CampusMap.longNameForShort (Some s) cm =
  (match CampusMap.shortNameToPoint cm !! s with
   | None => Throw IllegalArgumentException
   | Some _ =>
     match longNameOf cm s with
     | Some long => Return long
     | None => Throw NullPointerException
     end
   end, cm).
Proof.
  intros Hsz. rewrite longNameForShort_run, Hsz. unfold longNameOf. simpl.
  destruct (CampusMap.shortNameToPoint cm !! s) as [p|]; simpl; [|done].
  by destruct (CampusMap.pointToBuildings cm !! p).
Qed.

(** The loop of [buildingNames] over short names that have a long
    name. *)
Lemma buildingNames_fold (cm : Map) (l : list string)
    (acc : M Map (gmap string string)) m0 :
  sizesAgree cm = true →
  (∀ s, s ∈ l → is_Some (longNameOf cm s)) →
  acc cm = (Return m0, cm) →
  foldl (λ acc s,
           shortToLong ← acc;
           long ← CampusMap.longNameForShort (Some s);
           mret (<[s := long]> shortToLong)) acc l cm
  = (Return (foldl (λ m s, <[s := default "" (longNameOf cm s)]> m) m0 l),
     cm).
Proof.
  intros Hsz. revert acc m0.
  induction l as [|s l IH]; intros acc m0 Hl Hacc; simpl; [done|].
  apply IH; [intros; apply Hl; by apply list_elem_of_further|].
  unfold mbind, M_bind. rewrite Hacc.
  rewrite longNameForShort_longNameOf by done.
  destruct (Hl s) as [long Hlong]; [apply list_elem_of_here|].
  rewrite Hlong. unfold longNameOf in Hlong.
  destruct (CampusMap.shortNameToPoint cm !! s); [done|done].
Qed.

Lemma foldl_insert_lookup {V} (f : string → V) (l : list string)
    (m0 : gmap string V) s :
  foldl (λ m s, <[s := f s]> m) m0 l !! s
  = if decide (s ∈ l) then Some (f s) else m0 !! s.
Proof.
  revert m0. induction l as [|x l IH]; intros m0; simpl; [done|].
  rewrite IH. destruct (decide (s ∈ l)) as [Hl|Hl].
  - rewrite decide_True; [done|]. by apply list_elem_of_further.
  - destruct (decide (x = s)) as [->|Hne].
    + rewrite lookup_insert_eq, decide_True; [done|].
      apply list_elem_of_here.
    + rewrite lookup_insert_ne by done. rewrite decide_False; [done|].
      intros [?|?]%elem_of_cons; done.
Qed.

Lemma buildingNames_run bs ps (cm : Map) :
  reachable (Q:=Q) bs ps cm →
  ∃ m, CampusMap.buildingNames cm = (Return m, cm) ∧
       ∀ s, m !! s = longNameOf cm s.
Proof.
  intros Hcm. pose proof (reachable_mapOK _ _ _ Hcm) as [(_ & Hsz & _) _].
  unfold CampusMap.buildingNames.
  unfold mbind, M_bind at 1. unfold get.
  unfold mbind, M_bind at 1.
  rewrite (buildingNames_fold cm _ _ ∅ Hsz); [| |done].
  2: { intros s Hs%elem_of_elements%elem_of_dom.
       by eapply reachable_longNameOf. }
  unfold mbind, M_bind. rewrite checkRep_run, Hsz.
  eexists. split; [done|]. intros s. rewrite foldl_insert_lookup.
  destruct (decide _) as [Hs%elem_of_elements%elem_of_dom|Hs].
  - destruct (reachable_longNameOf bs ps cm s Hcm Hs) as [long ->]. done.
  - rewrite elem_of_elements, elem_of_dom in Hs.
    rewrite lookup_empty. unfold longNameOf.
    by destruct (CampusMap.shortNameToPoint cm !! s) as [p|];
      [destruct Hs|].
Qed.

(** X21. In every state of a [CampusMap] object, [buildingNames()]
    returns a map and leaves the object as it is.  The keys of the
    map are the short names of the building records, the value of a
    short name is what [longNameForShort] returns for it, and when
    the short names of the records are pairwise different every
    record's short name is mapped to that record's long name. *)
Theorem buildingNames_spec bs ps (cm : Map) :
  reachable (Q:=Q) bs ps cm →
  ∃ m, CampusMap.buildingNames cm = (Return m, cm) ∧
       dom m = list_to_set (CampusMap.getShortName <$> bs) ∧
       (∀ s long, m !! s = Some long
                  ↔ CampusMap.longNameForShort (Some s) cm
                    = (Return long, cm)) ∧
       (NoDup (CampusMap.getShortName <$> bs) →
        ∀ b, b ∈ bs →
             m !! CampusMap.getShortName b = Some (CampusMap.getLongName b)).
Proof.
  intros Hcm. destruct (buildingNames_run bs ps cm Hcm) as (m & Hrun & Hm).
  pose proof (reachable_mapOK _ _ _ Hcm) as [(_ & Hsz & _) [Hn Hp]].
  assert (∀ s long, m !! s = Some long
                    ↔ CampusMap.longNameForShort (Some s) cm
                      = (Return long, cm)) as Hlong.
  { intros s long. rewrite Hm, longNameForShort_longNameOf by done.
    unfold longNameOf.
    destruct (CampusMap.shortNameToPoint cm !! s) as [p|]; simpl;
      [|naive_solver].
    destruct (CampusMap.pointToBuildings cm !! p); simpl; naive_solver. }
  exists m. split_and!; [done| |done|].
  - apply set_eq. intros s.
    rewrite elem_of_dom, Hm, elem_of_list_to_set.
    transitivity (is_Some (CampusMap.shortNameToPoint cm !! s)).
    + split; [|by eapply reachable_longNameOf].
      unfold longNameOf. intros [long Hl].
      by destruct (CampusMap.shortNameToPoint cm !! s).
    + rewrite <- elem_of_dom, Hn, nameIndex_index, index_dom.
      rewrite dom_empty_L, union_empty_r_L. apply elem_of_list_to_set.
  - intros Hnames b Hb. rewrite Hm. unfold longNameOf.
    rewrite Hn, nameIndex_index.
    rewrite (index_lookup_NoDup CampusMap.getShortName pointOf) by done.
    simpl. rewrite Hp, pointIndex_index.
    rewrite (index_lookup_NoDup pointOf id); [done| |done].
    apply points_NoDup; [done|].
    unfold sizesAgree in Hsz. rewrite Hn, Hp in Hsz.
    by apply bool_decide_eq_true in Hsz.
Qed.

(** X22. In every state of a [CampusMap] object no public method
    fails with anything but [InvalidArgument], [checkRep] in
    particular never fails: [shortNameExists] and [buildingNames]
    always return ([shortNameExists(null)] returns [false]), and
    [longNameForShort] and [findShortestPath] fail only with
    [InvalidArgument] and only for a name that is not the short name
    of a building. *)
Theorem CampusMap_throws_only_InvalidArgument bs ps (cm : Map) :
  reachable (Q:=Q) bs ps cm →
  (∀ name, ∃ b, CampusMap.shortNameExists name cm = (Return b, cm) ∧
                (b = true ↔ registered cm name)) ∧
  (∃ names, CampusMap.buildingNames cm = (Return names, cm)) ∧
  (∀ name ex, outcome (CampusMap.longNameForShort name) cm = Throw ex →
              ex = InvalidArgument ∧ ¬ registered cm name) ∧
  (∀ a b ex, outcome (CampusMap.findShortestPath (Q:=Q) a b) cm = Throw ex →
             ex = InvalidArgument ∧ (¬ registered cm a ∨ ¬ registered cm b)).
Proof.
  intros Hcm. pose proof (reachable_mapOK _ _ _ Hcm) as [(_ & Hsz & _) _].
  split_and!.
  - intros name. rewrite shortNameExists_run, Hsz. eexists. split; [done|].
    destruct name as [s|].
    + by rewrite bool_decide_eq_true, registered_Some.
    + split; [done|]. by intros ?%registered_None.
  - destruct (buildingNames_run bs ps cm Hcm) as (m & Hrun & _). by exists m.
  - intros name ex. unfold outcome.
    destruct name as [s|].
    + rewrite longNameForShort_longNameOf by done. rewrite registered_Some.
      destruct (CampusMap.shortNameToPoint cm !! s) as [p|] eqn:Hs; simpl.
      * destruct (reachable_longNameOf bs ps cm s Hcm) as [long ->]; done.
      * intros [= <-]. split; [done|]. by intros [].
    + rewrite longNameForShort_run, Hsz. simpl. intros [= <-].
      split; [done|]. apply registered_None.
  - intros a b ex. unfold outcome. rewrite findShortestPath_run, Hsz.
    destruct a as [sa|]; [|intros [= <-]; split; [done|left];
                           apply registered_None].
    destruct b as [sb|]; [|intros [= <-]; split; [done|right];
                           apply registered_None].
    simpl. rewrite !registered_Some.
    destruct (CampusMap.shortNameToPoint cm !! sa) as [pa|] eqn:Hsa.
    2: { intros [= <-]. split; [done|]. left. by intros []. }
    destruct (CampusMap.shortNameToPoint cm !! sb) as [pb|] eqn:Hsb.
    2: { intros [= <-]. split; [done|]. right. by intros []. }
    destruct (CampusMap.shortestPathMap cm !! (sa, sb)) as [v|]; [done|].
    by destruct (solver_on_registered bs ps cm sa sb pa pb) as [v ->].
Qed.

(** *** Records with the same short name or the same point *)



(** *** The cache *)

Lemma findShortestPath_cacheOK (cm : Map) (a b : option string) :
  cacheOK (Q:=Q) cm →
  cacheOK (Q:=Q) (state_after (CampusMap.findShortestPath (Q:=Q) a b) cm).
Proof.
  intros Hc. unfold state_after. rewrite findShortestPath_run.
  destruct a as [sa|], b as [sb|]; simpl; try done.
  destruct (sizesAgree cm); simpl; [|done].
  destruct (CampusMap.shortNameToPoint cm !! sa) as [pa|] eqn:Hsa; [|done].
  destruct (CampusMap.shortNameToPoint cm !! sb) as [pb|] eqn:Hsb; [|done].
  destruct (CampusMap.shortestPathMap cm !! (sa, sb)) as [v|]; [done|].
  destruct (ShortestPathFinder.shortestPathSolver _ pa pb) as [v|ex] eqn:Hv;
    simpl; [|done].
  intros sa' sb' v'. simpl.
  destruct (decide ((sa, sb) = (sa', sb'))) as [[= <- <-]|Hne].
  - rewrite lookup_insert_eq. intros [= <-]. by exists pa, pb.
  - rewrite lookup_insert_ne by done. apply Hc.
Qed.

Lemma reachable_cacheOK bs ps (cm : Map) :
  reachable (Q:=Q) bs ps cm → cacheOK (Q:=Q) cm.
Proof.
  induction 1 as [cm Hnew|cm name _ IH|cm name _ IH|cm _ IH|cm _ IH
                  |cm a b _ IH].
  - apply new_Return in Hnew as [(_ & _ & _ & _ & Hcache & _) _].
    intros sa sb v. by rewrite Hcache.
  - by rewrite shortNameExists_state.
  - by rewrite longNameForShort_state.
  - by rewrite buildingNames_state.
  - done.
  - by apply findShortestPath_cacheOK.
Qed.

(** Whether it is served from the cache or not, the result of
    [findShortestPath] is what the solver returns on the graph. *)
Lemma findShortestPath_solver bs ps (cm : Map) (sa sb : string) pa pb :
  reachable (Q:=Q) bs ps cm →
  CampusMap.shortNameToPoint cm !! sa = Some pa →
  CampusMap.shortNameToPoint cm !! sb = Some pb →
  outcome (CampusMap.findShortestPath (Q:=Q) (Some sa) (Some sb)) cm
  = ShortestPathFinder.shortestPathSolver (Q:=Q) (CampusMap.graph cm) pa pb.
Proof.
  intros Hcm Hsa Hsb.
  pose proof (reachable_mapOK _ _ _ Hcm) as [(_ & Hsz & _) _].
  pose proof (reachable_cacheOK _ _ _ Hcm) as Hc.
  unfold outcome. rewrite findShortestPath_run, Hsz, Hsa, Hsb. simpl.
  destruct (CampusMap.shortestPathMap cm !! (sa, sb)) as [v|] eqn:Hv.
  - destruct (Hc sa sb v Hv) as (pa' & pb' & Hsa' & Hsb' & Hsolve).
    simpl. congruence.
  - by destruct (ShortestPathFinder.shortestPathSolver _ pa pb).
Qed.

(** X23. In every state of a [CampusMap] object, what
    [findShortestPath] returns for two short names of buildings is
    what [shortestPathSolver] returns on the graph for their points,
    whether the call is served from the cache or not: every entry of
    the cache is the result of the solver. *)
Theorem findShortestPath_is_solver bs ps (cm : Map) (sa sb : string) pa pb :
  reachable (Q:=Q) bs ps cm →
  CampusMap.shortNameToPoint cm !! sa = Some pa →
  CampusMap.shortNameToPoint cm !! sb = Some pb →
  outcome (CampusMap.findShortestPath (Q:=Q) (Some sa) (Some sb)) cm
  = ShortestPathFinder.shortestPathSolver (Q:=Q) (CampusMap.graph cm) pa pb ∧
  (∀ v, CampusMap.shortestPathMap cm !! (sa, sb) = Some v →
        ShortestPathFinder.shortestPathSolver (Q:=Q) (CampusMap.graph cm)
          pa pb = Return v).
Proof.
  intros Hcm Hsa Hsb. split; [by eapply findShortestPath_solver|].
  intros v Hv.
  destruct (reachable_cacheOK _ _ _ Hcm sa sb v Hv)
    as (pa' & pb' & Hsa' & Hsb' & Hsolve).
  congruence.
Qed.

(** X24. In every state of a [CampusMap] object, [findShortestPath]
    from a building to itself returns the path that consists of the
    point of the building alone. *)
Theorem findShortestPath_same_building bs ps (cm : Map) (s : string) p :
  reachable (Q:=Q) bs ps cm →
  CampusMap.shortNameToPoint cm !! s = Some p →
  outcome (CampusMap.findShortestPath (Q:=Q) (Some s) (Some s)) cm
  = Return (Some (Path.new p)).
Proof.
  intros Hcm Hs. rewrite (findShortestPath_solver bs ps cm s s p p) by done.
  apply shortestPathSolver_same.
Qed.

Context `{!DoubleLaws D}.

(** X25. When no path record has a negative distance, then in every
    state of a [CampusMap] object [findShortestPath] of two short
    names of buildings throws nothing; a path it returns leads from
    the point of the first building to the point of the second along
    edges of the graph and costs no more than any walk between the
    two points; and it returns [null] only when no walk leads from
    the one to the other. *)
Theorem findShortestPath_shortest bs ps (cm : Map) (sa sb : string) pa pb :
  reachable (Q:=Q) bs ps cm →
  (∀ path, path ∈ ps → dle dzero (CampusMap.getDistance path) = true) →
  CampusMap.shortNameToPoint cm !! sa = Some pa →
  CampusMap.shortNameToPoint cm !! sb = Some pb →
  match outcome (CampusMap.findShortestPath (Q:=Q) (Some sa) (Some sb)) cm
  with
  | Return (Some p) =>
    Path.getStart p = pa ∧ Path.getEnd p = pb ∧
    (∃ es, walk (CampusMap.graph cm) pa es pb ∧ p = pathOf pa es) ∧
    (∀ es, walk (CampusMap.graph cm) pa es pb →
           dle (Path.getCost p) (walkCost es) = true)
  | Return None => ∀ es, ¬ walk (CampusMap.graph cm) pa es pb
  | Throw _ => False
  end.
Proof.
  intros Hcm Hps Hsa Hsb.
  rewrite (findShortestPath_solver bs ps cm sa sb pa pb) by done.
  assert (nonNegative (CampusMap.graph cm)) as Hnn.
  { intros k ed Hed.
    apply (reachable_built _ _ _ Hcm) in Hed as (path & Hpath & _ & ->).
    by apply Hps. }
  pose proof (shortestPathSolver_least (Q:=Q) (CampusMap.graph cm) pa pb Hnn)
    as Hr.
  destruct (solver_on_registered bs ps cm sa sb pa pb) as [v Hv]; [done..|].
  rewrite Hv in *. destruct v as [p|]; simpl in Hr; [|done].
  destruct Hr as [(es & Hes & ->) Hmin].
  split_and!; [apply getStart_pathOf|by eapply getEnd_pathOf| |done].
  by exists es.
Qed.
End CampusMap_objects.

(** ** SparkServer *)

Section SparkServer_facts.
Context {jvm : JVM} `{Countable D} `{!DoubleOps D}.
Context `{!PriorityQueueOps (Path.t (CampusMap.Point D) D) Q}.
Context `{!PriorityQueueLaws (Path.t (CampusMap.Point D) D) Q}.
Context (minusOne : D).

Abbreviation Map := (CampusMap.t (D:=D)).

Lemma isEmpty_Some {S} (s : string) (st : S) :
  SparkServer.isEmpty (Some s) st = (Return (bool_decide (s = "")), st).
Proof.
  unfold SparkServer.isEmpty. run. f_equal. f_equal.
  apply bool_decide_ext. by destruct s.
Qed.

(** What the handler does for two parameters that are there. *)
Lemma postPath_run (cm : Map) (start end_ : string) :
  sizesAgree cm = true →
  SparkServer.postPath (Q:=Q) minusOne (Some start) (Some end_) cm =
  if bool_decide (start = "") && bool_decide (end_ = "") then
    (Return (SparkServer.mkResponse (Some 418)
               (SparkServer.Text SparkServer.teapot)), cm)
  else if bool_decide (start = "")
          || negb (bool_decide
                     (is_Some (CampusMap.shortNameToPoint cm !! start))) then
    (Return (SparkServer.mkResponse (Some 400)
               (SparkServer.Text "Starting Point is empty")), cm)
  else if bool_decide (end_ = "")
          || negb (bool_decide
                     (is_Some (CampusMap.shortNameToPoint cm !! end_))) then
    (Return (SparkServer.mkResponse (Some 400)
               (SparkServer.Text "Ending Point is empty")), cm)
  else
    match CampusMap.findShortestPath (Q:=Q) (Some start) (Some end_) cm with
    | (Return v, cm') =>
      (Return (SparkServer.mkResponse None
                 (SparkServer.PathResponse (Some start) (Some end_)
                    (default (Path.new (CampusMap.mkPoint minusOne minusOne))
                             v))), cm')
    | (Throw ex, cm') => (Throw ex, cm')
    end.
Proof.
  intros Hsz. unfold SparkServer.postPath.
  unfold mbind, M_bind at 1. rewrite (isEmpty_Some start cm).
  destruct (bool_decide (start = "")) eqn:Hs.
  - unfold mbind, M_bind at 1. rewrite (isEmpty_Some end_ cm).
    destruct (bool_decide (end_ = "")) eqn:He; [done|].
    unfold mbind, M_bind at 1. rewrite (isEmpty_Some start cm), Hs.
    done.
  - unfold mbind, M_bind at 1. unfold mret at 1, M_ret at 1.
    unfold mbind, M_bind at 1. rewrite (isEmpty_Some start cm), Hs.
    unfold mbind, M_bind at 1. unfold mbind, M_bind at 1.
    rewrite shortNameExists_run, Hsz.
    destruct (bool_decide (is_Some (_ !! start))) eqn:Hks; [|done].
    cbn [negb orb andb]. unfold mret at 1, M_ret at 1. cbv beta iota.
    unfold mbind, M_bind at 1. rewrite (isEmpty_Some end_ cm).
    destruct (bool_decide (end_ = "")) eqn:He; [done|].
    unfold mbind, M_bind at 1. unfold mbind, M_bind at 1.
    rewrite shortNameExists_run, Hsz.
    destruct (bool_decide (is_Some (_ !! end_))) eqn:Hke; [|done].
    cbn [negb orb andb]. unfold mret at 1, M_ret at 1. cbv beta iota.
    unfold mbind, M_bind.
    destruct (CampusMap.findShortestPath _ _ cm) as [[[v|]|ex] cm']; done.
Qed.

(** X26. The handler of [POST /path], run in a state of the
    [CampusMap] object with both parameters present, always answers
    and throws nothing.  It answers 418 when both parameters are
    empty; 400 with the text [Starting Point is empty] when the start
    is empty or is not the short name of a building; 400 with the
    text [Ending Point is empty] when, the start being fine, the end
    is empty or unknown; and otherwise, without setting a status, the
    response for what [findShortestPath] returns, with the path of
    the single point [(-1, -1)] in place of [null].  Only in the last
    case can the object change (its cache). *)
Theorem postPath_answers bs ps (cm : Map) (start end_ : string) :
  reachable (Q:=Q) bs ps cm →
  let known := λ s,
    bool_decide (is_Some (CampusMap.shortNameToPoint cm !! s)) in
  let call := CampusMap.findShortestPath (Q:=Q) (Some start) (Some end_) in
  if bool_decide (start = "") && bool_decide (end_ = "") then
    SparkServer.postPath (Q:=Q) minusOne (Some start) (Some end_) cm
    = (Return (SparkServer.mkResponse (Some 418)
                 (SparkServer.Text SparkServer.teapot)), cm)
  else if bool_decide (start = "") || negb (known start) then
    SparkServer.postPath (Q:=Q) minusOne (Some start) (Some end_) cm
    = (Return (SparkServer.mkResponse (Some 400)
                 (SparkServer.Text "Starting Point is empty")), cm)
  else if bool_decide (end_ = "") || negb (known end_) then
    SparkServer.postPath (Q:=Q) minusOne (Some start) (Some end_) cm
    = (Return (SparkServer.mkResponse (Some 400)
                 (SparkServer.Text "Ending Point is empty")), cm)
  else
    ∃ v, outcome call cm = Return v ∧
         SparkServer.postPath (Q:=Q) minusOne (Some start) (Some end_) cm
         = (Return (SparkServer.mkResponse None
                      (SparkServer.PathResponse (Some start) (Some end_)
                         (default
                            (Path.new (CampusMap.mkPoint minusOne minusOne))
                            v))),
            state_after call cm).
Proof.
  intros Hcm known call.
  pose proof (reachable_mapOK _ _ _ Hcm) as [(_ & Hsz & _) _].
  rewrite (postPath_run cm start end_ Hsz). fold (known start) (known end_).
  destruct (bool_decide (start = "") && bool_decide (end_ = "")); [done|].
  destruct (bool_decide (start = "") || negb (known start)) eqn:Hs; [done|].
  destruct (bool_decide (end_ = "") || negb (known end_)) eqn:He; [done|].
  apply orb_false_iff in Hs as [_ Hs], He as [_ He].
  apply negb_false_iff, bool_decide_eq_true in Hs as [pa Hsa].
  apply negb_false_iff, bool_decide_eq_true in He as [pb Hsb].
  destruct (solver_on_registered bs ps cm start end_ pa pb) as [w Hw];
    [done..|].
  subst call. unfold outcome, state_after.
  rewrite findShortestPath_run, Hsz, Hsa, Hsb. simpl.
  destruct (CampusMap.shortestPathMap cm !! (start, end_)) as [v|].
  - by exists v.
  - rewrite Hw. by exists w.
Qed.

(** X27. When the request lacks a parameter, the handler of
    [POST /path] fails with a [NullPointerException] and leaves the
    object as it is, except for a start that is not empty and not the
    short name of a building: that is answered with 400 before the
    end is looked at. *)
Theorem postPath_missing_parameter bs ps (cm : Map)
    (start end_ : option string) :
  reachable (Q:=Q) bs ps cm →
  start = None ∨ end_ = None →
  SparkServer.postPath (Q:=Q) minusOne start end_ cm =
  match start with
  | Some s =>
    if negb (bool_decide (s = ""))
       && negb (bool_decide (is_Some (CampusMap.shortNameToPoint cm !! s)))
    then (Return (SparkServer.mkResponse (Some 400)
                    (SparkServer.Text "Starting Point is empty")), cm)
    else (Throw NullPointerException, cm)
  | None => (Throw NullPointerException, cm)
  end.
Proof.
  intros Hcm Hnull.
  pose proof (reachable_mapOK _ _ _ Hcm) as [(_ & Hsz & _) _].
  unfold SparkServer.postPath.
  destruct start as [s|]; [|done].
  destruct Hnull as [|Hnull]; [done|]. subst end_.
  unfold mbind, M_bind at 1. rewrite (isEmpty_Some s cm).
  destruct (bool_decide (s = "")) eqn:Hs; [done|].
  unfold mbind, M_bind at 1. unfold mret at 1, M_ret at 1.
  unfold mbind, M_bind at 1. rewrite (isEmpty_Some s cm), Hs.
  unfold mbind, M_bind at 1. unfold mbind, M_bind at 1.
  rewrite shortNameExists_run, Hsz.
  by destruct (bool_decide (is_Some _)).
Qed.
End SparkServer_facts.

(** ** PathfinderTestDriver *)

Section PathfinderTestDriver_facts.
Context {jvm : JVM} `{Countable D} `{!DoubleOps D}.
Context `{!PriorityQueueOps (Path.t string D) Q}.
Context `{!PriorityQueueLaws (Path.t string D) Q}.
Context {fmt : Format3 D}.

Abbreviation Driver := (PathfinderTestDriver.t D).

Lemma println_run (x : string) (this : Driver) :
  PathfinderTestDriver.println x this
  = (Return (),
     PathfinderTestDriver.mk (PathfinderTestDriver.graphs this)
       (PathfinderTestDriver.output this
        ++ [x +:+ PathfinderTestDriver.lineSeparator])).
Proof. done. Qed.

(** A call that leaves the graph as it is leaves the driver as it is. *)
Lemma onGraph_unchanged {A} (m : M (LabeledGraph.t string D) A)
    (this : Driver) graphName graph r :
  PathfinderTestDriver.graphs this !! graphName = Some graph →
  m graph = (r, graph) →
  PathfinderTestDriver.onGraph graphName m this = (r, this).
Proof.
  intros Hg Hm. unfold PathfinderTestDriver.onGraph. rewrite Hg, Hm.
  rewrite insert_id by done. by destruct this.
Qed.

Lemma onGraph_missing {A} (m : M (LabeledGraph.t string D) A)
    (this : Driver) graphName :
  PathfinderTestDriver.graphs this !! graphName = None →
  PathfinderTestDriver.onGraph graphName m this
  = (Throw NullPointerException, this).
Proof. intros Hg. unfold PathfinderTestDriver.onGraph. by rewrite Hg. Qed.

Lemma contains_run (g : LabeledGraph.t string D) (n : string) :
  LabeledGraph.contains (Some n) g
  = (Return (LabeledGraph.containsKey g (Some n)), g).
Proof.
  unfold LabeledGraph.contains, LabeledGraph.checkRep, LabeledGraph.DEBUG.
  run. by rewrite andb_false_r.
Qed.

Lemma forEach_println (segs : list (Path.Segment string D)) (this : Driver) :
  PathfinderTestDriver.forEach segs
    (λ seg,
       PathfinderTestDriver.println
         (Path.segStart seg +:+ " to " +:+ Path.segEnd seg
          +:+ " with weight " +:+ format3 (Path.segCost seg))) this
  = (Return (),
     PathfinderTestDriver.mk (PathfinderTestDriver.graphs this)
       (PathfinderTestDriver.output this ++ (segmentLine <$> segs))).
Proof.
  revert this. induction segs as [|seg segs IH]; intros this; simpl.
  - rewrite app_nil_r. by destruct this.
  - unfold mbind, M_bind. rewrite println_run, IH. simpl.
    by rewrite <- app_assoc.
Qed.

Lemma findPath_run (this : Driver) (graphName nodeA nodeB : string)
    (graph : LabeledGraph.t string D) :
  PathfinderTestDriver.graphs this !! graphName = Some graph →
  repOK graph →
  let known := λ n, bool_decide (Some n ∈ LabeledGraph.nodes graph) in
  ∃ written,
    PathfinderTestDriver.findPath (Q:=Q) graphName nodeA nodeB this
    = (Return (),
       PathfinderTestDriver.mk (PathfinderTestDriver.graphs this)
         (PathfinderTestDriver.output this ++ written)) ∧
    if negb (known nodeA) && negb (known nodeB)
    then written = [unknownLine nodeA; unknownLine nodeB]
    else if negb (known nodeA) then written = [unknownLine nodeA]
    else if negb (known nodeB) then written = [unknownLine nodeB]
    else ∃ result,
           ShortestPathFinder.shortestPathSolver (Q:=Q) graph nodeA nodeB
           = Return result ∧
           written = pathLines nodeA nodeB result.
Proof.
  intros Hgraph Hg known.
  assert (∀ n, LabeledGraph.containsKey graph (Some n) = known n) as Hknown.
  { intros n. unfold LabeledGraph.containsKey, known.
    apply bool_decide_ext. destruct Hg as [-> _]. by rewrite elem_of_dom. }
  assert (∀ n, PathfinderTestDriver.onGraph graphName
                 (LabeledGraph.contains (Some n)) this
               = (Return (known n), this)) as Hcontains.
  { intros n. apply (onGraph_unchanged _ this graphName graph); [done|].
    by rewrite contains_run, Hknown. }
  unfold PathfinderTestDriver.findPath.
  unfold mbind, M_bind at 1. rewrite Hcontains.
  destruct (known nodeA) eqn:HA; cbn [negb andb].
  - unfold mbind, M_bind at 1. unfold mret at 1, M_ret at 1. cbv beta iota.
    unfold mbind, M_bind at 1. rewrite Hcontains, HA. cbn [negb].
    unfold mbind, M_bind at 1. rewrite Hcontains.
    destruct (known nodeB) eqn:HB; cbn [negb].
    + pose proof (shortestPathSolver_no_throw (Q:=Q) graph nodeA nodeB Hg)
        as Hthrow.
      unfold mbind, M_bind at 1.
      rewrite (onGraph_unchanged _ this graphName graph
                 (ShortestPathFinder.shortestPathSolver graph nodeA nodeB))
        by done.
      destruct (ShortestPathFinder.shortestPathSolver graph nodeA nodeB)
        as [result|ex] eqn:Hsolve.
      2: { destruct (Hthrow ltac:(by apply bool_decide_eq_true in HA) ex).
           done. }
      unfold mbind, M_bind at 1. rewrite println_run.
      exists (pathLines nodeA nodeB result). split; [|by exists result].
      unfold pathLines. destruct result as [path|].
      * unfold mbind, M_bind. rewrite forEach_println, println_run. simpl.
        f_equal. f_equal. by rewrite <- !app_assoc.
      * rewrite println_run. simpl. f_equal. f_equal.
        by rewrite <- !app_assoc.
    + rewrite println_run. by eexists.
  - unfold mbind, M_bind at 1. unfold mbind, M_bind at 1.
    rewrite Hcontains.
    destruct (known nodeB) eqn:HB; cbn [negb andb];
      unfold mret at 1, M_ret at 1; cbv beta iota.
    + unfold mbind, M_bind at 1. rewrite Hcontains, HA. cbn [negb].
      rewrite println_run. by eexists.
    + unfold mbind, M_bind. rewrite !println_run. simpl.
      eexists. split; [|done]. by rewrite <- app_assoc.
Qed.


Lemma onGraph_graphs {A} (m : M (LabeledGraph.t string D) A)
    (this : Driver) graphName :
  PathfinderTestDriver.graphs
    (state_after (PathfinderTestDriver.onGraph graphName m) this)
  = match PathfinderTestDriver.graphs this !! graphName with
    | Some graph =>
      <[graphName := state_after m graph]> (PathfinderTestDriver.graphs this)
    | None => PathfinderTestDriver.graphs this
    end.
Proof.
  unfold state_after, PathfinderTestDriver.onGraph.
  destruct (PathfinderTestDriver.graphs this !! graphName) as [graph|];
    [|done].
  by destruct (m graph).
Qed.

Lemma then_println_graphs {A} (m : M Driver A) (x : string) (this : Driver) :
  PathfinderTestDriver.graphs
    (state_after (m;; PathfinderTestDriver.println x) this)
  = PathfinderTestDriver.graphs (state_after m this).
Proof.
  unfold state_after, mbind, M_bind.
  by destruct (m this) as [[a|ex] this'].
Qed.

Lemma insert_driverOK (this this' : Driver) graphName graph :
  driverOK this → repOK graph →
  PathfinderTestDriver.graphs this'
  = <[graphName := graph]> (PathfinderTestDriver.graphs this) →
  driverOK this'.
Proof.
  intros Hok Hg Hgraphs name g. rewrite Hgraphs.
  destruct (decide (graphName = name)) as [->|Hne].
  - rewrite lookup_insert_eq. by intros [= <-].
  - rewrite lookup_insert_ne by done. apply Hok.
Qed.

Lemma same_graphs_driverOK (this this' : Driver) :
  driverOK this →
  PathfinderTestDriver.graphs this' = PathfinderTestDriver.graphs this →
  driverOK this'.
Proof. intros Hok Hgraphs name g. rewrite Hgraphs. apply Hok. Qed.

Lemma command_driverOK {A} (m : M (LabeledGraph.t string D) A) (x : string)
    (this : Driver) graphName :
  (∀ graph, repOK graph → repOK (state_after m graph)) →
  driverOK this →
  driverOK (state_after (PathfinderTestDriver.onGraph graphName m;;
                         PathfinderTestDriver.println x) this).
Proof.
  intros Hm Hok.
  pose proof (then_println_graphs (PathfinderTestDriver.onGraph graphName m)
                x this) as Hgraphs.
  rewrite onGraph_graphs in Hgraphs.
  destruct (PathfinderTestDriver.graphs this !! graphName) as [graph|] eqn:Hg.
  - eapply insert_driverOK; [done| |done]. by eapply Hm, Hok.
  - by eapply same_graphs_driverOK.
Qed.

(** X30. The commands of the test driver keep every graph well
    formed: [CreateGraph], [AddNode] and [AddEdge] lead from a state
    in which every graph satisfies its invariant to such a state,
    whether they return or throw.  [FindPath] leaves the graphs as
    they are; in such a state it returns when there is a graph of the
    given name and fails with a [NullPointerException] when there is
    none. *)
Theorem driver_commands_keep_invariant (this : Driver) :
  driverOK this →
  (∀ graphName,
     driverOK (state_after (PathfinderTestDriver.createGraph graphName) this))
  ∧
  (∀ graphName nodeName,
     driverOK (state_after
                 (PathfinderTestDriver.addNode graphName nodeName) this)) ∧
  (∀ graphName parentName childName edgeLabel,
     driverOK (state_after
                 (PathfinderTestDriver.addEdge graphName parentName childName
                    edgeLabel) this)) ∧
  (∀ graphName nodeA nodeB,
     PathfinderTestDriver.graphs
       (state_after
          (PathfinderTestDriver.findPath (Q:=Q) graphName nodeA nodeB) this)
     = PathfinderTestDriver.graphs this ∧
     outcome (PathfinderTestDriver.findPath (Q:=Q) graphName nodeA nodeB) this
     = if bool_decide
            (is_Some (PathfinderTestDriver.graphs this !! graphName))
       then Return () else Throw NullPointerException).
Proof.
  intros Hok. split_and!.
  - intros graphName. unfold state_after, PathfinderTestDriver.createGraph.
    run. eapply insert_driverOK; [done|apply new_repOK|done].
  - intros graphName nodeName. apply command_driverOK; [|done].
    intros graph Hg. apply addNode_repOK; auto.
  - intros graphName parentName childName edgeLabel.
    apply command_driverOK; [|done].
    intros graph Hg. by apply addEdge_repOK.
  - intros graphName nodeA nodeB.
    destruct (PathfinderTestDriver.graphs this !! graphName) as [graph|]
      eqn:Hgraph.
    + destruct (findPath_run this graphName nodeA nodeB graph Hgraph)
        as (written & Hrun & _); [by eapply Hok|].
      unfold state_after, outcome. rewrite Hrun. by split.
    + assert (PathfinderTestDriver.findPath (Q:=Q) graphName nodeA nodeB this
              = (Throw NullPointerException, this)) as Hrun.
      { unfold PathfinderTestDriver.findPath.
        unfold mbind, M_bind at 1.
        by rewrite (onGraph_missing _ this graphName Hgraph). }
      unfold state_after, outcome. rewrite Hrun. by split.
Qed.
End PathfinderTestDriver_facts.

(** * Examples

    The theorems above at concrete graphs and maps, with [Z] for the
    [double]s and a list for the priority queue. *)

Section examples.
#[local] Existing Instance defaultJVM.
Open Scope string_scope.

Lemma nonNegative_check `{Countable E} (g : LabeledGraph.t E Z) :
  map_Forall (λ _ edges,
    set_Forall (λ ed : LabeledEdge.t E Z,
                  dle dzero (LabeledEdge.label ed) = true) edges)
    (LabeledGraph.neighbors g) →
  nonNegative g.
Proof.
  intros Hall k ed. unfold hasEdge, edgesOut.
  destruct (LabeledGraph.neighbors g !! k) as [edges|] eqn:Hk; simpl.
  - intros Hed. by apply (Hall k edges Hk ed).
  - set_solver.
Qed.

Lemma exampleGraph_repOK : repOK exampleGraph.
Proof. apply (bool_decide_unpack _). vm_compute. exact I. Qed.

Lemma exampleGraph_nonNegative : nonNegative exampleGraph.
Proof.
  apply nonNegative_check. apply (bool_decide_unpack _). vm_compute. exact I.
Qed.

Lemma shortestPathSolver_minimal_witness :
  ShortestPathFinder.shortestPathSolver (Q:=list (Path.t string Z))
    exampleGraph "A" "C" = Return (Some examplePath) ∧
  Path.getCost examplePath = 15%Z ∧
  (∀ es, walk exampleGraph "A" es "C" → dle 15%Z (walkCost es) = true).
Proof.
  assert (ShortestPathFinder.shortestPathSolver (Q:=list (Path.t string Z))
            exampleGraph "A" "C" = Return (Some examplePath)) as Hret
    by (vm_compute; reflexivity).
  destruct (shortestPathSolver_minimal exampleGraph "A" "C" examplePath
              exampleGraph_nonNegative Hret) as (_ & _ & _ & Hmin).
  split; [exact Hret|]. split; [reflexivity|exact Hmin].
Defined.

Lemma shortestPathSolver_null_iff_no_path_witness :
  ShortestPathFinder.shortestPathSolver (Q:=list (Path.t string Z))
    exampleGraph "A" "D" = Return None ∧
  ¬ ∃ es, walk exampleGraph "A" es "D".
Proof.
  destruct (shortestPathSolver_null_iff_no_path (Q:=list (Path.t string Z))
              exampleGraph "A" "D" exampleGraph_repOK) as [Hin _].
  destruct Hin as [Hiff _].
  - apply (bool_decide_unpack _). vm_compute. exact I.
  - apply (bool_decide_unpack _). vm_compute. exact I.
  - split; [vm_compute; reflexivity|]. apply Hiff. vm_compute. reflexivity.
Defined.
Lemma addEdge_spec_witness :
  let call := LabeledGraph.addEdge (Some "D") (Some "A") (Some 3%Z) in
  let g' := state_after call exampleGraph in
  Some "D" ∈ LabeledGraph.nodes exampleGraph ∧
  Some "A" ∈ LabeledGraph.nodes exampleGraph ∧
  ¬ hasEdge exampleGraph (Some "D") (LabeledEdge.mk "D" "A" 3%Z) ∧
  outcome call exampleGraph = Return true ∧
  hasEdge g' (Some "D") (LabeledEdge.mk "D" "A" 3%Z) ∧
  ¬ hasEdge g' (Some "A") (LabeledEdge.mk "A" "D" 3%Z) ∧
  LabeledGraph.nodes g' = LabeledGraph.nodes exampleGraph ∧
  outcome (LabeledGraph.addEdge (Some "Z") (Some "A") (Some 3%Z))
          exampleGraph
  = Throw InvalidArgument.
Proof.
  destruct (addEdge_spec exampleGraph) as (Hnodes & Hcall & Hkeys).
  pose proof (Hcall "D" "A" 3%Z) as Hadd.
  pose proof (Hcall "Z" "A" 3%Z) as Hfail.
  pose proof (Hkeys exampleGraph_repOK) as Hkey.
  assert (Some "D" ∈ LabeledGraph.nodes exampleGraph) as HD
    by (apply (bool_decide_unpack _); vm_compute; exact I).
  assert (Some "A" ∈ LabeledGraph.nodes exampleGraph) as HA
    by (apply (bool_decide_unpack _); vm_compute; exact I).
  assert (Some "Z" ∉ LabeledGraph.nodes exampleGraph) as HZ
    by (apply (bool_decide_unpack _); vm_compute; exact I).
  assert (¬ hasEdge exampleGraph (Some "D") (LabeledEdge.mk "D" "A" 3%Z))
    as Hnew by (apply (bool_decide_unpack _); vm_compute; exact I).
  assert (¬ hasEdge exampleGraph (Some "A") (LabeledEdge.mk "A" "D" 3%Z))
    as Hback by (apply (bool_decide_unpack _); vm_compute; exact I).
  cbv zeta in Hadd, Hfail.
  rewrite (proj2 (Hkey (Some "D")) HD), (proj2 (Hkey (Some "A")) HA)
    in Hadd.
  destruct (LabeledGraph.containsKey exampleGraph (Some "Z")) eqn:HkZ;
    [by apply Hkey in HkZ|].
  simpl in Hadd, Hfail.
  destruct Hadd as (Hret & Hedges & Hreverse).
  destruct Hfail as [Hthrow _].
  split_and!.
  - exact HD.
  - exact HA.
  - exact Hnew.
  - exact Hret.
  - apply Hedges. by right.
  - rewrite Hreverse; [exact Hback|done].
  - apply Hnodes.
  - exact Hthrow.
Defined.

(** [addEdge] with a [null] argument.  With assertions enabled a call
    whose first end point is [null], or is not a node of the graph
    while the label is [null], fails with an [AssertionError] and
    not with [InvalidArgument].  With assertions disabled a call
    between two nodes of the graph with a [null] label fails with the
    [RuntimeException] of the edge constructor: it neither stores an
    edge nor returns whether it did. *)
Lemma addEdge_null_argument :
  (Some "Z" ∉ LabeledGraph.nodes exampleGraph) ∧
  Some "A" ∈ LabeledGraph.nodes exampleGraph ∧
  Some "B" ∈ LabeledGraph.nodes exampleGraph ∧
  LabeledGraph.addEdge (jvm:=checkedJVM) None (Some "A") (Some 3%Z)
    exampleGraph
  = (Throw AssertionError, exampleGraph) ∧
  LabeledGraph.addEdge (jvm:=checkedJVM) (Some "Z") (Some "A") None
    exampleGraph
  = (Throw AssertionError, exampleGraph) ∧
  LabeledGraph.addEdge (jvm:=defaultJVM) (Some "A") (Some "B") None
    exampleGraph
  = (Throw RuntimeException, exampleGraph).
Proof.
  split_and!; try (vm_compute; reflexivity);
    apply (bool_decide_unpack _); vm_compute; exact I.
Qed.

Lemma mutators_preserve_repOK_witness :
  repOK exampleGraph ∧
  repOK (state_after (LabeledGraph.addNode (Some "E")) exampleGraph) ∧
  repOK (state_after
           (LabeledGraph.addEdge (Some "D") (Some "A") (Some 3%Z))
           exampleGraph) ∧
  repOK (state_after
           (LabeledGraph.removeEdge (Some "A") (Some "B") (Some 10%Z))
           exampleGraph).
Proof.
  destruct (mutators_preserve_repOK exampleGraph exampleGraph_repOK)
    as (Hnode & Hadd & Hremove & _).
  split; [exact exampleGraph_repOK|].
  split; [apply Hnode|]. split; [apply Hadd|apply Hremove].
Defined.

(** With assertions disabled, [addNode(null)] on the empty graph
    stores [null] as a node. *)
Lemma addNode_null_stored :
  let g : LabeledGraph.t string Z :=
    state_after (LabeledGraph.addNode (jvm:=defaultJVM) None)
                LabeledGraph.new in
  repOK (LabeledGraph.new : LabeledGraph.t string Z) ∧
  None ∈ LabeledGraph.nodes g ∧
  ¬ repOK g.
Proof.
  split; [apply new_repOK|].
  split; [apply (bool_decide_unpack _); vm_compute; exact I|].
  intros (_ & _ & Hnull). apply Hnull.
  apply (bool_decide_unpack _). vm_compute. exact I.
Qed.

Lemma listNodes_sorted_by_hashCode_witness :
  LabeledGraph.listNodes (hash:=exampleHash) exampleGraph
  = (Return [Some "D"; Some "B"; Some "C"; Some "A"], exampleGraph) ∧
  ∃ l, LabeledGraph.listNodes (hash:=exampleHash) exampleGraph
       = (Return (Some <$> l), exampleGraph) ∧
       Some <$> l ≡ₚ elements (LabeledGraph.nodes exampleGraph) ∧
       Sorted (λ a b, (exampleHash a ≤ exampleHash b)%Z) l.
Proof.
  split; [vm_compute; reflexivity|].
  destruct (listNodes_sorted_by_hashCode (hash:=exampleHash) exampleGraph)
    as (l & Hl & Hperm & _ & _ & Hsorted).
  - apply (bool_decide_unpack _). vm_compute. exact I.
  - exists l. split; [exact Hl|]. split; [exact Hperm|exact Hsorted].
Defined.

(** The order of [listNodes] is the order of the hash codes: with two
    [hashCode]s that order two nodes differently, the same graph is
    listed in two different orders. *)
Lemma listNodes_order_follows_hashCode :
  let g : LabeledGraph.t string Z :=
    state_after (LabeledGraph.addNode (Some "A");;
                 LabeledGraph.addNode (Some "B")) LabeledGraph.new in
  let ascending : HashCode string :=
    λ s, if decide (s = "A") then 1%Z else 2%Z in
  let descending : HashCode string :=
    λ s, if decide (s = "A") then 2%Z else 1%Z in
  outcome (LabeledGraph.listNodes (hash:=ascending)) g
  = Return [Some "A"; Some "B"] ∧
  outcome (LabeledGraph.listNodes (hash:=descending)) g
  = Return [Some "B"; Some "A"].
Proof. split; vm_compute; reflexivity. Qed.

(** The scenarios of the specification: the cheaper route over [B] is
    taken, and an edge is not an edge back. *)
Lemma exampleGraph_scenarios :
  ShortestPathFinder.shortestPathSolver (Q:=list (Path.t string Z))
    exampleGraph "A" "C"
  = Return (Some (Path.mk "A" [Path.mkSegment "A" "B" 10%Z;
                               Path.mkSegment "B" "C" 5%Z] 15%Z)) ∧
  outcome (LabeledGraph.listEdgesOut (Some "B")) exampleGraph
  = Return {[LabeledEdge.mk "B" "C" 5%Z]} ∧
  outcome (LabeledGraph.numEdges (Some "B") (Some "A")) exampleGraph
  = Return 0.
Proof. split_and!; vm_compute; reflexivity. Qed.

(** [numEdges] for a node that is not in the graph. *)
Lemma numEdges_absent_node :
  outcome (LabeledGraph.numEdges (jvm:=defaultJVM) (Some "A") (Some "Z"))
          exampleGraph = Return 0 ∧
  outcome (LabeledGraph.numEdges (jvm:=defaultJVM) (Some "Z") (Some "A"))
          exampleGraph = Throw NullPointerException ∧
  outcome (LabeledGraph.numEdges (jvm:=checkedJVM) (Some "A") (Some "Z"))
          exampleGraph = Throw AssertionError ∧
  outcome (LabeledGraph.addEdge (Some "A") (Some "Z") (Some 1%Z))
          exampleGraph = Throw InvalidArgument.
Proof. split_and!; vm_compute; reflexivity. Qed.

Abbreviation Fringe := (list (Path.t (CampusMap.Point Z) Z)).

Lemma exampleMap_reachable :
  reachable (Q:=Fringe) exampleBuildings examplePaths exampleMap.
Proof. apply reachable_new. vm_compute. reflexivity. Qed.

Lemma exampleMap_registered s :
  s ∈ ["X"; "Y"; ""] → registered exampleMap (Some s).
Proof.
  intros Hs. exists s. split; [done|].
  repeat (apply elem_of_cons in Hs as [->|Hs];
          [vm_compute; eexists; reflexivity|]).
  by apply elem_of_nil in Hs.
Qed.

Lemma exampleMap_unregistered : ¬ registered exampleMap (Some "nowhere").
Proof. intros (s & [= <-] & Hs). vm_compute in Hs. by destruct Hs. Qed.

Lemma findShortestPath_InvalidArgument_witness :
  outcome (CampusMap.findShortestPath (Q:=Fringe) (Some "X") (Some "nowhere"))
          exampleMap = Throw InvalidArgument ∧
  outcome (CampusMap.findShortestPath (Q:=Fringe) None (Some "X"))
          exampleMap = Throw InvalidArgument ∧
  ∃ v, outcome (CampusMap.findShortestPath (Q:=Fringe) (Some "X") (Some "Y"))
         exampleMap = Return v.
Proof.
  split_and!.
  - apply (findShortestPath_InvalidArgument (Q:=Fringe) _ _ exampleMap
             (Some "X") (Some "nowhere") exampleMap_reachable).
    right. exact exampleMap_unregistered.
  - apply (findShortestPath_InvalidArgument (Q:=Fringe) _ _ exampleMap
             None (Some "X") exampleMap_reachable).
    left. apply registered_None.
  - apply (findShortestPath_InvalidArgument (Q:=Fringe) _ _ exampleMap
             (Some "X") (Some "Y") exampleMap_reachable);
      apply exampleMap_registered; set_solver.
Defined.

(** An empty name that is the short name of a building is accepted. *)
Lemma findShortestPath_empty_name_accepted :
  reachable (Q:=Fringe) exampleBuildings examplePaths exampleMap ∧
  outcome (CampusMap.findShortestPath (Q:=Fringe) (Some "") (Some ""))
          exampleMap
  = Return (Some (Path.new (CampusMap.mkPoint 2%Z 2%Z))).
Proof. split; [exact exampleMap_reachable|]. vm_compute. reflexivity. Qed.

Lemma findShortestPath_cached_witness :
  let call := CampusMap.findShortestPath (Q:=Fringe) (Some "Y") (Some "X") in
  let cm1 := state_after call exampleMap in
  outcome call exampleMap = Return None ∧
  call cm1 = (Return None, cm1) ∧
  CampusMap.solverCalls cm1 = 1 ∧
  CampusMap.solverCalls (state_after call cm1) = 1.
Proof.
  intros call cm1.
  destruct (findShortestPath_cached (Q:=Fringe) _ _ exampleMap "Y" "X"
              exampleMap_reachable)
    as (v & Hfirst & Hsecond & _);
    [apply exampleMap_registered; set_solver..|].
  fold call in Hfirst, Hsecond. fold cm1 in Hsecond.
  assert (outcome call exampleMap = Return None) as Hnull
    by (vm_compute; reflexivity).
  rewrite Hnull in Hfirst. injection Hfirst as <-.
  split; [exact Hnull|]. split; [exact Hsecond|].
  split; vm_compute; reflexivity.
Defined.

Lemma longNameForShort_spec_witness :
  CampusMap.longNameForShort (Some "nowhere") exampleMap
  = (Throw InvalidArgument, exampleMap) ∧
  CampusMap.longNameForShort (Some "X") exampleMap
  = (Return "Xenon Hall", exampleMap).
Proof.
  destruct (longNameForShort_spec (Q:=Fringe) _ _ exampleMap
              exampleMap_reachable) as (Hunknown & _ & Hknown).
  split; [apply Hunknown, exampleMap_unregistered|].
  apply (Hknown ltac:(apply (bool_decide_unpack _); vm_compute; exact I)
                (CampusMap.mkBuilding "X" "Xenon Hall" 0%Z 0%Z)).
  apply list_elem_of_here.
Defined.

(** The failure of [longNameForShort] is the one of
    [findShortestPath]. *)
Lemma longNameForShort_fails_like_findShortestPath :
  outcome (CampusMap.longNameForShort (Some "nowhere")) exampleMap
  = Throw InvalidArgument ∧
  outcome (CampusMap.findShortestPath (Q:=Fringe) (Some "nowhere") (Some "X"))
          exampleMap
  = Throw InvalidArgument.
Proof. split; vm_compute; reflexivity. Qed.

Lemma LabeledEdge_compareTo_ignores_from_witness :
  LabeledEdge.compareTo (hashE:=exampleHash) (cmpT:=Integer_compare)
    (LabeledEdge.mk "A" "C" 5%Z) (Some (LabeledEdge.mk "B" "C" 5%Z))
  = Return 0%Z ∧
  LabeledEdge.equals (LabeledEdge.mk "A" "C" 5%Z)
                     (Some (LabeledEdge.mk "B" "C" 5%Z)) = false.
Proof.
  split; [|reflexivity].
  apply (LabeledEdge_compareTo_ignores_from (hashE:=exampleHash)
           (cmpT:=Integer_compare)); [|reflexivity|reflexivity].
  intros l. unfold compareTo, Integer_compare.
  rewrite Z.ltb_irrefl, Z.eqb_refl. reflexivity.
Defined.

Lemma addNode_spec_witness :
  let g := state_after (LabeledGraph.addNode (Some "E")) exampleGraph in
  LabeledGraph.nodes g = {[Some "E"]} ∪ LabeledGraph.nodes exampleGraph ∧
  (∀ k e, hasEdge g k e ↔ hasEdge exampleGraph k e).
Proof.
  destruct (addNode_spec exampleGraph "E" exampleGraph_repOK)
    as (_ & Hnodes & Hedges & _).
  split; [exact Hnodes|exact Hedges].
Defined.

Lemma addEdge_removeEdge_inverse_witness :
  (LabeledGraph.addEdge (Some "D") (Some "A") (Some 3%Z);;
   LabeledGraph.removeEdge (Some "D") (Some "A") (Some 3%Z)) exampleGraph
  = (Return (Some (LabeledEdge.mk "D" "A" 3%Z)), exampleGraph).
Proof.
  apply (addEdge_removeEdge_inverse exampleGraph "D" "A" 3%Z);
    [vm_compute; reflexivity..|].
  unfold hasEdge. apply (bool_decide_unpack _). vm_compute. exact I.
Defined.

Lemma numEdges_after_addEdge_witness :
  ∃ n,
    outcome (LabeledGraph.numEdges (Some "A") (Some "C")) exampleGraph
    = Return n ∧
    outcome (LabeledGraph.numEdges (Some "A") (Some "C"))
      (state_after
         (LabeledGraph.addEdge (Some "A") (Some "C") (Some 7%Z)) exampleGraph)
    = Return (S n).
Proof.
  destruct (numEdges_after_addEdge exampleGraph "A" "C" "A" "C" 7%Z)
    as (n & Hbefore & Hafter); [vm_compute; reflexivity..|].
  exists n. split; [exact Hbefore|]. rewrite Hafter.
  rewrite bool_decide_true; [reflexivity|].
  split; [reflexivity|]. split; [reflexivity|].
  apply (bool_decide_unpack _). vm_compute. exact I.
Defined.

Lemma size_after_mutators_witness :
  outcome LabeledGraph.size_ exampleGraph
  = Return (size (LabeledGraph.nodes exampleGraph)) ∧
  outcome LabeledGraph.size_
    (state_after (LabeledGraph.addEdge (Some "D") (Some "A") (Some 3%Z))
                 exampleGraph)
  = Return (size (LabeledGraph.nodes exampleGraph)).
Proof.
  destruct (size_after_mutators exampleGraph exampleGraph_repOK)
    as (Hsize & _ & Hadd & _).
  split; [exact Hsize|apply Hadd].
Defined.

Lemma fromOK_check `{Countable E, Countable T} (g : LabeledGraph.t E T) :
  map_Forall (λ k edges,
    set_Forall (λ e : LabeledEdge.t E T, k = Some (LabeledEdge.from e)) edges)
    (LabeledGraph.neighbors g) →
  fromOK g.
Proof.
  intros Hall k e. unfold hasEdge, edgesOut.
  destruct (LabeledGraph.neighbors g !! k) as [edges|] eqn:Hk; simpl.
  - intros He. by apply (Hall k edges Hk e).
  - set_solver.
Qed.

Lemma exampleGraph_fromOK : fromOK exampleGraph.
Proof.
  apply fromOK_check. apply (bool_decide_unpack _). vm_compute. exact I.
Qed.

Lemma edges_stored_under_from_witness :
  fromOK (state_after
            (LabeledGraph.addEdge (Some "D") (Some "A") (Some 3%Z))
            exampleGraph).
Proof.
  apply (edges_stored_under_from exampleGraph exampleGraph_fromOK).
Defined.

Lemma listNodes_size_contains_witness :
  ∃ l, outcome (LabeledGraph.listNodes (hash:=exampleHash)) exampleGraph
       = Return l ∧
       outcome LabeledGraph.size_ exampleGraph = Return (length l) ∧
       ∀ n : string,
         outcome (LabeledGraph.contains (Some n)) exampleGraph
         = Return (bool_decide (Some n ∈ l)).
Proof.
  exact (listNodes_size_contains (hash:=exampleHash) exampleGraph
           exampleGraph_repOK).
Defined.

Lemma shortestPathSolver_same_node_witness :
  ShortestPathFinder.shortestPathSolver (Q:=list (Path.t string Z))
    exampleGraph "Z" "Z"
  = Return (Some (Path.new "Z")).
Proof.
  apply (shortestPathSolver_same_node (Q:=list (Path.t string Z))
           exampleGraph "Z").
Defined.

Lemma shortestPathSolver_unknown_end_witness :
  ShortestPathFinder.shortestPathSolver (Q:=list (Path.t string Z))
    exampleGraph "A" "Z"
  = Return None.
Proof.
  apply (shortestPathSolver_unknown_end (Q:=list (Path.t string Z))
           exampleGraph "A" "Z" exampleGraph_repOK).
  - apply (bool_decide_unpack _). vm_compute. exact I.
  - apply (bool_decide_unpack _). vm_compute. exact I.
Defined.

Lemma shortestPathSolver_follows_edges_witness :
  Path.getStart examplePath = "A" ∧ Path.getEnd examplePath = "C" ∧
  chained "A" (Path.path examplePath).
Proof.
  destruct (shortestPathSolver_follows_edges (Q:=list (Path.t string Z))
              exampleGraph "A" "C" examplePath)
    as (Hstart & Hend & Hchain & _); [vm_compute; reflexivity|].
  split; [exact Hstart|]. split; [exact Hend|exact Hchain].
Defined.

Lemma shortestPathSolver_simple_witness : NoDup (nodesOf examplePath).
Proof.
  apply (shortestPathSolver_simple (Q:=list (Path.t string Z))
           exampleGraph "A" "C" examplePath).
  vm_compute. reflexivity.
Defined.

Lemma null_arguments_witness :
  LabeledGraph.contains None exampleGraph = (Return false, exampleGraph) ∧
  LabeledGraph.addEdge (Some "A") (Some "B") None exampleGraph
  = (Throw RuntimeException, exampleGraph) ∧
  LabeledGraph.contains (jvm:=checkedJVM) None exampleGraph
  = (Throw AssertionError, exampleGraph).
Proof.
  destruct (null_arguments (jvm:=defaultJVM) exampleGraph exampleGraph_repOK)
    as (Hcontains & _ & _ & Hlabel).
  destruct (null_arguments (jvm:=checkedJVM) exampleGraph exampleGraph_repOK)
    as (Hchecked & _).
  split; [exact Hcontains|]. split; [|exact Hchecked].
  apply (Hlabel "A" "B").
Defined.

Lemma graph_of_records_witness :
  (None ∉ LabeledGraph.nodes (CampusMap.graph exampleMap)) ∧
  (∀ k e, hasEdge (CampusMap.graph exampleMap) k e
          ↔ ∃ path, path ∈ examplePaths ∧ k = Some (startOf path)
                    ∧ e = edgeOf path).
Proof.
  destruct (graph_of_records (Q:=Fringe) exampleBuildings examplePaths
              exampleMap exampleMap_reachable) as (_ & Hnull & Hedges).
  split; [exact Hnull|exact Hedges].
Defined.

Lemma buildingsList_spec_witness :
  CampusMap.buildingsList exampleMap
  = (Return (list_to_set exampleBuildings), exampleMap).
Proof.
  apply (buildingsList_spec (Q:=Fringe) exampleBuildings examplePaths
           exampleMap exampleMap_reachable).
Defined.

Lemma buildingNames_spec_witness :
  ∃ m, CampusMap.buildingNames exampleMap = (Return m, exampleMap) ∧
       m !! "X" = Some "Xenon Hall".
Proof.
  destruct (buildingNames_spec (Q:=Fringe) exampleBuildings examplePaths
              exampleMap exampleMap_reachable)
    as (m & Hrun & _ & _ & Hlong).
  exists m. split; [exact Hrun|].
  apply (Hlong ltac:(apply (bool_decide_unpack _); vm_compute; exact I)
               (CampusMap.mkBuilding "X" "Xenon Hall" 0%Z 0%Z)).
  apply list_elem_of_here.
Defined.

Lemma CampusMap_throws_only_InvalidArgument_witness :
  outcome (CampusMap.longNameForShort (Some "nowhere")) exampleMap
  = Throw InvalidArgument ∧
  ¬ registered exampleMap (Some "nowhere").
Proof.
  assert (outcome (CampusMap.longNameForShort (Some "nowhere")) exampleMap
          = Throw InvalidArgument) as Hex by (vm_compute; reflexivity).
  split; [exact Hex|].
  destruct (CampusMap_throws_only_InvalidArgument (Q:=Fringe)
              exampleBuildings examplePaths exampleMap exampleMap_reachable)
    as (_ & _ & Hlong & _).
  apply (Hlong (Some "nowhere") InvalidArgument Hex).
Defined.


Lemma findShortestPath_is_solver_witness :
  outcome (CampusMap.findShortestPath (Q:=Fringe) (Some "X") (Some "Y"))
          exampleMap
  = ShortestPathFinder.shortestPathSolver (Q:=Fringe)
      (CampusMap.graph exampleMap)
      (CampusMap.mkPoint 0%Z 0%Z) (CampusMap.mkPoint 1%Z 1%Z).
Proof.
  apply (findShortestPath_is_solver (Q:=Fringe) exampleBuildings
           examplePaths exampleMap "X" "Y" _ _ exampleMap_reachable);
    vm_compute; reflexivity.
Defined.

Lemma findShortestPath_same_building_witness :
  outcome (CampusMap.findShortestPath (Q:=Fringe) (Some "Y") (Some "Y"))
          exampleMap
  = Return (Some (Path.new (CampusMap.mkPoint 1%Z 1%Z))).
Proof.
  apply (findShortestPath_same_building (Q:=Fringe) exampleBuildings
           examplePaths exampleMap "Y" _ exampleMap_reachable).
  vm_compute. reflexivity.
Defined.

Lemma findShortestPath_shortest_witness :
  outcome (CampusMap.findShortestPath (Q:=Fringe) (Some "Y") (Some "X"))
          exampleMap = Return None ∧
  ∀ es, ¬ walk (CampusMap.graph exampleMap) (CampusMap.mkPoint 1%Z 1%Z) es
            (CampusMap.mkPoint 0%Z 0%Z).
Proof.
  assert (outcome (CampusMap.findShortestPath (Q:=Fringe) (Some "Y")
                     (Some "X")) exampleMap = Return None) as Hnone
    by (vm_compute; reflexivity).
  split; [exact Hnone|].
  pose proof (findShortestPath_shortest (Q:=Fringe) exampleBuildings
                examplePaths exampleMap "Y" "X"
                (CampusMap.mkPoint 1%Z 1%Z) (CampusMap.mkPoint 0%Z 0%Z)
                exampleMap_reachable) as Hshortest.
  rewrite Hnone in Hshortest. apply Hshortest.
  - intros path Hpath. apply list_elem_of_singleton in Hpath.
    rewrite Hpath. reflexivity.
  - vm_compute. reflexivity.
  - vm_compute. reflexivity.
Defined.

Lemma postPath_answers_witness :
  SparkServer.postPath (Q:=Fringe) (-1)%Z (Some "") (Some "") exampleMap
  = (Return (SparkServer.mkResponse (Some 418)
               (SparkServer.Text SparkServer.teapot)), exampleMap) ∧
  SparkServer.postPath (Q:=Fringe) (-1)%Z (Some "nowhere") (Some "X")
    exampleMap
  = (Return (SparkServer.mkResponse (Some 400)
               (SparkServer.Text "Starting Point is empty")), exampleMap).
Proof.
  split.
  - apply (postPath_answers (Q:=Fringe) (-1)%Z exampleBuildings examplePaths
             exampleMap "" "" exampleMap_reachable).
  - apply (postPath_answers (Q:=Fringe) (-1)%Z exampleBuildings examplePaths
             exampleMap "nowhere" "X" exampleMap_reachable).
Defined.

Lemma postPath_missing_parameter_witness :
  SparkServer.postPath (Q:=Fringe) (-1)%Z None (Some "X") exampleMap
  = (Throw NullPointerException, exampleMap) ∧
  SparkServer.postPath (Q:=Fringe) (-1)%Z (Some "X") None exampleMap
  = (Throw NullPointerException, exampleMap).
Proof.
  split.
  - apply (postPath_missing_parameter (Q:=Fringe) (-1)%Z exampleBuildings
             examplePaths exampleMap None (Some "X") exampleMap_reachable).
    left. reflexivity.
  - apply (postPath_missing_parameter (Q:=Fringe) (-1)%Z exampleBuildings
             examplePaths exampleMap (Some "X") None exampleMap_reachable).
    right. reflexivity.
Defined.


Lemma exampleDriver_ok : driverOK exampleDriver.
Proof.
  intros graphName graph Hgraph. unfold exampleDriver in Hgraph.
  simpl in Hgraph. apply lookup_singleton_Some in Hgraph as [_ <-].
  exact exampleGraph_repOK.
Qed.

Lemma driver_commands_keep_invariant_witness :
  driverOK (state_after
              (PathfinderTestDriver.addEdge (fmt:=exampleFormat)
                 "g" "D" "A" 3%Z) exampleDriver) ∧
  outcome (PathfinderTestDriver.findPath (Q:=list (Path.t string Z))
             (fmt:=exampleFormat) "nowhere" "A" "C") exampleDriver
  = Throw NullPointerException.
Proof.
  destruct (driver_commands_keep_invariant (Q:=list (Path.t string Z))
              (fmt:=exampleFormat) exampleDriver exampleDriver_ok)
    as (_ & _ & Hedge & Hfind).
  split; [apply Hedge|].
  destruct (Hfind "nowhere" "A" "C") as [_ Hout]. exact Hout.
Defined.
End examples.
